(** * DeepCSF: the report pipeline of [deepcsf/reports/resnet_plot.py]

    A shallow embedding of the functions of [resnet_plot.py] and the
    properties of the specification that concern them.

    Numbers are IEEE 754 binary64 values, as numpy and Python have them:
    the arithmetic is the one of [SpecFloat], instantiated at precision 53
    and maximal exponent 1024, so that every operation rounds to nearest
    even and produces infinities and NaN as the hardware does. *)

From Stdlib Require Import ZArith Lia List Bool String Ascii DecimalString.
From Stdlib Require Import SpecFloat Sorted.
Import ListNotations.

Set Implicit Arguments.

(** ** Binary64 arithmetic *)

Module B64.

Definition prec : Z := 53.
Definition emax : Z := 1024.

Definition float : Type := spec_float.

Definition add : float -> float -> float := SFadd prec emax.
Definition sub : float -> float -> float := SFsub prec emax.
Definition mul : float -> float -> float := SFmul prec emax.
Definition div : float -> float -> float := SFdiv prec emax.
Definition sqrt : float -> float := SFsqrt prec emax.

Definition eqb : float -> float -> bool := SFeqb.
Definition ltb : float -> float -> bool := SFltb.
Definition leb : float -> float -> bool := SFleb.

(** A value is a binary64 number when its mantissa and exponent are the
    canonical ones of the format. *)
Definition valid (x : float) : bool := valid_binary prec emax x.

Definition is_nan (x : float) : bool :=
  match x with S754_nan => true | _ => false end.

Definition is_finite (x : float) : bool :=
  match x with S754_zero _ | S754_finite _ _ _ => true | _ => false end.

Definition is_zero (x : float) : bool :=
  match x with S754_zero _ => true | _ => false end.

Definition is_inf (x : float) : bool :=
  match x with S754_infinity _ => true | _ => false end.

(** Conversion of a Python [int], rounding to nearest even. *)
Definition of_Z (z : Z) : float := binary_normalize prec emax z 0 false.

Definition one : float := Eval vm_compute in of_Z 1.
Definition two : float := Eval vm_compute in of_Z 2.
Definition half : float := Eval vm_compute in div (of_Z 1) (of_Z 2).

(** [np.pi]: the double nearest to pi, 0x1.921fb54442d18p+1. *)
Definition pi : float := S754_finite false 7074237752028440 (-51).

(** The decimal literal [n / d] of the source text, correctly rounded. *)
Definition lit (n d : Z) : float := div (of_Z n) (of_Z d).

(** Rounding up to an integer ([ceil]); no integer for NaN and the
    infinities. *)
Definition ceil (x : float) : option Z :=
  match x with
  | S754_zero _ => Some 0%Z
  | S754_finite s m e =>
      let n := if s then Z.neg m else Z.pos m in
      Some (match e with
            | Z0 => n
            | Zpos p => n * 2 ^ Zpos p
            | Zneg p => - ((- n) / 2 ^ Zpos p)
            end)%Z
  | _ => None
  end.

End B64.

Abbreviation float := B64.float.

Declare Scope b64_scope.
Delimit Scope b64_scope with b64.
Infix "+" := B64.add : b64_scope.
Infix "-" := B64.sub : b64_scope.
Infix "*" := B64.mul : b64_scope.
Infix "/" := B64.div : b64_scope.
Infix "=?" := B64.eqb : b64_scope.
Infix "<?" := B64.ltb : b64_scope.
Infix "<=?" := B64.leb : b64_scope.

(** ** Exceptions

    A Python call either returns or raises; the exceptions that the
    pipeline can meet are listed by name. *)

Inductive exn : Type :=
| IndexError
| ValueError
| OSError
| ZeroDivisionError
| OverflowError.

Inductive result (A : Type) : Type :=
| Ok (a : A)
| Raise (e : exn).

Arguments Ok {A} a.
Arguments Raise {A} e.

Definition bind {A B : Type} (c : result A) (k : A -> result B) : result B :=
  match c with
  | Ok a => k a
  | Raise e => Raise e
  end.

Notation "x <- c ;; k" := (bind c (fun x => k))
  (at level 61, c at next level, right associativity).

(** A loop that appends one value per element and stops at the first
    exception. *)
Fixpoint for_each {A B : Type} (f : A -> result B) (l : list A) : result (list B) :=
  match l with
  | [] => Ok []
  | a :: l' =>
      b <- f a ;;
      bs <- for_each f l' ;;
      Ok (b :: bs)
  end.

(** [a[-1]]: the last element, [IndexError] on an empty sequence. *)
Fixpoint last_item {A : Type} (l : list A) : result A :=
  match l with
  | [] => Raise IndexError
  | [a] => Ok a
  | _ :: l' => last_item l'
  end.

(** ** Python and numpy numbers

    The functions of the module are handed Python [int]s, Python [float]s
    and numpy doubles ([np.float64], the elements of a numpy array).  All
    floats are binary64 values; what sets the two kinds apart is division
    by zero, which raises [ZeroDivisionError] for a Python float and gives
    an infinity or NaN (with a warning, under numpy's default error state)
    for a numpy double.  An operation between a Python float and a numpy
    double is numpy's. *)

Inductive flt : Type :=
| PyFloat (x : float)
| NpFloat (x : float).

Inductive num : Type :=
| PyInt (z : Z)
| Flt (f : flt).

Definition value (f : flt) : float :=
  match f with PyFloat x | NpFloat x => x end.

(** An element of a numpy array of doubles. *)
Definition np (x : float) : num := Flt (NpFloat x).

(** [np.array(l)] for a list of floats of either kind: the doubles. *)
Definition np_array (l : list flt) : list float := map value l.

(** A Python [int] as the (unrounded) number it is. *)
Definition int_value (z : Z) : float :=
  match z with
  | Z0 => S754_zero false
  | Zpos p => S754_finite false p 0
  | Zneg p => S754_finite true p 0
  end.

(** [a / b] for two Python [int]s: the quotient of the two integers,
    rounded once to the nearest double; [ZeroDivisionError] for a zero
    divisor and [OverflowError] when the quotient is too large for a
    double. *)
Definition int_truediv (a b : Z) : result float :=
  if (b =? 0)%Z then Raise ZeroDivisionError
  else
    let q := B64.div (int_value a) (int_value b) in
    if B64.is_inf q then Raise OverflowError else Ok q.

(** [1 / e] *)
Definition one_over (e : num) : result flt :=
  match e with
  | PyInt z => q <- int_truediv 1 z ;; Ok (PyFloat q)
  | Flt (PyFloat x) =>
      if B64.is_zero x then Raise ZeroDivisionError
      else Ok (PyFloat (B64.div B64.one x))
  | Flt (NpFloat x) => Ok (NpFloat (B64.div B64.one x))
  end.

(** [f * b] for a float of either kind and a Python float. *)
Definition times (f : flt) (b : float) : flt :=
  match f with
  | PyFloat x => PyFloat (B64.mul x b)
  | NpFloat x => NpFloat (B64.mul x b)
  end.

(** ** The numpy functions the pipeline calls

    These follow numpy's documentation; they are written over binary64
    values with numpy's comparisons, for which NaN is equal to nothing and
    sorts after every number. *)

Module Np.

Open Scope b64_scope.

(** The order of [ndarray.sort]: numbers ascending, NaN last. *)
Definition sort_lt (a b : float) : bool :=
  (a <? b) || (negb (B64.is_nan a) && B64.is_nan b).

Fixpoint insert (x : float) (l : list float) : list float :=
  match l with
  | [] => [x]
  | y :: l' => if sort_lt x y then x :: l else y :: insert x l'
  end.

Definition sort (l : list float) : list float :=
  fold_right insert [] l.

(** Two neighbours of the sorted array are the same value when they compare
    equal, or when both are NaN ([equal_nan=True], numpy's default). *)
Definition same (a b : float) : bool :=
  (a =? b) || (B64.is_nan a && B64.is_nan b).

Fixpoint dedup (l : list float) : list float :=
  match l with
  | [] => []
  | a :: l' =>
      match l' with
      | [] => [a]
      | b :: _ => if same a b then dedup l' else a :: dedup l'
      end
  end.

(** [np.unique]: the sorted unique values. *)
Definition unique (l : list float) : list float := dedup (sort l).

(** [np.maximum], which lets NaN through, and the reduction [ndarray.max],
    which raises [ValueError] on an empty array. *)
Definition maximum (a b : float) : float :=
  if B64.is_nan a then a
  else if B64.is_nan b then b
  else if a <? b then b else a.

Definition max (l : list float) : result float :=
  match l with
  | [] => Raise ValueError
  | a :: l' => Ok (fold_left maximum l' a)
  end.

(** [np.arange(start, stop, step)] on doubles: [ceil((stop - start) / step)]
    values [start + i * step]; [ValueError] when the length is not a
    number. *)
Definition arange (start stop step : float) : result (list float) :=
  match B64.ceil ((stop - start) / step) with
  | None => Raise ValueError
  | Some len =>
      Ok (map (fun i => start + B64.of_Z (Z.of_nat i) * step)
              (seq 0 (Z.to_nat len)))
  end.

(** [np.interp(x, xp, fp)] at one query point, for [xp] increasing: the
    first value of [fp] left of the sample points, the last one right of
    them, the value of a sample at its own point, and the chord between the
    two neighbouring samples in between.  When the chord from the left
    sample is NaN, numpy takes the chord from the right sample instead. *)
Definition chord (x0 y0 x1 y1 x : float) : float :=
  ((y1 - y0) / (x1 - x0)) * (x - x0) + y0.

Definition chord_or_other (x0 y0 x1 y1 x : float) : float :=
  let v := chord x0 y0 x1 y1 x in
  if B64.is_nan v then
    let v' := ((y1 - y0) / (x1 - x0)) * (x - x1) + y1 in
    if B64.is_nan v' && (y0 =? y1) then y0 else v'
  else v.

Fixpoint interp_between (x : float) (x0 y0 : float) (pts : list (float * float)) : float :=
  match pts with
  | [] => y0
  | (x1, y1) :: pts' =>
      if x <? x1
      then (if x =? x0 then y0 else chord_or_other x0 y0 x1 y1 x)
      else interp_between x x1 y1 pts'
  end.

Definition interp1 (x : float) (pts : list (float * float)) : result float :=
  match pts with
  | [] => Raise ValueError
  | (x0, y0) :: pts' =>
      if B64.is_nan x then Ok x
      else if x <=? x0 then Ok y0
      else Ok (interp_between x x0 y0 pts')
  end.

Definition interp (x xp fp : list float) : result (list float) :=
  if Nat.eqb (List.length xp) (List.length fp)
  then match xp with
       | [] => Raise ValueError
       | _ => for_each (fun q => interp1 q (combine xp fp)) x
       end
  else Raise ValueError.

End Np.

(** ** The trial matrix

    One row per trial, with the columns [contrast, wave, angle, phase,
    side] that [_extract_data] names. *)

Record row : Type := Row {
  contrast : float;
  wave_of : float;
  angle : float;
  phase : float;
  side : float
}.

Definition matrix : Type := list row.

(** ** Sensitivities and frequencies *)

Section Extraction.

Open Scope b64_scope.

(** [result_mat[result_mat[:, 1] == wave]]: the rows of one wave, in file
    order. *)
Definition rows_of_wave (result_mat : matrix) (wave : float) : matrix :=
  filter (fun r => wave_of r =? wave) result_mat.

(** The contrasts are elements of a numpy array: [1 / lowest_contrast[0]]
    is numpy's division, an infinity for a contrast of zero. *)
Definition _extract_sensitivity (result_mat : matrix) : result (list float) :=
  let unique_waves := Np.unique (map wave_of result_mat) in
  for_each
    (fun wave =>
       lowest_contrast <- last_item (rows_of_wave result_mat wave) ;;
       Ok (B64.one / contrast lowest_contrast))
    unique_waves.

(** [target_size] is the image size in pixels, a Python [int]; [/] is true
    division, so that [target_size / 2] is a Python float, or an
    [OverflowError].  [np.pi] is a Python float, and so is [base_sf].  The
    list comprehension stops at the first wave whose inverse raises. *)
Definition wave2sf (wave : list num) (target_size : Z) : result (list flt) :=
  half <- int_truediv target_size 2 ;;
  let base_sf := half / B64.pi in
  for_each (fun e => inv <- one_over e ;; Ok (times inv base_sf)) wave.

(** [xvals] and [yvals] are what [np.interp] makes of its arguments: arrays
    of doubles.  The steps of [np.arange] are numpy doubles, and so are the
    quotients [base_sf / e]. *)
Definition uniform_sfs (xvals yvals : list float) (target_size : Z)
  : result (list float * list float) :=
  max_xval <- int_truediv target_size 2 ;;
  let base_sf := max_xval / B64.pi in
  es <- Np.arange B64.one (max_xval + B64.half) B64.half ;;
  let new_xs := map (fun e => base_sf / e) es in
  new_ys <- Np.interp new_xs xvals yvals ;;
  Ok (new_xs, new_ys).

(** The summary of one test: the dictionaries of the source, with the keys
    they have when [_extract_data] returns. *)
Record unique_params_t : Type := {
  up_wave : list float;
  up_sf : list float;
  up_sf_int : list float
}.

Record sensitivities_t : Type := {
  sens_all : list float;
  sens_all_int : list float
}.

Record data_summary_t : Type := {
  unique_params : unique_params_t;
  accuracies : list (string * list float);
  contrasts_waves : list (string * list float);
  sensitivities : sensitivities_t
}.

(** [np.array(l) / 2] *)
Definition halve (l : list float) : list float :=
  map (fun f => f / B64.two) l.

Definition _extract_data (result_mat : matrix) (target_size : Z)
  : result data_summary_t :=
  let wave := Np.unique (map wave_of result_mat) in
  sfs <- wave2sf (map np wave) target_size ;;
  let sf := halve (np_array sfs) in
  all <- _extract_sensitivity result_mat ;;
  ints <- uniform_sfs wave all target_size ;;
  let '(int_xvals, int_yvals) := ints in
  sfs_int <- wave2sf (map np int_xvals) target_size ;;
  let sf_int := halve (np_array sfs_int) in
  Ok {| unique_params := {| up_wave := wave; up_sf := sf; up_sf_int := sf_int |};
        accuracies := [];
        contrasts_waves := [];
        sensitivities := {| sens_all := all; sens_all_int := int_yvals |} |}.

End Extraction.

Example extract_sensitivity_scenario :
  _extract_sensitivity
    [ Row (B64.lit 5 10) (B64.of_Z 4) (B64.of_Z 0) (B64.of_Z 0) (B64.of_Z 0);
      Row (B64.lit 1 10) (B64.of_Z 4) (B64.of_Z 0) (B64.of_Z 0) (B64.of_Z 0);
      Row (B64.lit 4 10) (B64.of_Z 8) (B64.of_Z 0) (B64.of_Z 0) (B64.of_Z 0);
      Row (B64.lit 5 100) (B64.of_Z 8) (B64.of_Z 0) (B64.of_Z 0) (B64.of_Z 0) ]
  = Ok [B64.of_Z 10; B64.of_Z 20].
Proof. vm_compute. reflexivity. Qed.

(** Division of Python [int]s rounds the quotient of the integers once:
    [2 ** 1024 / 2] is a double although [2 ** 1024] is none, and
    [10 ** 400 / 2] overflows. *)
Example int_truediv_scenario :
  int_truediv 224 2 = Ok (B64.of_Z 112) /\
  int_truediv 1 3 = Ok (B64.lit 1 3) /\
  int_truediv 0 (-2) = Ok (S754_zero true) /\
  int_truediv 1 0 = Raise ZeroDivisionError /\
  int_truediv (2 ^ 1024) 2 = Ok (S754_finite false 4503599627370496 971) /\
  int_truediv (10 ^ 400) 2 = Raise OverflowError.
Proof. vm_compute. repeat split. Qed.

(** A target size too large for a double stops [wave2sf] before it looks
    at the waves, and [_extract_data] with it. *)
Example wave2sf_overflow_scenario :
  wave2sf [] (10 ^ 400) = Raise OverflowError /\
  _extract_data [] (10 ^ 400) = Raise OverflowError.
Proof. vm_compute. split; reflexivity. Qed.

(** The three kinds of zero: a Python [int] and a Python float raise, a
    numpy double gives an infinity. *)
Example wave2sf_zero_scenario :
  wave2sf [PyInt 0] 4 = Raise ZeroDivisionError /\
  wave2sf [Flt (PyFloat (S754_zero true))] 4 = Raise ZeroDivisionError /\
  wave2sf [np (B64.of_Z 0)] 4 = Ok [NpFloat (S754_infinity false)].
Proof. vm_compute. repeat split. Qed.

(** ** Dictionaries

    A Python [dict] keeps its keys in insertion order; assigning to a key
    that is present replaces its value in place. *)

Section Dict.

Variable V : Type.

Definition dict : Type := list (string * V).

Fixpoint dict_get (d : dict) (k : string) : option V :=
  match d with
  | [] => None
  | (k', v) :: d' => if String.eqb k' k then Some v else dict_get d' k
  end.

Fixpoint dict_set (d : dict) (k : string) (v : V) : dict :=
  match d with
  | [] => [(k, v)]
  | (k', v') :: d' =>
      if String.eqb k' k then (k, v) :: d' else (k', v') :: dict_set d' k v
  end.

Definition dict_keys (d : dict) : list string := map fst d.

End Dict.

(** ** Strings and paths *)

Section Strings.

Open Scope string_scope.

(** [sub in s] *)
Fixpoint str_in (sub s : string) : bool :=
  prefix sub s ||
  match s with
  | EmptyString => false
  | String _ s' => str_in sub s'
  end.

(** [s.endswith(suffix)] *)
Fixpoint ends_with (suffix s : string) : bool :=
  String.eqb suffix s ||
  match s with
  | EmptyString => false
  | String _ s' => ends_with suffix s'
  end.

(** [s.split(sep)] for a separator of one character. *)
Fixpoint split (sep : ascii) (s : string) : list string :=
  match s with
  | EmptyString => [EmptyString]
  | String c s' =>
      if Ascii.eqb c sep then EmptyString :: split sep s'
      else match split sep s' with
           | [] => [String c EmptyString]
           | piece :: pieces => String c piece :: pieces
           end
  end.

(** [l[-n]] for [n >= 1], [IndexError] when the list is too short. *)
Definition from_end {A : Type} (l : list A) (n : nat) : result A :=
  match nth_error (rev l) (Nat.pred n) with
  | Some a => Ok a
  | None => Raise IndexError
  end.

Definition slash : ascii := "/"%char.

(** ['%d' % n] *)
Definition format_d (n : nat) : string :=
  NilEmpty.string_of_uint (Nat.to_uint n).

(** [sorted] on strings and on values that carry one. *)
Fixpoint insert_by {A : Type} (key : A -> string) (x : A) (l : list A) : list A :=
  match l with
  | [] => [x]
  | y :: l' =>
      if String.leb (key x) (key y) then x :: l else y :: insert_by key x l'
  end.

Definition sorted_by {A : Type} (key : A -> string) (l : list A) : list A :=
  fold_right (insert_by key) [] l.

End Strings.

(** ** Loading the results *)

Section Loader.

Open Scope string_scope.

Definition _area_name_from_path (file_name : string) : option string :=
  (fix loop (inds : list nat) : option string :=
     match inds with
     | [] => None
     | area_ind :: inds' =>
         let area_name := "area" ++ format_d area_ind in
         if str_in area_name file_name then Some area_name else loop inds'
     end) (seq 0 5).

(** The file system below the root, two levels deep as the loader reads
    it.  An entry of a channel directory is a file, given by what
    [np.loadtxt] makes of it (a matrix or an exception), or a folder; an
    entry of the root is a plain file or a directory with its entries. *)
Inductive node : Type :=
| File (loaded : result matrix)
| Folder.

Inductive root_node : Type :=
| Plain
| Dir (entries : list (string * node)).

Definition hidden (name : string) : bool := prefix "." name.

(** [glob.has_magic]: the text holds one of the characters that [glob]
    reads as part of a pattern.  [glob_dirs] and [glob_csv] below take the
    path they are given as the name of one directory, which is what [glob]
    does with a path that holds none of these characters. *)
Fixpoint magic (s : string) : bool :=
  match s with
  | EmptyString => false
  | String c s' =>
      Ascii.eqb c "*" || Ascii.eqb c "?" || Ascii.eqb c "[" || magic s'
  end.

(** [glob.glob(path + '/*/')]: the visible subdirectories, each with the
    path that glob gives it. *)
Definition glob_dirs (path : string) (entries : list (string * root_node))
  : list (string * list (string * node)) :=
  flat_map
    (fun e =>
       match e with
       | (name, Dir sub) =>
           if hidden name then [] else [(path ++ "/" ++ name ++ "/", sub)]
       | _ => []
       end)
    entries.

(** [glob.glob(chns_dir + '*.csv')] *)
Definition glob_csv (chns_dir : string) (entries : list (string * node))
  : list (string * node) :=
  flat_map
    (fun e =>
       let '(name, n) := e in
       if negb (hidden name) && ends_with ".csv" name
       then [(chns_dir ++ name, n)] else [])
    entries.

Definition loadtxt (n : node) : result matrix :=
  match n with
  | File loaded => loaded
  | Folder => Raise OSError
  end.

Definition chn_res_t : Type := list (matrix * option string).

Definition load_channel (chns_dir : string) (entries : list (string * node))
  : result chn_res_t :=
  for_each
    (fun f =>
       let '(file_path, n) := f in
       file_name <- from_end (split slash file_path) 1 ;;
       let area_name := _area_name_from_path file_name in
       mat <- loadtxt n ;;
       Ok (mat, area_name))
    (sorted_by fst (glob_csv chns_dir entries)).

Fixpoint load_dirs (dirs : list (string * list (string * node)))
  (chns : option (list string)) (net_results : dict chn_res_t)
  : result (dict chn_res_t) :=
  match dirs with
  | [] => Ok net_results
  | (chns_dir, entries) :: dirs' =>
      chn_name <- from_end (split slash chns_dir) 2 ;;
      let skip :=
        match chns with
        | Some allowed => negb (existsb (String.eqb chn_name) allowed)
        | None => false
        end in
      if skip then load_dirs dirs' chns net_results
      else
        chn_res <- load_channel chns_dir entries ;;
        if Nat.ltb 0 (List.length chn_res)
        then load_dirs dirs' chns (dict_set net_results chn_name chn_res)
        else load_dirs dirs' chns net_results
  end.

Definition _load_network_results (root : list (string * root_node)) (path : string)
  (chns : option (list string)) : result (dict chn_res_t) :=
  load_dirs (sorted_by fst (glob_dirs path root)) chns [].

End Loader.

Section LoaderScenario.

Open Scope string_scope.

Example load_scenario :
  _load_network_results
    [ ("rg", Dir [("noarea.csv", File (Ok []))]);
      ("lum", Dir [("test_area2.csv", File (Ok []))]);
      ("empty", Dir [("notes.txt", File (Raise OSError))]);
      ("README", Plain) ]
    "root" None
  = Ok [ ("lum", [([], Some "area2")]); ("rg", [([], None)]) ].
Proof. vm_compute. reflexivity. Qed.

End LoaderScenario.

(** ** The summary of a network *)

Definition chn_summary_t : Type := list (data_summary_t * option string).

Definition _extract_network_summary (net_results : dict chn_res_t)
  (target_size : Z) : result (dict chn_summary_t) :=
  fold_left
    (fun acc item =>
       net_summary <- acc ;;
       let '(chn_name, chn_data) := item in
       tests <- for_each
                  (fun t =>
                     test_summary <- _extract_data (fst t) target_size ;;
                     Ok (test_summary, snd t))
                  chn_data ;;
       Ok (dict_set net_summary chn_name tests))
    net_results (Ok []).

(** ** Rendering

    A figure is the list of its axes; an axes object records what was drawn
    on it.  The legend label of a channel is its name followed by the two
    scores, when they were computed; they are kept as numbers rather than
    as the text that ['%.2f'] prints. *)

Record label_t : Type := {
  lbl_text : string;
  lbl_scores : option (float * float)
}.

Record line_t : Type := {
  ln_xs : list float;
  ln_ys : list float;
  ln_fmt : option string;
  ln_label : label_t;
  ln_kwargs : list (string * string)
}.

Record axes_t : Type := {
  ax_title : option (option string);
  ax_lines : list line_t;
  ax_xlabel : option string;
  ax_ylabel : option string;
  ax_xscale : option string;
  ax_legend : bool
}.

Record figure_t : Type := {
  fig_size : nat * nat;
  fig_axes : list axes_t
}.

Definition new_axes : axes_t :=
  {| ax_title := None; ax_lines := []; ax_xlabel := None; ax_ylabel := None;
     ax_xscale := None; ax_legend := false |}.

Definition set_title (t : option string) (ax : axes_t) : axes_t :=
  {| ax_title := Some t; ax_lines := ax_lines ax; ax_xlabel := ax_xlabel ax;
     ax_ylabel := ax_ylabel ax; ax_xscale := ax_xscale ax;
     ax_legend := ax_legend ax |}.

Definition plot (l : line_t) (ax : axes_t) : axes_t :=
  {| ax_title := ax_title ax; ax_lines := ax_lines ax ++ [l];
     ax_xlabel := ax_xlabel ax; ax_ylabel := ax_ylabel ax;
     ax_xscale := ax_xscale ax; ax_legend := ax_legend ax |}.

Definition set_xlabel (s : string) (ax : axes_t) : axes_t :=
  {| ax_title := ax_title ax; ax_lines := ax_lines ax; ax_xlabel := Some s;
     ax_ylabel := ax_ylabel ax; ax_xscale := ax_xscale ax;
     ax_legend := ax_legend ax |}.

Definition set_ylabel (s : string) (ax : axes_t) : axes_t :=
  {| ax_title := ax_title ax; ax_lines := ax_lines ax;
     ax_xlabel := ax_xlabel ax; ax_ylabel := Some s;
     ax_xscale := ax_xscale ax; ax_legend := ax_legend ax |}.

Definition set_xscale (s : string) (ax : axes_t) : axes_t :=
  {| ax_title := ax_title ax; ax_lines := ax_lines ax;
     ax_xlabel := ax_xlabel ax; ax_ylabel := ax_ylabel ax;
     ax_xscale := Some s; ax_legend := ax_legend ax |}.

Definition legend (ax : axes_t) : axes_t :=
  {| ax_title := ax_title ax; ax_lines := ax_lines ax;
     ax_xlabel := ax_xlabel ax; ax_ylabel := ax_ylabel ax;
     ax_xscale := ax_xscale ax; ax_legend := true |}.

(** Replacing the axes at one index of a figure. *)
Fixpoint set_nth {A : Type} (l : list A) (i : nat) (a : A) : list A :=
  match l, i with
  | [], _ => []
  | _ :: l', O => a :: l'
  | b :: l', S i' => b :: set_nth l' i' a
  end.

(** The keyword arguments of [_plot_chn_csf], each with the value it has
    in the call: the one given, or the default. *)
Record plot_kwargs : Type := {
  figsize : nat * nat;
  log_axis : bool;
  normalise : bool;
  model_name : option string;
  old_fig : option figure_t
}.

Definition with_old_fig (kw : plot_kwargs) (fig : figure_t) : plot_kwargs :=
  {| figsize := figsize kw; log_axis := log_axis kw; normalise := normalise kw;
     model_name := model_name kw; old_fig := Some fig |}.

Definition without_model (kw : plot_kwargs) : plot_kwargs :=
  {| figsize := figsize kw; log_axis := log_axis kw; normalise := normalise kw;
     model_name := None; old_fig := old_fig kw |}.

Section Render.

Open Scope string_scope.

(** The reference curve [animal_csfs.csf] belongs to another module of the
    package, and [scipy.stats.pearsonr] to scipy: both are taken as
    given. *)
Variable csf : float -> string -> float.
Variable pearsonr : list float -> list float -> result (float * float).

(** [np.linalg.norm] of a vector: the root of the sum of the squares. *)
Definition norm (v : list float) : float :=
  B64.sqrt (fold_left (fun acc x => B64.add acc (B64.mul x x)) v (B64.of_Z 0)).

(** [a /= a.max()] *)
Definition divide_by_max (a : list float) : result (list float) :=
  m <- Np.max a ;;
  Ok (map (fun x => B64.div x m) a).

Definition _chn_plot_params (chn_name : string)
  : string * list (string * string) :=
  if String.eqb chn_name "lum" then
    ("lum", [("color", "gray"); ("marker", "x"); ("linestyle", "-")])
  else if String.eqb chn_name "rg" then
    ("rg   ", [("color", "green"); ("marker", "1"); ("linestyle", "-");
               ("markerfacecolor", "white"); ("markeredgecolor", "r")])
  else if String.eqb chn_name "yb" then
    ("yb   ", [("color", "blue"); ("marker", "2"); ("linestyle", "-");
               ("markerfacecolor", "white"); ("markeredgecolor", "y")])
  else (chn_name, []).

(** The comparison with the reference curve, on the interpolated grid:
    the correlation and the distance of the two normalised curves. *)
Definition compare_reference (name : string) (test : data_summary_t)
  : result (float * float) :=
  let int_freqs := up_sf_int (unique_params test) in
  hcsf <- divide_by_max (map (fun f => csf f name) int_freqs) ;;
  int_yvals <- divide_by_max (sens_all_int (sensitivities test)) ;;
  corr <- pearsonr int_yvals hcsf ;;
  let euc_dis :=
    norm (map (fun p => B64.sub (fst p) (snd p)) (combine hcsf int_yvals)) in
  Ok (fst corr, euc_dis).

(** One turn of the loop of [_plot_chn_csf]: the test of index [i] drawn on
    its axes. *)
Definition plot_test (chn_name : string) (kw : plot_kwargs) (fig : figure_t)
  (i : nat) (test : data_summary_t * option string) : result figure_t :=
  let org_yvals := sens_all (sensitivities (fst test)) in
  let org_freqs := up_sf (unique_params (fst test)) in
  at_ax <- match old_fig kw with
           | Some _ =>
               match nth_error (fig_axes fig) i with
               | Some ax => Ok (fig, ax)
               | None => Raise IndexError
               end
           | None =>
               Ok ({| fig_size := fig_size fig;
                      fig_axes := fig_axes fig ++ [new_axes] |}, new_axes)
           end ;;
  let '(fig, ax) := at_ax in
  let k := match old_fig kw with Some _ => i | None => List.length (fig_axes fig) - 1 end in
  let ax := set_title (snd test) ax in
  let '(label, chn_params) := _chn_plot_params chn_name in
  org_yvals <- (if normalise kw then divide_by_max org_yvals else Ok org_yvals) ;;
  drawn <- match model_name kw with
           | Some name =>
               hcsf <- divide_by_max (map (fun f => csf f name) org_freqs) ;;
               top <- Np.max org_yvals ;;
               let hcsf := map (fun h => B64.mul h top) hcsf in
               let ax := plot {| ln_xs := org_freqs; ln_ys := hcsf;
                                 ln_fmt := Some "--";
                                 ln_label := {| lbl_text := "human";
                                                lbl_scores := None |};
                                 ln_kwargs := [("color", "black")] |} ax in
               scores <- compare_reference name (fst test) ;;
               Ok (ax, Some scores)
           | None => Ok (ax, None)
           end ;;
  let '(ax, suffix_label) := drawn in
  let chn_label := {| lbl_text := label; lbl_scores := suffix_label |} in
  let ax := plot {| ln_xs := org_freqs; ln_ys := org_yvals; ln_fmt := None;
                    ln_label := chn_label; ln_kwargs := chn_params |} ax in
  let ax := set_xlabel "Spatial Frequency (Cycle/Image)" ax in
  let ax := set_ylabel "Sensitivity (1/Contrast)" ax in
  let ax := if log_axis kw then set_xscale "log" ax else ax in
  let ax := legend ax in
  Ok {| fig_size := fig_size fig; fig_axes := set_nth (fig_axes fig) k ax |}.

Fixpoint plot_tests (chn_name : string) (kw : plot_kwargs) (fig : figure_t)
  (i : nat) (tests : chn_summary_t) : result figure_t :=
  match tests with
  | [] => Ok fig
  | test :: tests' =>
      fig' <- plot_test chn_name kw fig i test ;;
      plot_tests chn_name kw fig' (S i) tests'
  end.

Definition _plot_chn_csf (chn_summary : chn_summary_t) (chn_name : string)
  (kw : plot_kwargs) : result figure_t :=
  let fig := match old_fig kw with
             | None => {| fig_size := figsize kw; fig_axes := [] |}
             | Some f => f
             end in
  plot_tests chn_name kw fig 0 chn_summary.

(** The loop of [plot_csf_areas] over the channels of the summary; the
    state is the dictionary [kwargs] and the figure returned last. *)
Fixpoint plot_channels (items : list (string * chn_summary_t))
  (kw : plot_kwargs) (net_csf_fig : option figure_t) : result (option figure_t) :=
  match items with
  | [] => Ok net_csf_fig
  | (chn_key, chn_val) :: items' =>
      let kw := match net_csf_fig with
                | Some fig => without_model (with_old_fig kw fig)
                | None => kw
                end in
      fig <- _plot_chn_csf chn_val chn_key kw ;;
      plot_channels items' kw (Some fig)
  end.


End Render.

(** * Properties *)

(** ** Strings *)

Section StringFacts.

Open Scope string_scope.





End StringFacts.

(** ** The area label *)

Section AreaLabel.

Open Scope string_scope.



End AreaLabel.

(** ** Dictionaries and sorting: basic facts *)

Section DictFacts.

Variable V : Type.

Lemma dict_get_set (d : dict V) (k k' : string) (v : V) :
  dict_get (dict_set d k v) k' =
  if String.eqb k k' then Some v else dict_get d k'.
Proof.
  induction d as [|[k0 v0] d IH]; simpl.
  - reflexivity.
  - destruct (String.eqb k0 k) eqn:E0; simpl.
    + apply String.eqb_eq in E0. subst k0.
      destruct (String.eqb k k'); reflexivity.
    + rewrite IH. destruct (String.eqb k0 k') eqn:E1; [|reflexivity].
      apply String.eqb_eq in E1. subst k0. apply String.eqb_neq in E0.
      destruct (String.eqb_spec k k'); congruence.
Qed.

Lemma dict_get_In (d : dict V) (k : string) (v : V) :
  dict_get d k = Some v -> In (k, v) d.
Proof.
  induction d as [|[k0 v0] d IH]; simpl; [discriminate|].
  destruct (String.eqb k0 k) eqn:E.
  - apply String.eqb_eq in E. intros [= ->]. left. congruence.
  - auto.
Qed.

Lemma dict_keys_get (d : dict V) (k : string) :
  In k (dict_keys d) <-> exists v, dict_get d k = Some v.
Proof.
  induction d as [|[k0 v0] d IH]; simpl.
  - split; [tauto | intros [v H]; discriminate].
  - destruct (String.eqb k0 k) eqn:E.
    + apply String.eqb_eq in E. split; eauto.
    + apply String.eqb_neq in E. rewrite IH. split; [intros [?|?]|]; tauto.
Qed.

End DictFacts.

Section SortFacts.

Variable A : Type.
Variable key : A -> string.

Lemma insert_by_In (x y : A) (l : list A) :
  In y (insert_by key x l) <-> y = x \/ In y l.
Proof.
  induction l as [|z l IH]; simpl.
  - intuition auto.
  - destruct (String.leb (key x) (key z)); simpl; rewrite ?IH; intuition auto.
Qed.

Lemma sorted_by_In (y : A) (l : list A) :
  In y (sorted_by key l) <-> In y l.
Proof.
  induction l as [|x l IH]; simpl; [tauto|].
  rewrite insert_by_In, IH. intuition auto.
Qed.

Lemma insert_by_length (x : A) (l : list A) :
  List.length (insert_by key x l) = S (List.length l).
Proof.
  induction l as [|z l IH]; simpl; [reflexivity|].
  destruct (String.leb (key x) (key z)); simpl; congruence.
Qed.

Lemma sorted_by_length (l : list A) :
  List.length (sorted_by key l) = List.length l.
Proof.
  induction l as [|x l IH]; simpl; [reflexivity|].
  rewrite insert_by_length. congruence.
Qed.

End SortFacts.

Section ForEachFacts.

Variables A B : Type.
Variable f : A -> result B.

Lemma for_each_length (l : list A) (bs : list B) :
  for_each f l = Ok bs -> List.length bs = List.length l.
Proof.
  revert bs; induction l as [|a l IH]; simpl; intros bs H.
  - injection H as <-. reflexivity.
  - destruct (f a); simpl in H; [|discriminate].
    destruct (for_each f l); simpl in H; [|discriminate].
    injection H as <-. simpl. f_equal. apply IH. reflexivity.
Qed.

Lemma for_each_nth (l : list A) (bs : list B) (i : nat) (a : A) :
  for_each f l = Ok bs -> nth_error l i = Some a ->
  exists b, f a = Ok b /\ nth_error bs i = Some b.
Proof.
  revert bs i; induction l as [|a0 l IH]; simpl; intros bs i H Hi.
  - destruct i; discriminate.
  - destruct (f a0) eqn:E0; simpl in H; [|discriminate].
    destruct (for_each f l); simpl in H; [|discriminate].
    injection H as <-. destruct i; simpl in *.
    + injection Hi as <-. eauto.
    + eapply IH; eauto.
Qed.

Lemma for_each_total (l : list A) :
  (forall a, In a l -> exists b, f a = Ok b) ->
  exists bs, for_each f l = Ok bs.
Proof.
  induction l as [|a l IH]; simpl; intros H.
  - eauto.
  - destruct (H a) as [b Hb]; [auto|]. rewrite Hb. simpl.
    destruct IH as [bs Hbs]; [auto|]. rewrite Hbs. simpl. eauto.
Qed.

Lemma for_each_map (g : A -> B) (l : list A) :
  (forall a, In a l -> f a = Ok (g a)) -> for_each f l = Ok (map g l).
Proof.
  induction l as [|a l IH]; simpl; intros H; [reflexivity|].
  rewrite H by auto. simpl. rewrite IH by auto. reflexivity.
Qed.

End ForEachFacts.

(** ** The loader *)

Section LoaderFacts.

Open Scope string_scope.

(** The channel name that the loader reads off a directory path. *)
Definition chn_name_of (chns_dir : string) : result string :=
  from_end (split slash chns_dir) 2.

Lemma glob_dirs_In (path : string) (root : list (string * root_node))
  (chns_dir : string) (entries : list (string * node)) :
  In (chns_dir, entries) (glob_dirs path root) <->
  exists name, In (name, Dir entries) root /\ hidden name = false /\
               chns_dir = path ++ "/" ++ name ++ "/".
Proof.
  unfold glob_dirs. rewrite in_flat_map. split.
  - intros [[name [|sub]] [Hin H]]; simpl in H; [tauto|].
    destruct (hidden name) eqn:Hh; simpl in H; [tauto|].
    destruct H as [H|[]]. injection H as <- <-. eauto.
  - intros [name [Hin [Hh ->]]]. exists (name, Dir entries).
    split; [assumption|]. simpl. rewrite Hh. left. reflexivity.
Qed.

Lemma load_channel_length (chns_dir : string) (entries : list (string * node))
  (chn_res : chn_res_t) :
  load_channel chns_dir entries = Ok chn_res ->
  List.length chn_res = List.length (glob_csv chns_dir entries).
Proof.
  unfold load_channel. intros H. apply for_each_length in H.
  rewrite H. apply sorted_by_length.
Qed.

(** What the loader keeps true of the dictionary it fills: every key is an
    allowed channel and the name of a listed directory, and its value has
    one item per .csv file of that directory, at least one. *)
Definition loaded_ok (all : list (string * list (string * node)))
  (chns : option (list string)) (d : dict chn_res_t) : Prop :=
  forall k v, dict_get d k = Some v ->
    v <> [] /\
    (forall allowed, chns = Some allowed -> In k allowed) /\
    exists chns_dir entries,
      In (chns_dir, entries) all /\ chn_name_of chns_dir = Ok k /\
      List.length v = List.length (glob_csv chns_dir entries).

Lemma load_dirs_ok (all dirs : list (string * list (string * node)))
  (chns : option (list string)) (d r : dict chn_res_t) :
  (forall x, In x dirs -> In x all) ->
  loaded_ok all chns d ->
  load_dirs dirs chns d = Ok r ->
  loaded_ok all chns r.
Proof.
  revert d; induction dirs as [|[chns_dir entries] dirs IH]; intros d Hsub Hd H.
  - simpl in H. injection H as <-. exact Hd.
  - simpl in H. fold (chn_name_of chns_dir) in H.
    destruct (chn_name_of chns_dir) as [chn_name|] eqn:Hname; simpl in H;
      [|discriminate].
    assert (Hsub' : forall x, In x dirs -> In x all)
      by (intros x Hx; apply Hsub; right; exact Hx).
    match type of H with (if ?c then _ else _) = _ => destruct c eqn:Hskip end.
    { eapply IH; eauto. }
    destruct (load_channel chns_dir entries) as [chn_res|] eqn:Hload;
      simpl in H; [|discriminate].
    destruct (Nat.ltb 0 (List.length chn_res)) eqn:Hlen.
    + eapply IH; [exact Hsub' | | exact H].
      intros k v. rewrite dict_get_set.
      destruct (String.eqb_spec chn_name k) as [->|ne]; [|apply Hd].
      intros [= <-]. split; [|split].
      * apply Nat.ltb_lt in Hlen. destruct chn_res; simpl in Hlen;
          [lia | discriminate].
      * intros allowed ->. simpl in Hskip. apply negb_false_iff in Hskip.
        apply existsb_exists in Hskip. destruct Hskip as [x [Hx Hxk]].
        apply String.eqb_eq in Hxk. subst x. exact Hx.
      * exists chns_dir, entries. split; [apply Hsub; left; reflexivity|].
        split; [exact Hname|]. apply load_channel_length. exact Hload.
    + eapply IH; eauto.
Qed.

(** C6. Whatever the root directory holds, when the loader returns: under
    a channel filter every key of the result is in the filter; and every key
    is the name of a visible directory of the root that has at least one
    .csv file, with one item per such file, so that a directory without
    .csv files gives no key and no key is mapped to an empty list. *)
Theorem load_network_results_keys (root : list (string * root_node))
  (path : string) (chns : option (list string)) (r : dict chn_res_t) :
  _load_network_results root path chns = Ok r ->
  (forall allowed, chns = Some allowed ->
     forall k, In k (dict_keys r) -> In k allowed) /\
  (forall k v, dict_get r k = Some v ->
     v <> [] /\
     exists name entries,
       In (name, Dir entries) root /\ hidden name = false /\
       chn_name_of (path ++ "/" ++ name ++ "/") = Ok k /\
       List.length v =
         List.length (glob_csv (path ++ "/" ++ name ++ "/") entries) /\
       glob_csv (path ++ "/" ++ name ++ "/") entries <> []).
Proof.
  unfold _load_network_results. intros H.
  assert (Hok : loaded_ok (glob_dirs path root) chns r).
  { eapply load_dirs_ok; [| |exact H].
    - intros x Hx. apply sorted_by_In in Hx. exact Hx.
    - intros k v Hkv. discriminate. }
  split.
  - intros allowed Hch k Hk. apply dict_keys_get in Hk. destruct Hk as [v Hv].
    destruct (Hok k v Hv) as [_ [Hall _]]. auto.
  - intros k v Hv. destruct (Hok k v Hv) as [Hne [_ [chns_dir [entries H3]]]].
    destruct H3 as [Hin [Hname Hlen]]. split; [exact Hne|].
    apply glob_dirs_In in Hin. destruct Hin as [name [Hroot [Hh ->]]].
    exists name, entries. repeat split; auto.
    intros Hnil. rewrite Hnil in Hlen. destruct v; [congruence|discriminate].
Qed.

Definition scenario_root : list (string * root_node) :=
  [ ("rg", Dir [("noarea.csv", File (Ok []))]);
    ("lum", Dir [("test_area2.csv", File (Ok []))]);
    ("empty", Dir [("notes.txt", File (Raise OSError))]) ].

Definition scenario_lum : dict chn_res_t :=
  [ ("lum", [([], Some "area2")]) ].

Lemma load_network_results_keys_witness :
  (forall allowed, Some ["lum"] = Some allowed ->
     forall k, In k (dict_keys scenario_lum) -> In k allowed) /\
  (forall k v, dict_get scenario_lum k = Some v ->
     v <> [] /\
     exists name entries,
       In (name, Dir entries) scenario_root /\ hidden name = false /\
       chn_name_of ("root" ++ "/" ++ name ++ "/") = Ok k /\
       List.length v =
         List.length (glob_csv ("root" ++ "/" ++ name ++ "/") entries) /\
       glob_csv ("root" ++ "/" ++ name ++ "/") entries <> []).
Proof.
  apply (@load_network_results_keys scenario_root "root" (Some ["lum"])
           scenario_lum).
  vm_compute. reflexivity.
Defined.

End LoaderFacts.

(** ** Waves and frequencies *)

Section WaveFacts.

Open Scope b64_scope.

Lemma one_over_zero (s : bool) : B64.one / S754_zero s = S754_infinity s.
Proof. destruct s; reflexivity. Qed.

Lemma infinity_times (s : bool) (b : float) :
  (B64.is_inf (S754_infinity s * b) || B64.is_nan (S754_infinity s * b))%bool
  = true.
Proof. destruct b; reflexivity. Qed.

(** On numpy doubles no inverse raises: [wave2sf] fails only when
    [target_size / 2] does. *)
Lemma wave2sf_doubles (wave : list float) (target_size : Z) (half : float) :
  int_truediv target_size 2 = Ok half ->
  wave2sf (map np wave) target_size =
  Ok (map (fun e => NpFloat ((B64.one / e) * (half / B64.pi))) wave).
Proof.
  intros H. unfold wave2sf. rewrite H. cbn [bind].
  induction wave as [|e wave IH]; [reflexivity|].
  cbn [map for_each np one_over bind times]. fold np.
  rewrite IH. reflexivity.
Qed.

(** C9, amended. A wave equal to zero (of either sign) that is a numpy
    double does not stop [wave2sf] and is not treated apart, for every
    target size whose half is a double: the other entries are mapped as
    usual, and the entry of the zero wave is the product of the infinity
    [1 / 0] and the base frequency, that is an infinity or NaN. *)
Theorem wave2sf_zero_wave (before after : list float) (s : bool)
  (target_size : Z) (half : float) :
  int_truediv target_size 2 = Ok half ->
  exists sfs_before v sfs_after,
    wave2sf (map np before) target_size = Ok sfs_before /\
    wave2sf (map np after) target_size = Ok sfs_after /\
    wave2sf (map np (before ++ S754_zero s :: after)) target_size =
      Ok (sfs_before ++ NpFloat v :: sfs_after) /\
    v = (B64.one / S754_zero s) * (half / B64.pi) /\
    (B64.is_inf v || B64.is_nan v)%bool = true.
Proof.
  intros H.
  exists (map (fun e => NpFloat ((B64.one / e) * (half / B64.pi))) before),
         ((B64.one / S754_zero s) * (half / B64.pi)),
         (map (fun e => NpFloat ((B64.one / e) * (half / B64.pi))) after).
  rewrite !(wave2sf_doubles _ _ H), map_app. cbn [map].
  repeat split. rewrite one_over_zero. apply infinity_times.
Qed.

Lemma wave2sf_zero_wave_witness :
  exists sfs_before v sfs_after,
    wave2sf (map np [B64.of_Z 4]) 224 = Ok sfs_before /\
    wave2sf (map np [B64.of_Z 8]) 224 = Ok sfs_after /\
    wave2sf (map np ([B64.of_Z 4] ++ S754_zero false :: [B64.of_Z 8])) 224 =
      Ok (sfs_before ++ NpFloat v :: sfs_after) /\
    v = (B64.one / S754_zero false) * (B64.of_Z 112 / B64.pi) /\
    (B64.is_inf v || B64.is_nan v)%bool = true.
Proof.
  apply (@wave2sf_zero_wave [B64.of_Z 4] [B64.of_Z 8] false 224
           (B64.of_Z 112)).
  vm_compute. reflexivity.
Defined.

(** C9, as stated, fails: a zero that is a Python float, in a plain list,
    makes [1 / e] raise. *)
Lemma wave2sf_python_zero :
  wave2sf [Flt (PyFloat (B64.of_Z 0))] 224 = Raise ZeroDivisionError.
Proof. vm_compute. reflexivity. Qed.

(** For an image of 224 pixels and the wave 5 the value that [wave2sf]
    returns is not the double [224 / (2 * pi) / 5]. *)
Lemma wave2sf_not_exact :
  wave2sf [np (B64.of_Z 5)] 224 <>
  Ok [ NpFloat ((B64.of_Z 224 / (B64.two * B64.pi)) / B64.of_Z 5) ].
Proof. vm_compute. discriminate. Qed.

(** C4. In every summary that [_extract_data] builds, both frequency
    fields are halved: [sf] is what [wave2sf] returns for the unique waves,
    divided by 2 entry by entry, and [sf_int] is what [wave2sf] returns
    for the x-values of the uniform grid, divided by 2 entry by entry. *)
Theorem extract_data_halved (result_mat : matrix) (target_size : Z)
  (d : data_summary_t) :
  _extract_data result_mat target_size = Ok d ->
  up_wave (unique_params d) = Np.unique (map wave_of result_mat) /\
  (exists sfs,
     wave2sf (map np (up_wave (unique_params d))) target_size = Ok sfs /\
     up_sf (unique_params d) = map (fun f => value f / B64.two) sfs) /\
  exists int_xvals int_yvals,
    uniform_sfs (up_wave (unique_params d)) (sens_all (sensitivities d))
                target_size
      = Ok (int_xvals, int_yvals) /\
    sens_all_int (sensitivities d) = int_yvals /\
    exists sfs_int,
      wave2sf (map np int_xvals) target_size = Ok sfs_int /\
      up_sf_int (unique_params d) = map (fun f => value f / B64.two) sfs_int.
Proof.
  unfold _extract_data. intros H.
  destruct (wave2sf (map np (Np.unique (map wave_of result_mat))) target_size)
    as [sfs|] eqn:Hsf; cbn [bind] in H; [|discriminate].
  destruct (_extract_sensitivity result_mat) as [all|] eqn:Hall; cbn [bind] in H;
    [|discriminate].
  destruct (uniform_sfs (Np.unique (map wave_of result_mat)) all target_size)
    as [[xs ys]|] eqn:Hint; cbn [bind] in H; [|discriminate].
  destruct (wave2sf (map np xs) target_size) as [sfs_int|] eqn:Hsfi;
    cbn [bind] in H; [|discriminate].
  injection H as <-. cbn [unique_params sensitivities up_wave up_sf up_sf_int
                          sens_all sens_all_int].
  split; [reflexivity|]. split.
  - exists sfs. split; [exact Hsf|]. unfold halve, np_array.
    rewrite map_map. reflexivity.
  - exists xs, ys. split; [exact Hint|]. split; [reflexivity|].
    exists sfs_int. split; [exact Hsfi|]. unfold halve, np_array.
    rewrite map_map. reflexivity.
Qed.

End WaveFacts.

(** ** Rendering several channels *)

Section RenderFacts.

Open Scope string_scope.

Variable csf : float -> string -> float.
Variable pearsonr : list float -> list float -> result (float * float).

(** Only the reference curve is drawn with a format string, and only a
    channel compared with the reference carries scores in its label. *)
Definition is_reference (l : line_t) : bool :=
  match ln_fmt l with Some _ => true | None => false end.

Definition has_scores (l : line_t) : bool :=
  match lbl_scores (ln_label l) with Some _ => true | None => false end.

Definition marked (l : line_t) : bool := is_reference l || has_scores l.

(** The reference curves and the scored labels of a figure, axes by axes. *)
Definition comparisons (fig : figure_t) : list (list line_t) :=
  map (fun ax => filter marked (ax_lines ax)) (fig_axes fig).

(** The channels after the first one, as the claim describes them: each is
    drawn on the figure that the previous call returned, without a
    reference model. *)
Fixpoint plot_later_channels (csf' : float -> string -> float)
  (pearsonr' : list float -> list float -> result (float * float))
  (items : list (string * chn_summary_t)) (kw : plot_kwargs) (fig : figure_t)
  : result figure_t :=
  match items with
  | [] => Ok fig
  | (chn_key, chn_val) :: items' =>
      fig' <- _plot_chn_csf csf' pearsonr' chn_val chn_key
                {| figsize := figsize kw; log_axis := log_axis kw;
                   normalise := normalise kw; model_name := None;
                   old_fig := Some fig |} ;;
      plot_later_channels csf' pearsonr' items' kw fig'
  end.

Lemma set_nth_map {A B : Type} (g : A -> B) (l : list A) (i : nat) (a a' : A) :
  nth_error l i = Some a -> g a' = g a -> map g (set_nth l i a') = map g l.
Proof.
  revert i; induction l as [|b l IH]; intros [|i] Hi Hg; simpl in *;
    try discriminate.
  - injection Hi as ->. congruence.
  - f_equal. apply IH; assumption.
Qed.

Lemma filter_snoc_false {A : Type} (p : A -> bool) (l : list A) (a : A) :
  p a = false -> filter p (l ++ [a]) = filter p l.
Proof.
  intros H. rewrite filter_app. simpl. rewrite H. apply app_nil_r.
Qed.

Lemma plot_test_no_model (csf' : float -> string -> float)
  (pearsonr' : list float -> list float -> result (float * float))
  (chn_name : string) (kw : plot_kwargs) (f0 fig fig' : figure_t) (i : nat)
  (test : data_summary_t * option string) :
  model_name kw = None -> old_fig kw = Some f0 ->
  plot_test csf' pearsonr' chn_name kw fig i test = Ok fig' ->
  comparisons fig' = comparisons fig /\
  plot_test csf pearsonr chn_name kw fig i test = Ok fig'.
Proof.
  unfold plot_test. intros Hm Ho. rewrite Hm, Ho.
  destruct (nth_error (fig_axes fig) i) as [ax|] eqn:Hax; simpl;
    [|discriminate].
  destruct (_chn_plot_params chn_name) as [label params].
  destruct (if normalise kw then _ else _) as [ys|]; simpl; [|discriminate].
  intros [= <-]. split; [|reflexivity].
  unfold comparisons. simpl.
  apply set_nth_map with (a := ax); [exact Hax|].
  destruct (log_axis kw); simpl; apply filter_snoc_false; reflexivity.
Qed.

Lemma plot_tests_no_model (csf' : float -> string -> float)
  (pearsonr' : list float -> list float -> result (float * float))
  (chn_name : string) (kw : plot_kwargs) (f0 : figure_t)
  (tests : chn_summary_t) :
  model_name kw = None -> old_fig kw = Some f0 ->
  forall (i : nat) (fig fig' : figure_t),
  plot_tests csf' pearsonr' chn_name kw fig i tests = Ok fig' ->
  comparisons fig' = comparisons fig /\
  plot_tests csf pearsonr chn_name kw fig i tests = Ok fig'.
Proof.
  intros Hm Ho. induction tests as [|t tests IH]; simpl; intros i fig fig' H.
  - injection H as <-. split; reflexivity.
  - destruct (plot_test csf' pearsonr' chn_name kw fig i t) as [fig1|] eqn:H1;
      simpl in H; [|discriminate].
    destruct (plot_test_no_model _ _ _ _ _ _ _ Hm Ho H1) as [Hc1 ->]. simpl.
    destruct (IH _ _ _ H) as [Hc ->]. split; [congruence | reflexivity].
Qed.

Lemma plot_later_channels_no_comparison
  (csf' : float -> string -> float)
  (pearsonr' : list float -> list float -> result (float * float))
  (items : list (string * chn_summary_t)) (kw : plot_kwargs) :
  forall fig fig' : figure_t,
  plot_later_channels csf' pearsonr' items kw fig = Ok fig' ->
  comparisons fig' = comparisons fig /\
  plot_later_channels csf pearsonr items kw fig = Ok fig'.
Proof.
  induction items as [|[k v] items IH]; simpl; intros fig fig' H.
  - injection H as <-. split; reflexivity.
  - unfold _plot_chn_csf in *. simpl in *.
    match type of H with
    | bind ?c _ = _ => destruct c as [fig1|] eqn:H1; simpl in H; [|discriminate]
    end.
    eapply plot_tests_no_model in H1; [|reflexivity|reflexivity].
    destruct H1 as [Hc1 ->]. simpl.
    destruct (IH _ _ H) as [Hc ->]. split; [congruence | reflexivity].
Qed.

Lemma plot_channels_later (items : list (string * chn_summary_t))
  (kw : plot_kwargs) :
  forall (f0 fig : figure_t),
  plot_channels csf pearsonr items (without_model (with_old_fig kw f0))
                (Some fig) =
  (last_fig <- plot_later_channels csf pearsonr items kw fig ;;
   Ok (Some last_fig)).
Proof.
  induction items as [|[k v] items IH]; simpl; intros f0 fig; [reflexivity|].
  destruct (_plot_chn_csf csf pearsonr v k _) as [fig1|]; simpl;
    [|reflexivity].
  apply (IH fig fig1).
Qed.

(** C10. In [plot_csf_areas] the reference comparison can only concern the
    first channel.  With a summary of several channels, the first is drawn
    with the options of the caller, and every later one on the figure
    returned by the call before it, with [model_name] set to [None].  Those
    later calls add no reference curve and no scored label to any axes, and
    they never consult the reference model nor the correlation: with any
    other two in their place they return the same figure. *)
Theorem plot_csf_areas_reference_first_only (chn_key : string)
  (chn_val : chn_summary_t) (later : list (string * chn_summary_t))
  (kw : plot_kwargs) :
  plot_channels csf pearsonr ((chn_key, chn_val) :: later) kw None =
    (fig1 <- _plot_chn_csf csf pearsonr chn_val chn_key kw ;;
     last_fig <- plot_later_channels csf pearsonr later kw fig1 ;;
     Ok (Some last_fig)) /\
  forall (csf' : float -> string -> float)
         (pearsonr' : list float -> list float -> result (float * float))
         (fig1 last_fig : figure_t),
    plot_later_channels csf' pearsonr' later kw fig1 = Ok last_fig ->
    comparisons last_fig = comparisons fig1 /\
    plot_later_channels csf pearsonr later kw fig1 = Ok last_fig.
Proof.
  split.
  - simpl. destruct (_plot_chn_csf csf pearsonr chn_val chn_key kw) as [fig1|];
      simpl; [|reflexivity].
    destruct later as [|[k v] later]; [reflexivity|].
    change (plot_channels csf pearsonr ((k, v) :: later) kw (Some fig1))
      with (plot_channels csf pearsonr ((k, v) :: later)
              (without_model (with_old_fig kw fig1)) (Some fig1)).
    apply plot_channels_later.
  - intros csf' pearsonr' fig1 last_fig H.
    eapply plot_later_channels_no_comparison; eassumption.
Qed.

End RenderFacts.

(** ** The order of binary64 values

    Away from NaN the comparison of two values is the lexicographic
    comparison of three integers: the class of the value (negative
    infinity, negative, zero, positive, positive infinity), then exponent
    and mantissa, both negated for a negative value. *)

Section FloatOrder.

Definition rank (x : float) : Z * Z * Z :=
  match x with
  | S754_infinity true => (-2, 0, 0)
  | S754_finite true m e => (-1, - e, Z.neg m)
  | S754_zero _ => (0, 0, 0)
  | S754_finite false m e => (1, e, Z.pos m)
  | S754_infinity false => (2, 0, 0)
  | S754_nan => (3, 0, 0)
  end%Z.

Definition lex_lt (a b : Z * Z * Z) : Prop :=
  let '(a1, a2, a3) := a in
  let '(b1, b2, b3) := b in
  (a1 < b1 \/ (a1 = b1 /\ (a2 < b2 \/ (a2 = b2 /\ a3 < b3))))%Z.

Definition number (x : float) : Prop := B64.is_nan x = false.

Lemma compare_Lt_rank (x y : float) :
  number x -> number y ->
  (SFcompare x y = Some Lt <-> lex_lt (rank x) (rank y)).
Proof.
  unfold number.
  destruct x as [[|]|[|]| |[|] mx ex], y as [[|]|[|]| |[|] my ey];
    simpl; intros Hx Hy; try discriminate;
    try (split; [intros _; lia | reflexivity]);
    try (split; [discriminate | intros H; exfalso; lia]).
  all: change (PosDef.Pos.compare_cont Eq mx my) with (Pos.compare mx my);
    destruct (Z.compare_spec ex ey), (Pos.compare_spec mx my); simpl;
    split; intros G; try discriminate; try reflexivity; try lia;
    exfalso; lia.
Qed.

Lemma compare_Eq_rank (x y : float) :
  number x -> number y ->
  (SFcompare x y = Some Eq <-> rank x = rank y).
Proof.
  unfold number.
  destruct x as [[|]|[|]| |[|] mx ex], y as [[|]|[|]| |[|] my ey];
    simpl; intros Hx Hy; try discriminate;
    try (split; [intros _; reflexivity | reflexivity]);
    try (split; discriminate).
  all: change (PosDef.Pos.compare_cont Eq mx my) with (Pos.compare mx my);
    destruct (Z.compare_spec ex ey), (Pos.compare_spec mx my); simpl;
    split; intros G; try discriminate; try reflexivity;
    try (injection G; intros; exfalso; lia); try (f_equal; f_equal; lia).
Qed.

Lemma compare_number (x y : float) :
  number x -> number y -> exists c, SFcompare x y = Some c.
Proof.
  unfold number. destruct x, y; simpl; intros Hx Hy; try discriminate; eauto.
Qed.

Lemma compare_Gt_rank (x y : float) :
  number x -> number y ->
  (SFcompare x y = Some Gt <-> lex_lt (rank y) (rank x)).
Proof.
  intros Hx Hy.
  destruct (compare_number Hx Hy) as [c Hc].
  pose proof (compare_Lt_rank Hx Hy) as HL.
  pose proof (compare_Eq_rank Hx Hy) as HE.
  rewrite Hc in *.
  destruct (rank x) as [[a1 a2] a3], (rank y) as [[b1 b2] b3].
  unfold lex_lt in *; cbn beta iota in *.
  destruct c; split; intros H; try discriminate; try reflexivity.
  - exfalso.
    assert ((a1, a2, a3) = (b1, b2, b3)) as E by (apply HE; reflexivity).
    injection E; intros; lia.
  - exfalso.
    assert (Some Lt = Some Lt) as E by reflexivity. apply HL in E. lia.
  - assert (~ (a1, a2, a3) = (b1, b2, b3)) as E1
      by (intros E; apply HE in E; discriminate).
    assert (~ (a1 < b1 \/ a1 = b1 /\ (a2 < b2 \/ a2 = b2 /\ a3 < b3))%Z) as E2
      by (intros E; apply HL in E; discriminate).
    assert (a1 = b1 -> a2 = b2 -> a3 = b3 -> False)
      by (intros; apply E1; congruence).
    lia.
Qed.

End FloatOrder.

Section FloatOrderBool.

Open Scope b64_scope.

Lemma ltb_rank (x y : float) :
  number x -> number y -> ((x <? y) = true <-> lex_lt (rank x) (rank y)).
Proof.
  intros Hx Hy. rewrite <- (compare_Lt_rank Hx Hy).
  unfold B64.ltb, SFltb. destruct (SFcompare x y) as [[| |]|];
    split; intros H; congruence.
Qed.

Lemma eqb_rank (x y : float) :
  number x -> number y -> ((x =? y) = true <-> rank x = rank y).
Proof.
  intros Hx Hy. rewrite <- (compare_Eq_rank Hx Hy).
  unfold B64.eqb, SFeqb. destruct (SFcompare x y) as [[| |]|];
    split; intros H; congruence.
Qed.

Lemma leb_rank (x y : float) :
  number x -> number y -> ((x <=? y) = true <-> ~ lex_lt (rank y) (rank x)).
Proof.
  intros Hx Hy. rewrite <- (compare_Gt_rank Hx Hy).
  destruct (compare_number Hx Hy) as [c Hc].
  unfold B64.leb, SFleb. rewrite Hc.
  destruct c; split; intros H; try congruence; try reflexivity.
Qed.

Lemma nan_rank (x : float) : B64.is_nan x = true <-> rank x = (3, 0, 0)%Z.
Proof. destruct x as [[|]|[|]| |[|] m e]; simpl; split; congruence. Qed.

Lemma number_rank (x : float) :
  number x <-> lex_lt (rank x) (3, 0, 0)%Z.
Proof.
  unfold number.
  destruct x as [[|]|[|]| |[|] m e]; simpl; split; intros H;
    try reflexivity; try discriminate; lia.
Qed.

Lemma eqb_refl (x : float) : number x -> (x =? x) = true.
Proof. intros H. apply eqb_rank; auto. Qed.

Lemma eqb_nan_l (x y : float) : B64.is_nan x = true -> (x =? y) = false.
Proof. destruct x; try discriminate. reflexivity. Qed.

Lemma eqb_nan_r (x y : float) : B64.is_nan y = true -> (x =? y) = false.
Proof. destruct y; try discriminate. destruct x; reflexivity. Qed.

Lemma ltb_nan_l (x y : float) : B64.is_nan x = true -> (x <? y) = false.
Proof. destruct x; try discriminate. reflexivity. Qed.

Lemma ltb_nan_r (x y : float) : B64.is_nan y = true -> (x <? y) = false.
Proof. destruct y; try discriminate. destruct x; reflexivity. Qed.

(** numpy's sorting order and its test of equal neighbours, on all values. *)
Lemma sort_lt_rank (a b : float) :
  Np.sort_lt a b = true <-> lex_lt (rank a) (rank b).
Proof.
  unfold Np.sort_lt.
  destruct (B64.is_nan a) eqn:Ha.
  - rewrite ltb_nan_l by assumption. simpl.
    apply nan_rank in Ha. rewrite Ha.
    split; [discriminate|]. intros H. exfalso.
    destruct b as [[|]|[|]| |[|] m e]; cbn in H; lia.
  - destruct (B64.is_nan b) eqn:Hb.
    + rewrite ltb_nan_r by assumption. simpl.
      apply nan_rank in Hb. rewrite Hb. apply number_rank in Ha.
      split; auto.
    + simpl. rewrite orb_false_r. apply ltb_rank; assumption.
Qed.

Lemma same_rank (a b : float) : Np.same a b = true <-> rank a = rank b.
Proof.
  unfold Np.same.
  destruct (B64.is_nan a) eqn:Ha.
  - rewrite eqb_nan_l by assumption. simpl.
    apply nan_rank in Ha. rewrite Ha. rewrite nan_rank.
    split; congruence.
  - destruct (B64.is_nan b) eqn:Hb.
    + rewrite eqb_nan_r by assumption. simpl.
      apply nan_rank in Hb. rewrite Hb.
      split; [discriminate|]. intros H. apply nan_rank in H. congruence.
    + simpl. rewrite orb_false_r. apply eqb_rank; assumption.
Qed.

End FloatOrderBool.

(** ** [np.unique] *)

Section UniqueFacts.

Open Scope b64_scope.

Definition rank_lt (a b : float) : Prop := lex_lt (rank a) (rank b).
Definition rank_le (a b : float) : Prop := ~ lex_lt (rank b) (rank a).

Ltac lex_solve :=
  unfold rank_lt, rank_le, lex_lt in *;
  repeat match goal with
         | |- context [rank ?x] =>
             let a := fresh "a" in let b := fresh "b" in let c := fresh "c" in
             destruct (rank x) as [[a b] c]
         | H : context [rank ?x] |- _ =>
             let a := fresh "a" in let b := fresh "b" in let c := fresh "c" in
             destruct (rank x) as [[a b] c]
         end;
  cbn beta iota in *;
  repeat match goal with
         | H : (_, _) = (_, _) |- _ => injection H as H; subst
         end;
  try lia.

Lemma rank_le_trans (a b c : float) : rank_le a b -> rank_le b c -> rank_le a c.
Proof. intros H1 H2. lex_solve. Qed.

Lemma rank_le_lt_trans (a b c : float) :
  rank_le a b -> rank_lt b c -> rank_lt a c.
Proof. intros H1 H2. lex_solve. Qed.

Lemma rank_lt_le_trans (a b c : float) :
  rank_lt a b -> rank_le b c -> rank_lt a c.
Proof. intros H1 H2. lex_solve. Qed.

Lemma rank_le_neq_lt (a b : float) :
  rank_le a b -> rank a <> rank b -> rank_lt a b.
Proof.
  unfold rank_le, rank_lt, lex_lt.
  destruct (rank a) as [[a1 a2] a3], (rank b) as [[b1 b2] b3].
  intros H1 H2.
  assert (a1 = b1 -> a2 = b2 -> a3 = b3 -> False) by (intros; apply H2; congruence).
  lia.
Qed.

Lemma insert_In (x y : float) (l : list float) :
  In y (Np.insert x l) <-> y = x \/ In y l.
Proof.
  induction l as [|z l IH]; simpl.
  - intuition auto.
  - destruct (Np.sort_lt x z); simpl; rewrite ?IH; intuition auto.
Qed.

Lemma sort_In (y : float) (l : list float) : In y (Np.sort l) <-> In y l.
Proof.
  induction l as [|x l IH]; simpl; [tauto|].
  unfold Np.sort in *. simpl. rewrite insert_In, IH. intuition auto.
Qed.

Lemma insert_sorted (x : float) (l : list float) :
  StronglySorted rank_le l -> StronglySorted rank_le (Np.insert x l).
Proof.
  induction 1 as [|z l Hs IH Hz]; simpl.
  - constructor; constructor.
  - destruct (Np.sort_lt x z) eqn:E.
    + apply sort_lt_rank in E. constructor; [constructor; assumption|].
      constructor.
      * unfold rank_le. fold (rank_lt x z) in E. lex_solve.
      * eapply Forall_impl; [|exact Hz]. intros c Hc.
        apply rank_le_trans with z; [|exact Hc].
        fold (rank_lt x z) in E. lex_solve.
    + constructor; [exact IH|].
      apply Forall_forall. intros c Hc. apply insert_In in Hc.
      destruct Hc as [->|Hc].
      * unfold rank_le. intros F. apply sort_lt_rank in F. congruence.
      * rewrite Forall_forall in Hz. auto.
Qed.

Lemma sort_sorted (l : list float) : StronglySorted rank_le (Np.sort l).
Proof.
  induction l as [|x l IH]; simpl; [constructor|].
  apply insert_sorted. exact IH.
Qed.

Lemma dedup_cons (a b : float) (l : list float) :
  Np.dedup (a :: b :: l) =
  if Np.same a b then Np.dedup (b :: l) else a :: Np.dedup (b :: l).
Proof. reflexivity. Qed.

Lemma dedup_In (u : float) (l : list float) : In u (Np.dedup l) -> In u l.
Proof.
  induction l as [|a l IH]; [simpl; tauto|].
  destruct l as [|b l']; [simpl; tauto|].
  rewrite dedup_cons. destruct (Np.same a b); intros H.
  - right. auto.
  - destruct H as [H|H]; [left; exact H | right; auto].
Qed.

Lemma dedup_covers (x : float) (l : list float) :
  In x l -> exists u, In u (Np.dedup l) /\ rank x = rank u.
Proof.
  revert x. induction l as [|a l IH]; intros x; [simpl; tauto|].
  destruct l as [|b l'].
  - intros [->|[]]. exists x. split; [left|]; reflexivity.
  - rewrite dedup_cons. destruct (Np.same a b) eqn:E.
    + intros [->|H]; [|auto].
      apply same_rank in E.
      destruct (IH b) as [u [Hu Hr]]; [left; reflexivity|].
      exists u. split; [exact Hu | congruence].
    + intros [->|H].
      * exists x. split; [left|]; reflexivity.
      * destruct (IH x H) as [u [Hu Hr]]. exists u. split; [right|]; assumption.
Qed.

Lemma dedup_sorted (l : list float) :
  StronglySorted rank_le l -> StronglySorted rank_lt (Np.dedup l).
Proof.
  induction 1 as [|a l Hs IH Ha]; [constructor|].
  destruct l as [|b l']; [constructor; constructor|].
  rewrite dedup_cons.
  destruct (Np.same a b) eqn:E; [exact IH|].
  constructor; [exact IH|].
  apply Forall_forall. intros c Hc. apply dedup_In in Hc.
  rewrite Forall_forall in Ha.
  assert (Hab : rank_lt a b).
  { apply rank_le_neq_lt; [apply Ha; left; reflexivity|].
    intros F. apply same_rank in F. congruence. }
  destruct Hc as [<-|Hc]; [exact Hab|].
  inversion Hs as [|? ? _ Hb]; subst. rewrite Forall_forall in Hb.
  apply rank_lt_le_trans with b; auto.
Qed.

Lemma unique_sorted (l : list float) :
  StronglySorted rank_lt (Np.unique l).
Proof. apply dedup_sorted, sort_sorted. Qed.

Lemma unique_In (u : float) (l : list float) : In u (Np.unique l) -> In u l.
Proof. intros H. apply sort_In, dedup_In, H. Qed.

Lemma unique_covers (x : float) (l : list float) :
  In x l -> exists u, In u (Np.unique l) /\ rank x = rank u.
Proof. intros H. apply dedup_covers, sort_In, H. Qed.

End UniqueFacts.

(** ** Sensitivity extraction *)

Section SensitivityFacts.

Open Scope b64_scope.

Lemma last_item_cons {A : Type} (a : A) (l : list A) :
  l <> [] -> last_item (a :: l) = last_item l.
Proof. destruct l; [congruence | reflexivity]. Qed.

(** The last item of a filtered list is the last element that passes. *)
Lemma last_item_filter {A : Type} (p : A -> bool) (l : list A) :
  (exists x, In x l /\ p x = true) ->
  exists before r after,
    l = before ++ r :: after /\ p r = true /\
    (forall y, In y after -> p y = false) /\
    last_item (filter p l) = Ok r.
Proof.
  induction l as [|a l IH]; intros [x [Hin Hp]]; [destruct Hin|].
  destruct (existsb p l) eqn:E.
  - apply existsb_exists in E. destruct (IH E) as [before [r [after H]]].
    destruct H as [-> [Hr [Hafter Hlast]]].
    exists (a :: before), r, after. repeat split; auto.
    simpl filter. destruct (p a); [|exact Hlast].
    rewrite last_item_cons; [exact Hlast|].
    intros F. rewrite F in Hlast. discriminate.
  - assert (Hall : forall y, In y l -> p y = false).
    { intros y Hy. destruct (p y) eqn:Hpy; [|reflexivity].
      assert (existsb p l = true) by (apply existsb_exists; eauto).
      congruence. }
    destruct Hin as [->|Hin]; [|rewrite (Hall x Hin) in Hp; discriminate].
    exists [], x, l. repeat split; auto.
    simpl. rewrite Hp.
    assert (filter p l = []) as ->; [|reflexivity].
    clear -Hall. induction l as [|b l IH]; [reflexivity|].
    simpl. rewrite (Hall b) by (left; reflexivity).
    apply IH. intros y Hy. apply Hall. right. exact Hy.
Qed.

Lemma StronglySorted_impl_In {A : Type} (R R' : A -> A -> Prop) (l : list A) :
  (forall a b, In a l -> In b l -> R a b -> R' a b) ->
  StronglySorted R l -> StronglySorted R' l.
Proof.
  intros Himp Hs. induction Hs as [|a l Hs IH Ha]; constructor.
  - apply IH. intros x y Hx Hy. apply Himp; right; assumption.
  - rewrite Forall_forall in *. intros b Hb.
    apply Himp; [left; reflexivity | right; exact Hb | auto].
Qed.

Definition scenario_matrix : matrix :=
  [ Row (B64.lit 5 10) (B64.of_Z 4) (B64.of_Z 0) (B64.of_Z 0) (B64.of_Z 0);
    Row (B64.lit 1 10) (B64.of_Z 4) (B64.of_Z 0) (B64.of_Z 0) (B64.of_Z 0);
    Row (B64.lit 4 10) (B64.of_Z 8) (B64.of_Z 0) (B64.of_Z 0) (B64.of_Z 0);
    Row (B64.lit 5 100) (B64.of_Z 8) (B64.of_Z 0) (B64.of_Z 0) (B64.of_Z 0) ].

(** C1, as stated, fails: a matrix whose wave column holds a NaN has one
    unique wave, and the extraction raises in place of returning one
    sensitivity: no row of the matrix compares equal to the NaN, and the
    last row of none is asked for. *)
Example extract_sensitivity_nan_wave :
  Np.unique
    (map wave_of
       [ Row (B64.lit 1 10) S754_nan (B64.of_Z 0) (B64.of_Z 0) (B64.of_Z 0) ])
  = [S754_nan] /\
  _extract_sensitivity
    [ Row (B64.lit 1 10) S754_nan (B64.of_Z 0) (B64.of_Z 0) (B64.of_Z 0) ]
  = Raise IndexError.
Proof. split; reflexivity. Qed.

(** C1, amended. On the matrix of the scenario, with the waves 4 and 8, the
    extraction returns [10.0, 20.0].  On every trial matrix whose waves are
    numbers, it returns one sensitivity per unique wave: the unique waves
    are the values of the wave column, strictly ascending, and the
    sensitivity at the position of a wave is 1 divided by the contrast of
    the last row, in file order, whose wave equals it. *)
Theorem extract_sensitivity_last_row :
  _extract_sensitivity scenario_matrix = Ok [B64.of_Z 10; B64.of_Z 20] /\
  forall result_mat : matrix,
    (forall r, In r result_mat -> number (wave_of r)) ->
    exists waves sens,
      waves = Np.unique (map wave_of result_mat) /\
      StronglySorted (fun a b => (a <? b) = true) waves /\
      (forall r, In r result_mat ->
         exists w, In w waves /\ (wave_of r =? w) = true) /\
      (forall w, In w waves -> exists r, In r result_mat /\ wave_of r = w) /\
      _extract_sensitivity result_mat = Ok sens /\
      List.length sens = List.length waves /\
      forall i w, nth_error waves i = Some w ->
        exists before r after,
          result_mat = before ++ r :: after /\
          (wave_of r =? w) = true /\
          (forall r', In r' after -> (wave_of r' =? w) = false) /\
          nth_error sens i = Some (B64.one / contrast r).
Proof.
  split; [vm_compute; reflexivity|].
  intros result_mat Hnum.
  set (waves := Np.unique (map wave_of result_mat)).
  assert (Hsrc : forall w, In w waves -> exists r, In r result_mat /\ wave_of r = w).
  { intros w Hw. apply unique_In in Hw. apply in_map_iff in Hw.
    destruct Hw as [r [Hr Hin]]. eauto. }
  assert (Hwnum : forall w, In w waves -> number w).
  { intros w Hw. destruct (Hsrc w Hw) as [r [Hr <-]]. auto. }
  assert (Hrow : forall w, In w waves ->
            exists before r after,
              result_mat = before ++ r :: after /\
              (wave_of r =? w) = true /\
              (forall r', In r' after -> (wave_of r' =? w) = false) /\
              last_item (rows_of_wave result_mat w) = Ok r).
  { intros w Hw. apply last_item_filter with (p := fun r => wave_of r =? w).
    destruct (Hsrc w Hw) as [r [Hr <-]]. exists r. split; [exact Hr|].
    apply eqb_refl. auto. }
  destruct (@for_each_total _ _
              (fun wave =>
                 lowest_contrast <- last_item (rows_of_wave result_mat wave) ;;
                 Ok (B64.one / contrast lowest_contrast)) waves) as [sens Hsens].
  { intros w Hw. destruct (Hrow w Hw) as [b [r [a [_ [_ [_ Hl]]]]]].
    rewrite Hl. simpl. eauto. }
  exists waves, sens. split; [reflexivity|]. split; [|split; [|split; [|split; [|split]]]].
  - apply StronglySorted_impl_In with (R := rank_lt); [|apply unique_sorted].
    intros a b Ha Hb Hab. apply ltb_rank; auto.
  - intros r Hr.
    destruct (@unique_covers (wave_of r) (map wave_of result_mat)) as [w [Hw Hrk]].
    { apply in_map. exact Hr. }
    exists w. split; [exact Hw|]. apply eqb_rank; auto.
  - exact Hsrc.
  - exact Hsens.
  - apply for_each_length in Hsens. exact Hsens.
  - intros i w Hi.
    destruct (for_each_nth _ _ _ Hsens Hi) as [s [Hs Hnth]].
    destruct (Hrow w (nth_error_In _ _ Hi)) as [b [r [a [Hsplit [Heq [Haft Hl]]]]]].
    rewrite Hl in Hs. simpl in Hs. injection Hs as <-.
    exists b, r, a. auto.
Qed.

(** The scenario satisfies the assumption of C1, and the general statement
    gives its two sensitivities. *)
Lemma extract_sensitivity_last_row_witness :
  exists waves sens,
    waves = Np.unique (map wave_of scenario_matrix) /\
    StronglySorted (fun a b => (a <? b) = true) waves /\
    (forall r, In r scenario_matrix ->
       exists w, In w waves /\ (wave_of r =? w) = true) /\
    (forall w, In w waves -> exists r, In r scenario_matrix /\ wave_of r = w) /\
    _extract_sensitivity scenario_matrix = Ok sens /\
    List.length sens = List.length waves /\
    forall i w, nth_error waves i = Some w ->
      exists before r after,
        scenario_matrix = before ++ r :: after /\
        (wave_of r =? w) = true /\
        (forall r', In r' after -> (wave_of r' =? w) = false) /\
        nth_error sens i = Some (B64.one / contrast r).
Proof.
  apply (proj2 extract_sensitivity_last_row scenario_matrix).
  intros r Hr. simpl in Hr.
  repeat (destruct Hr as [<-|Hr]; [reflexivity|]). destruct Hr.
Defined.

End SensitivityFacts.

(** ** Rounding in binary64

    What follows is about [SpecFloat]'s rounding itself: shifting a mantissa
    to the right, rounding an exact mantissa, and the operations that are
    exact on numbers with few significant bits. *)

Unset Implicit Arguments.

Section Rounding.

Open Scope Z_scope.

(** *** Digits *)

Lemma digits2_pos_bounds (p : positive) :
  2 ^ (Z.pos (digits2_pos p) - 1) <= Z.pos p < 2 ^ Z.pos (digits2_pos p).
Proof.
  induction p as [p IH|p IH|]; simpl digits2_pos.
  - rewrite Pos2Z.inj_succ.
    replace (Z.succ (Z.pos (digits2_pos p)) - 1)
      with (Z.succ (Z.pos (digits2_pos p) - 1)) by lia.
    rewrite !Z.pow_succ_r by lia. lia.
  - rewrite Pos2Z.inj_succ.
    replace (Z.succ (Z.pos (digits2_pos p)) - 1)
      with (Z.succ (Z.pos (digits2_pos p) - 1)) by lia.
    rewrite !Z.pow_succ_r by lia. lia.
  - simpl. lia.
Qed.

Lemma digits2_pos_unique (p : positive) (d : Z) :
  2 ^ (d - 1) <= Z.pos p < 2 ^ d -> Z.pos (digits2_pos p) = d.
Proof.
  intros [Hlo Hhi]. pose proof (digits2_pos_bounds p) as [Blo Bhi].
  assert (0 < d).
  { destruct (Z_lt_le_dec 0 d) as [|Hd]; [assumption|].
    exfalso. destruct (Z.eq_dec d 0) as [->|].
    - simpl in Hhi. lia.
    - rewrite Z.pow_neg_r in Hhi by lia. lia. }
  destruct (Z_lt_le_dec (Z.pos (digits2_pos p)) d) as [L|L].
  - exfalso.
    assert (2 ^ Z.pos (digits2_pos p) <= 2 ^ (d - 1))
      by (apply Z.pow_le_mono_r; lia).
    lia.
  - destruct (Z_lt_le_dec d (Z.pos (digits2_pos p))) as [G|G]; [|lia].
    exfalso.
    assert (2 ^ d <= 2 ^ (Z.pos (digits2_pos p) - 1))
      by (apply Z.pow_le_mono_r; lia).
    lia.
Qed.

Lemma digits2_pos_shift (p q : positive) (j : Z) :
  0 <= j -> Z.pos q = Z.pos p * 2 ^ j ->
  Z.pos (digits2_pos q) = Z.pos (digits2_pos p) + j.
Proof.
  intros Hj Hq. apply digits2_pos_unique.
  pose proof (digits2_pos_bounds p) as [Blo Bhi].
  replace (Z.pos (digits2_pos p) + j - 1)
    with ((Z.pos (digits2_pos p) - 1) + j) by lia.
  rewrite !Z.pow_add_r by lia. rewrite Hq.
  assert (0 < 2 ^ j) by (apply Z.pow_pos_nonneg; lia).
  nia.
Qed.

(** *** Shifting a mantissa to the right

    The record of a shift keeps, besides the mantissa, on which side of the
    middle of the next interval the exact value lies.  The value is carried
    here as a fraction [num / den]. *)

Definition between (mrs : shr_record) (num den : Z) : Prop :=
  0 < den /\ 0 <= shr_m mrs /\
  shr_m mrs * den <= num < (shr_m mrs + 1) * den /\
  match shr_r mrs, shr_s mrs with
  | false, false => num = shr_m mrs * den
  | false, true => shr_m mrs * den < num /\ 2 * num < (2 * shr_m mrs + 1) * den
  | true, false => 2 * num = (2 * shr_m mrs + 1) * den
  | true, true => (2 * shr_m mrs + 1) * den < 2 * num
  end.

Lemma shr_1_nonneg (m : Z) (r s : bool) :
  0 <= m ->
  shr_1 {| shr_m := m; shr_r := r; shr_s := s |} =
  {| shr_m := Z.div2 m; shr_r := Z.odd m; shr_s := r || s |}.
Proof. destruct m as [|[p|p|]|p]; intros H; try reflexivity; lia. Qed.

Lemma between_shr_1 (mrs : shr_record) (num den : Z) :
  between mrs num den -> between (shr_1 mrs) num (2 * den).
Proof.
  destruct mrs as [m r s]. unfold between.
  cbn [shr_m shr_r shr_s]. intros [Hden [Hm [Hv Hloc]]].
  rewrite shr_1_nonneg by assumption. cbn [shr_m shr_r shr_s].
  pose proof (Z.div2_odd m) as Hdo.
  assert (0 <= Z.div2 m) by (rewrite Z.div2_div; apply Z.div_pos; lia).
  remember (Z.div2 m) as h eqn:Hh. remember (Z.odd m) as b eqn:Hb.
  clear Hh Hb.
  destruct b; simpl Z.b2z in Hdo; subst m;
    destruct r, s; cbn [orb]; repeat split; try lia.
Qed.

Lemma between_iter (k : nat) (mrs : shr_record) (num den : Z) :
  between mrs num den ->
  between (Nat.iter k shr_1 mrs) num (2 ^ Z.of_nat k * den).
Proof.
  intros H. induction k as [|k IH].
  - change (2 ^ Z.of_nat 0) with 1. rewrite Z.mul_1_l. exact H.
  - rewrite Nat2Z.inj_succ, Z.pow_succ_r by lia. cbn [Nat.iter nat_rect].
    replace (2 * 2 ^ Z.of_nat k * den) with (2 * (2 ^ Z.of_nat k * den)) by lia.
    apply between_shr_1. exact IH.
Qed.

Lemma iter_pos_nat (A : Type) (f : A -> A) (p : positive) (x : A) :
  iter_pos f p x = Nat.iter (Pos.to_nat p) f x.
Proof.
  revert x. induction p as [p IH|p IH|]; intros x; cbn [iter_pos].
  - rewrite !IH. rewrite Pos2Nat.inj_xI.
    replace (S (2 * Pos.to_nat p))%nat with (Pos.to_nat p + (Pos.to_nat p + 1))%nat by lia.
    rewrite !Nat.iter_add. simpl. reflexivity.
  - rewrite !IH. rewrite Pos2Nat.inj_xO.
    replace (2 * Pos.to_nat p)%nat with (Pos.to_nat p + Pos.to_nat p)%nat by lia.
    rewrite Nat.iter_add. reflexivity.
  - reflexivity.
Qed.

(** [shr] by [n] places, on a value between the bounds of its record. *)
Lemma between_shr (mrs : shr_record) (e n num den : Z) :
  between mrs num den ->
  between (fst (shr mrs e n)) num (2 ^ Z.max 0 n * den) /\
  snd (shr mrs e n) = e + Z.max 0 n.
Proof.
  intros H. destruct n as [|p|p]; cbn [shr fst snd Z.max Z.compare].
  - change (2 ^ 0) with 1. rewrite Z.mul_1_l. split; [exact H | lia].
  - rewrite iter_pos_nat. split; [|reflexivity].
    rewrite <- (positive_nat_Z p) at 1. apply between_iter. exact H.
  - change (2 ^ 0) with 1. rewrite Z.mul_1_l. split; [exact H | lia].
Qed.

(** *** Rounding an exact mantissa *)

Abbreviation fexp64 := (fexp B64.prec B64.emax).

Lemma fexp64_eq (x : Z) : fexp64 x = Z.max (x - 53) (-1074).
Proof. reflexivity. Qed.

Lemma between_exact (m : Z) :
  0 <= m -> between {| shr_m := m; shr_r := false; shr_s := false |} m 1.
Proof. intros H. unfold between. simpl. lia. Qed.

(** A record that lies between the bounds of an integer multiple of its
    denominator is that integer, exactly. *)
Lemma between_multiple (mrs : shr_record) (m den : Z) :
  between mrs (m * den) den ->
  mrs = {| shr_m := m; shr_r := false; shr_s := false |}.
Proof.
  destruct mrs as [m' r s]. unfold between. cbn [shr_m shr_r shr_s].
  intros [Hden [Hm [Hv Hloc]]].
  assert (m' = m) by nia. subst m'.
  destruct r, s; try reflexivity; exfalso; nia.
Qed.

Lemma canonical_fexp (m : positive) (e : Z) :
  canonical_mantissa B64.prec B64.emax m e = true ->
  fexp64 (Z.pos (digits2_pos m) + e) = e.
Proof. unfold canonical_mantissa. intros H. apply Z.eqb_eq in H. exact H. Qed.

Lemma shr_fexp_exact (m : positive) (e j : Z) (q : positive) :
  0 <= j -> Z.pos q = Z.pos m * 2 ^ j ->
  canonical_mantissa B64.prec B64.emax m e = true ->
  shr_fexp B64.prec B64.emax (Z.pos q) (e - j) loc_Exact =
  ({| shr_m := Z.pos m; shr_r := false; shr_s := false |}, e).
Proof.
  intros Hj Hq Hc. unfold shr_fexp. cbn [Zdigits2 shr_record_of_loc].
  rewrite (@digits2_pos_shift m q j Hj Hq).
  replace (Z.pos (digits2_pos m) + j + (e - j))
    with (Z.pos (digits2_pos m) + e) by lia.
  rewrite (@canonical_fexp m e Hc).
  replace (e - (e - j)) with j by lia.
  pose proof (@between_shr _ (e - j) j _ _ (@between_exact (Z.pos q) ltac:(lia)))
    as [Hb He].
  rewrite Z.max_r in Hb, He by lia.
  rewrite Z.mul_1_r in Hb. rewrite Hq in Hb at 2.
  apply between_multiple in Hb.
  destruct (shr _ (e - j) j) as [mrs e']. simpl in Hb, He.
  subst mrs e'. f_equal. lia.
Qed.

Lemma binary_round_aux_exact (s : bool) (m : positive) (e j : Z) (q : positive) :
  0 <= j -> Z.pos q = Z.pos m * 2 ^ j ->
  canonical_mantissa B64.prec B64.emax m e = true ->
  e <= B64.emax - B64.prec ->
  binary_round_aux B64.prec B64.emax s (Z.pos q) (e - j) loc_Exact =
  S754_finite s m e.
Proof.
  intros Hj Hq Hc He. unfold binary_round_aux.
  rewrite (@shr_fexp_exact m e j q Hj Hq Hc).
  cbn [shr_m loc_of_shr_record round_nearest_even].
  replace e with (e - 0) at 1 by lia.
  rewrite (shr_fexp_exact m e 0 m) by (auto; lia).
  cbn [shr_m]. apply Z.leb_le in He. rewrite He. reflexivity.
Qed.

(** *** Dyadic numbers with at most 53 significant bits *)

Lemma pos_iter_xO (p k : positive) :
  Z.pos (Pos.iter xO p k) = Z.pos p * 2 ^ Z.pos k.
Proof.
  induction k as [|k IH] using Pos.peano_ind.
  - simpl. lia.
  - rewrite Pos.iter_succ, Pos2Z.inj_succ, Z.pow_succ_r by lia.
    rewrite Pos2Z.inj_xO, IH. lia.
Qed.

Lemma shl_align_spec (m : positive) (e ez : Z) :
  ez <= e ->
  snd (shl_align m e ez) = ez /\
  Z.pos (fst (shl_align m e ez)) = Z.pos m * 2 ^ (e - ez).
Proof.
  intros H. unfold shl_align.
  destruct (ez - e) as [|d|d] eqn:E; try lia; cbn [fst snd].
  - assert (e = ez) by lia. subst. rewrite Z.sub_diag. simpl. lia.
  - rewrite pos_iter_xO. replace (e - ez) with (Z.pos d) by lia.
    split; reflexivity.
Qed.

(** The number of bits that [n] lacks to fill a mantissa. *)
Definition room (n : positive) : Z := 53 - Z.pos (digits2_pos n).

(** The double [n * 2 ^ e], for [n] below [2 ^ 53]: its mantissa is [n]
    shifted to 53 bits. *)
Definition dyadic (s : bool) (n : positive) (e : Z) : spec_float :=
  S754_finite s (Z.to_pos (Z.pos n * 2 ^ room n)) (e - room n).

Definition in_range (n : positive) (e : Z) : Prop :=
  0 <= room n /\ -1074 <= e - room n <= 971.

Lemma dyadic_mantissa (n : positive) :
  0 <= room n ->
  Z.pos (Z.to_pos (Z.pos n * 2 ^ room n)) = Z.pos n * 2 ^ room n /\
  Z.pos (digits2_pos (Z.to_pos (Z.pos n * 2 ^ room n))) = 53.
Proof.
  intros H.
  assert (0 < 2 ^ room n) by (apply Z.pow_pos_nonneg; lia).
  assert (E : Z.pos (Z.to_pos (Z.pos n * 2 ^ room n)) = Z.pos n * 2 ^ room n)
    by (apply Z2Pos.id; nia).
  split; [exact E|].
  rewrite (@digits2_pos_shift n _ (room n) H E). unfold room. lia.
Qed.

Lemma dyadic_canonical (n : positive) (e : Z) :
  in_range n e ->
  canonical_mantissa B64.prec B64.emax (Z.to_pos (Z.pos n * 2 ^ room n))
    (e - room n) = true.
Proof.
  intros [Hr He]. unfold canonical_mantissa.
  destruct (dyadic_mantissa n Hr) as [_ ->].
  rewrite fexp64_eq. apply Z.eqb_eq. lia.
Qed.

Lemma binary_round_dyadic (s : bool) (p n : positive) (j e : Z) :
  0 <= j -> Z.pos p = Z.pos n * 2 ^ j -> in_range n e ->
  binary_round B64.prec B64.emax s p (e - j) = dyadic s n e.
Proof.
  intros Hj Hp Hr. pose proof Hr as [Hroom He].
  destruct (dyadic_mantissa n Hroom) as [Hm Hd].
  unfold binary_round.
  rewrite (@digits2_pos_shift n p j Hj Hp).
  replace (Z.pos (digits2_pos n) + j + (e - j))
    with (Z.pos (digits2_pos n) + e) by lia.
  rewrite fexp64_eq.
  replace (Z.max (Z.pos (digits2_pos n) + e - 53) (-1074))
    with (e - room n) by (unfold room in *; lia).
  destruct (Z_lt_le_dec j (room n)) as [L|L].
  - destruct (@shl_align_spec p (e - j) (e - room n)) as [H1 H2]; [lia|].
    destruct (shl_align p (e - j) (e - room n)) as [mz ez].
    cbn [fst snd] in H1, H2. subst ez.
    replace (e - room n) with (e - room n - 0) by lia.
    apply binary_round_aux_exact.
    + lia.
    + rewrite H2, Hp, Hm. rewrite Z.pow_0_r, Z.mul_1_r.
      replace (e - j - (e - room n - 0)) with (room n - j) by lia.
      rewrite <- Z.mul_assoc, <- Z.pow_add_r by lia.
      f_equal. f_equal. lia.
    + replace (e - room n - 0) with (e - room n) by lia.
      apply dyadic_canonical. exact Hr.
    + unfold B64.emax, B64.prec. lia.
  - assert (shl_align p (e - j) (e - room n) = (p, e - j)) as ->.
    { unfold shl_align. destruct (e - room n - (e - j)) eqn:E; try reflexivity.
      lia. }
    replace (e - j) with (e - room n - (j - room n)) by lia.
    apply binary_round_aux_exact.
    + lia.
    + rewrite Hp, Hm. rewrite <- Z.mul_assoc, <- Z.pow_add_r by lia.
      f_equal. f_equal. lia.
    + apply dyadic_canonical. exact Hr.
    + unfold B64.emax, B64.prec. lia.
Qed.

Lemma binary_normalize_dyadic (z : Z) (n : positive) (j e : Z) :
  0 <= j -> z = Z.pos n * 2 ^ j -> in_range n e ->
  binary_normalize B64.prec B64.emax z (e - j) false = dyadic false n e.
Proof.
  intros Hj Hz Hr.
  assert (0 < 2 ^ j) by (apply Z.pow_pos_nonneg; lia).
  destruct z as [|p|p]; try nia.
  unfold binary_normalize. apply binary_round_dyadic; assumption.
Qed.

(** *** Exact operations *)

Definition two52 : positive := 4503599627370496.

Lemma div_eucl_div_mod (a b : Z) : Z.div_eucl a b = (a / b, a mod b).
Proof.
  unfold Z.div, Z.modulo. destruct (Z.div_eucl a b). reflexivity.
Qed.

(** Dividing by a power of two changes the exponent only. *)
Lemma div_core_pow2 (m : positive) (e e2 : Z) :
  Z.pos (digits2_pos m) = 53 -> -1073 <= e - e2 ->
  SFdiv_core_binary B64.prec B64.emax (Z.pos m) e (Z.pos two52) (e2 - 52) =
  (Z.pos m * 2, e - e2 - 1, loc_Exact).
Proof.
  intros Hd He. unfold SFdiv_core_binary. cbn [Zdigits2].
  rewrite Hd. change (Z.pos (digits2_pos two52)) with 53.
  rewrite fexp64_eq.
  match goal with
  | |- context [Z.min ?a ?b] => replace (Z.min a b) with (e - e2 - 1) by lia
  end.
  replace (e - (e2 - 52) - (e - e2 - 1)) with 53 by lia.
  cbv beta iota zeta.
  rewrite Z.shiftl_mul_pow2 by lia. rewrite div_eucl_div_mod.
  replace (Z.pos m * 2 ^ 53) with (Z.pos m * 2 * Z.pos two52)
    by (unfold two52; lia).
  rewrite Z.div_mul, Z.mod_mul by (unfold two52; lia).
  reflexivity.
Qed.

Lemma normal_canonical (m : positive) (e : Z) :
  Z.pos (digits2_pos m) = 53 -> -1074 <= e ->
  canonical_mantissa B64.prec B64.emax m e = true.
Proof.
  intros Hd He. unfold canonical_mantissa. rewrite Hd, fexp64_eq.
  apply Z.eqb_eq. lia.
Qed.

Lemma div_pow2 (s : bool) (m : positive) (e e2 : Z) :
  Z.pos (digits2_pos m) = 53 -> -1073 <= e - e2 <= 971 ->
  SFdiv B64.prec B64.emax (S754_finite s m e)
        (S754_finite false two52 (e2 - 52)) =
  S754_finite s m (e - e2).
Proof.
  intros Hd He. unfold SFdiv. rewrite div_core_pow2 by (auto; lia).
  rewrite xorb_false_r.
  replace (Z.pos m * 2) with (Z.pos m~0) by lia.
  apply (binary_round_aux_exact s m (e - e2) 1 (m~0)).
  - lia.
  - lia.
  - apply normal_canonical; [assumption | lia].
  - unfold B64.emax, B64.prec. lia.
Qed.

Lemma mul_pow2 (s : bool) (m : positive) (e e2 : Z) :
  Z.pos (digits2_pos m) = 53 -> -1074 <= e + e2 <= 971 ->
  SFmul B64.prec B64.emax (S754_finite s m e)
        (S754_finite false two52 (e2 - 52)) =
  S754_finite s m (e + e2).
Proof.
  intros Hd He. unfold SFmul. rewrite xorb_false_r.
  replace (e + (e2 - 52)) with (e + e2 - 52) by lia.
  apply binary_round_aux_exact.
  - lia.
  - rewrite Pos2Z.inj_mul. unfold two52. lia.
  - apply normal_canonical; [assumption | lia].
  - unfold B64.emax, B64.prec. lia.
Qed.

Lemma add_dyadic (a b : positive) (e : Z) :
  in_range a e -> in_range b e -> in_range (a + b) e ->
  SFadd B64.prec B64.emax (dyadic false a e) (dyadic false b e) =
  dyadic false (a + b) e.
Proof.
  intros Ha Hb Hab. pose proof Ha as [Hra _]. pose proof Hb as [Hrb _].
  destruct (dyadic_mantissa a Hra) as [Hma _].
  destruct (dyadic_mantissa b Hrb) as [Hmb _].
  unfold dyadic, SFadd. cbn [cond_Zopp].
  set (ez := Z.min (e - room a) (e - room b)).
  destruct (shl_align_spec (Z.to_pos (Z.pos a * 2 ^ room a)) (e - room a) ez)
    as [_ H1]; [unfold ez; lia|].
  destruct (shl_align_spec (Z.to_pos (Z.pos b * 2 ^ room b)) (e - room b) ez)
    as [_ H2]; [unfold ez; lia|].
  replace ez with (e - (e - ez)) at 3 by lia.
  apply binary_normalize_dyadic.
  - unfold ez. lia.
  - rewrite H1, H2, Hma, Hmb.
    rewrite <- !Z.mul_assoc, <- !Z.pow_add_r by (unfold ez; lia).
    replace (room a + (e - room a - ez)) with (e - ez) by lia.
    replace (room b + (e - room b - ez)) with (e - ez) by lia.
    rewrite Pos2Z.inj_add. lia.
  - exact Hab.
Qed.

Lemma sub_dyadic (a b : positive) (e : Z) :
  in_range (a + b) e -> in_range b e -> in_range a e ->
  SFsub B64.prec B64.emax (dyadic false (a + b) e) (dyadic false b e) =
  dyadic false a e.
Proof.
  intros Hab Hb Ha. pose proof Hab as [Hrab _]. pose proof Hb as [Hrb _].
  destruct (dyadic_mantissa (a + b) Hrab) as [Hmab _].
  destruct (dyadic_mantissa b Hrb) as [Hmb _].
  unfold dyadic, SFsub. cbn [cond_Zopp].
  set (ez := Z.min (e - room (a + b)) (e - room b)).
  destruct (shl_align_spec (Z.to_pos (Z.pos (a + b) * 2 ^ room (a + b)))
              (e - room (a + b)) ez) as [_ H1]; [unfold ez; lia|].
  destruct (shl_align_spec (Z.to_pos (Z.pos b * 2 ^ room b)) (e - room b) ez)
    as [_ H2]; [unfold ez; lia|].
  replace ez with (e - (e - ez)) at 3 by lia.
  apply binary_normalize_dyadic.
  - unfold ez. lia.
  - rewrite H1, H2, Hmab, Hmb.
    rewrite <- !Z.mul_assoc, <- !Z.pow_add_r by (unfold ez; lia).
    replace (room (a + b) + (e - room (a + b) - ez)) with (e - ez) by lia.
    replace (room b + (e - room b - ez)) with (e - ez) by lia.
    rewrite Pos2Z.inj_add. lia.
  - exact Ha.
Qed.

End Rounding.

(** ** The uniform grid *)

Section GridFacts.

Open Scope Z_scope.

Lemma digits_le_53 (n : positive) : Z.pos n < 2 ^ 53 -> 0 <= room n.
Proof.
  intros H. unfold room. pose proof (digits2_pos_bounds n) as [Blo _].
  assert (Z.pos (digits2_pos n) - 1 < 53); [|lia].
  apply (Z.pow_lt_mono_r_iff 2); lia.
Qed.

Lemma in_range_small (n : positive) (e : Z) :
  Z.pos n < 2 ^ 53 -> -1000 <= e <= 900 -> in_range n e.
Proof.
  intros Hn He. pose proof (digits_le_53 n Hn). unfold in_range.
  split; [assumption|]. unfold room in *. lia.
Qed.

Lemma of_Z_dyadic (n : positive) :
  Z.pos n < 2 ^ 53 -> B64.of_Z (Z.pos n) = dyadic false n 0.
Proof.
  intros Hn. unfold B64.of_Z. change 0 with (0 - 0) at 1.
  apply binary_normalize_dyadic; [lia | lia | apply in_range_small; lia].
Qed.

Lemma dyadic_div_two (n : positive) (e : Z) :
  Z.pos n < 2 ^ 53 -> -900 <= e <= 900 ->
  B64.div (dyadic false n e) B64.two = dyadic false n (e - 1).
Proof.
  intros Hn He. pose proof (digits_le_53 n Hn) as Hr.
  destruct (dyadic_mantissa n Hr) as [_ Hd].
  unfold dyadic, B64.div.
  change B64.two with (S754_finite false two52 (1 - 52)).
  rewrite div_pow2 by (auto; unfold room in *; lia).
  f_equal. lia.
Qed.

Lemma dyadic_div_half (n : positive) (e : Z) :
  Z.pos n < 2 ^ 53 -> -900 <= e <= 900 ->
  B64.div (dyadic false n e) B64.half = dyadic false n (e + 1).
Proof.
  intros Hn He. pose proof (digits_le_53 n Hn) as Hr.
  destruct (dyadic_mantissa n Hr) as [_ Hd].
  unfold dyadic, B64.div.
  change B64.half with (S754_finite false two52 (-1 - 52)).
  rewrite div_pow2 by (auto; unfold room in *; lia).
  f_equal. lia.
Qed.

Lemma dyadic_mul_half (n : positive) (e : Z) :
  Z.pos n < 2 ^ 53 -> -900 <= e <= 900 ->
  B64.mul (dyadic false n e) B64.half = dyadic false n (e - 1).
Proof.
  intros Hn He. pose proof (digits_le_53 n Hn) as Hr.
  destruct (dyadic_mantissa n Hr) as [_ Hd].
  unfold dyadic, B64.mul.
  change B64.half with (S754_finite false two52 (-1 - 52)).
  rewrite mul_pow2 by (auto; unfold room in *; lia).
  f_equal. lia.
Qed.

(** The double [k / 2], for a positive integer [k] below [2 ^ 53]. *)
Lemma half_integer (k : positive) :
  Z.pos k < 2 ^ 53 ->
  B64.div (B64.of_Z (Z.pos k)) B64.two = dyadic false k (-1).
Proof.
  intros Hk. rewrite of_Z_dyadic by assumption.
  rewrite dyadic_div_two by (auto; lia). reflexivity.
Qed.

(** *** Half of a Python [int] *)

Lemma div_core_two (n : positive) :
  Z.pos n < 2 ^ 53 ->
  SFdiv_core_binary B64.prec B64.emax (Z.pos n) 0 2 0 =
  (Z.pos n * 2 ^ (room n + 1), - room n - 2, loc_Exact).
Proof.
  intros Hn. pose proof (digits_le_53 n Hn) as Hr.
  unfold SFdiv_core_binary. cbn [Zdigits2].
  change (Z.pos (digits2_pos 2)) with 2.
  rewrite fexp64_eq.
  match goal with
  | |- context [Z.min ?a ?b] =>
      replace (Z.min a b) with (- room n - 2) by (unfold room in *; lia)
  end.
  replace (0 - 0 - (- room n - 2)) with (room n + 2) by lia.
  destruct (room n + 2) as [|p|p] eqn:E; try lia.
  cbv beta iota zeta.
  rewrite Z.shiftl_mul_pow2 by lia. rewrite div_eucl_div_mod.
  assert (Hp : Z.pos n * 2 ^ Z.pos p = Z.pos n * 2 ^ (room n + 1) * 2).
  { rewrite <- E. replace (room n + 2) with (room n + 1 + 1) by lia.
    rewrite (Z.pow_add_r 2 (room n + 1) 1) by lia. lia. }
  rewrite Hp, Z.div_mul, Z.mod_mul by lia. reflexivity.
Qed.

(** An integer below [2 ^ 53] in absolute value, divided by the integer
    2: the quotient is a double, and the division is exact. *)
Lemma exact_div_two (s : bool) (n : positive) :
  Z.pos n < 2 ^ 53 ->
  B64.div (S754_finite s n 0) (S754_finite false 2 0) = dyadic s n (-1).
Proof.
  intros Hn. pose proof (digits_le_53 n Hn) as Hr.
  destruct (dyadic_mantissa n Hr) as [Hm Hd].
  unfold B64.div, SFdiv. rewrite div_core_two by exact Hn.
  rewrite xorb_false_r. unfold dyadic.
  replace (- room n - 2) with (-1 - room n - 1) by lia.
  assert (Hq : Z.pos n * 2 ^ (room n + 1) =
               Z.pos (Z.to_pos (Z.pos n * 2 ^ room n))~0).
  { rewrite (Pos2Z.inj_xO (Z.to_pos (Z.pos n * 2 ^ room n))), Hm.
    rewrite Z.pow_add_r by lia. lia. }
  rewrite Hq.
  apply (binary_round_aux_exact s _ (-1 - room n) 1).
  - lia.
  - rewrite (Pos2Z.inj_xO (Z.to_pos (Z.pos n * 2 ^ room n))). lia.
  - apply normal_canonical; [exact Hd | unfold room in *; lia].
  - unfold B64.emax, B64.prec, room in *. lia.
Qed.

Lemma int_truediv_two (target_size : Z) :
  - 2 ^ 53 < target_size < 2 ^ 53 ->
  exists half, int_truediv target_size 2 = Ok half.
Proof.
  intros H. unfold int_truediv. cbn [Z.eqb].
  destruct target_size as [|n|n]; cbn [int_value].
  - eexists. reflexivity.
  - rewrite exact_div_two by lia. eexists. reflexivity.
  - rewrite exact_div_two by lia. eexists. reflexivity.
Qed.

(** For a positive target size below [2 ^ 53], [target_size / 2] is the
    double of the target size, halved. *)
Lemma half_of_int (target_size : Z) :
  0 < target_size < 2 ^ 53 ->
  int_truediv target_size 2 = Ok (B64.div (B64.of_Z target_size) B64.two).
Proof.
  intros H. destruct target_size as [|n|n]; try lia.
  rewrite half_integer by lia.
  unfold int_truediv. cbn [Z.eqb int_value].
  rewrite exact_div_two by lia. reflexivity.
Qed.

Lemma ceil_dyadic (n : positive) :
  Z.pos n < 2 ^ 53 -> B64.ceil (dyadic false n 0) = Some (Z.pos n).
Proof.
  intros Hn. pose proof (digits_le_53 n Hn) as Hr.
  destruct (dyadic_mantissa n Hr) as [Hm _].
  unfold dyadic, B64.ceil. f_equal.
  destruct (0 - room n) as [|p|p] eqn:E.
  - rewrite Hm. replace (room n) with 0 by lia. simpl. lia.
  - lia.
  - assert (Z.pos p = room n) as Hp by lia.
    rewrite Hm, Hp.
    assert (0 < 2 ^ room n) by (apply Z.pow_pos_nonneg; lia).
    rewrite <- Z.mul_opp_l, Z.div_mul by lia. lia.
Qed.

End GridFacts.

Section ArangeFacts.

Open Scope Z_scope.

(** The half-integers from 1 to [target_size / 2], as doubles. *)
Definition half_steps (target_size : Z) : list float :=
  map (fun k => B64.div (B64.of_Z (Z.of_nat k)) B64.two)
      (seq 2 (Z.to_nat target_size - 1)).

Lemma arange_element (i : nat) :
  Z.of_nat i < 2 ^ 52 ->
  B64.add B64.one (B64.mul (B64.of_Z (Z.of_nat i)) B64.half) =
  B64.div (B64.of_Z (Z.of_nat (i + 2))) B64.two.
Proof.
  intros Hi.
  replace (Z.of_nat (i + 2)) with (Z.pos (Pos.of_succ_nat (S i)))
    by (rewrite Zpos_P_of_succ_nat; lia).
  rewrite half_integer by (rewrite Zpos_P_of_succ_nat; lia).
  destruct i as [|i].
  - reflexivity.
  - replace (Z.of_nat (S i)) with (Z.pos (Pos.of_succ_nat i))
      by (rewrite Zpos_P_of_succ_nat; lia).
    assert (Hp : Z.pos (Pos.of_succ_nat i) < 2 ^ 52)
      by (rewrite Zpos_P_of_succ_nat; lia).
    rewrite of_Z_dyadic by lia.
    rewrite dyadic_mul_half by lia.
    change B64.one with (dyadic false 2 (-1)).
    unfold B64.add. change (0 - 1) with (-1).
    rewrite add_dyadic.
    + f_equal. lia.
    + apply in_range_small; lia.
    + apply in_range_small; lia.
    + apply in_range_small; lia.
Qed.

Lemma arange_length (t : positive) :
  Z.pos t < 2 ^ 52 ->
  B64.ceil
    (B64.div
       (B64.sub (B64.add (B64.div (B64.of_Z (Z.pos t)) B64.two) B64.half)
                B64.one)
       B64.half) = Some (Z.pos t - 1).
Proof.
  intros Ht. rewrite half_integer by lia.
  change B64.half with (dyadic false 1 (-1)) at 1.
  unfold B64.add. rewrite add_dyadic by (apply in_range_small; lia).
  destruct (Pos.eq_dec t 1) as [->|Hne].
  - reflexivity.
  - assert (exists a, t = Pos.succ a) as [a ->].
    { exists (Pos.pred t). rewrite Pos.succ_pred; auto. }
    replace (Pos.succ a + 1)%positive with (a + 2)%positive by lia.
    change B64.one with (dyadic false 2 (-1)).
    unfold B64.sub. rewrite sub_dyadic by (apply in_range_small; lia).
    rewrite dyadic_div_half by lia. change (-1 + 1) with 0.
    rewrite ceil_dyadic by lia. f_equal. lia.
Qed.

(** What [np.arange(1, target_size / 2 + 0.5, 0.5)] returns. *)
Lemma arange_half_steps (target_size : Z) :
  0 < target_size < 2 ^ 52 ->
  Np.arange B64.one
    (B64.add (B64.div (B64.of_Z target_size) B64.two) B64.half) B64.half
  = Ok (half_steps target_size).
Proof.
  intros [Hlo Hhi]. destruct target_size as [|t|t]; try lia.
  unfold Np.arange. rewrite arange_length by assumption.
  f_equal. unfold half_steps.
  replace (Z.to_nat (Z.pos t - 1)) with (Z.to_nat (Z.pos t) - 1)%nat by lia.
  assert (Hn : Z.of_nat (Z.to_nat (Z.pos t) - 1) < 2 ^ 52) by lia.
  revert Hn. generalize (Z.to_nat (Z.pos t) - 1)%nat. intros n Hn.
  rewrite <- (seq_shift n 1), <- (seq_shift n 0), !map_map.
  apply map_ext_in. intros i Hi. apply in_seq in Hi.
  rewrite arange_element by lia. do 3 f_equal. lia.
Qed.

End ArangeFacts.

(** ** Interpolation *)

Section InterpFacts.

Open Scope b64_scope.

Definition ascending (xs : list float) : Prop :=
  StronglySorted (fun a b => (a <? b) = true) xs.

Lemma last_cons {A : Type} (a d : A) (l : list A) :
  last (a :: l) d = last l a.
Proof.
  revert a d. induction l as [|b l IH]; intros a d; [reflexivity|].
  change (last (a :: b :: l) d) with (last (b :: l) d).
  rewrite (IH b d), (IH b a). reflexivity.
Qed.

Lemma nth_error_combine {A B : Type} (l : list A) (l' : list B) (i : nat)
  (a : A) (b : B) :
  nth_error (combine l l') i = Some (a, b) ->
  nth_error l i = Some a /\ nth_error l' i = Some b.
Proof.
  revert l' i. induction l as [|x l IH]; intros [|y l'] [|i]; simpl;
    try discriminate.
  - intros [= -> ->]. auto.
  - apply IH.
Qed.

Lemma ascending_nth (xs : list float) (i k : nat) (a b : float) :
  ascending xs -> (i < k)%nat ->
  nth_error xs i = Some a -> nth_error xs k = Some b -> (a <? b) = true.
Proof.
  intros Hs. revert i k. induction Hs as [|x xs Hs IH Hx]; intros i k Hik Hi Hk.
  - destruct i; discriminate.
  - destruct k as [|k]; [lia|]. simpl in Hk.
    destruct i as [|i]; simpl in Hi.
    + injection Hi as <-. rewrite Forall_forall in Hx. apply Hx.
      eapply nth_error_In. exact Hk.
    + apply (IH i k); [lia | assumption | assumption].
Qed.

Lemma ltb_leb_false (a b q : float) :
  number a -> number b -> number q ->
  (a <? b) = true -> (b <=? q) = true -> (q <? a) = false.
Proof.
  intros Ha Hb Hq H1 H2.
  apply (@ltb_rank a b Ha Hb) in H1. apply (@leb_rank b q Hb Hq) in H2.
  destruct (q <? a) eqn:E; [|reflexivity].
  apply (@ltb_rank q a Hq Ha) in E. exfalso.
  unfold lex_lt in *.
  destruct (rank a) as [[a1 a2] a3], (rank b) as [[b1 b2] b3],
           (rank q) as [[q1 q2] q3]. lia.
Qed.

Lemma leb_ltb_false (a q : float) :
  number a -> number q -> (a <=? q) = true -> (q <? a) = false.
Proof.
  intros Ha Hq H.
  apply (@leb_rank a q Ha Hq) in H.
  destruct (q <? a) eqn:E; [|reflexivity].
  apply (@ltb_rank q a Hq Ha) in E. contradiction.
Qed.

Lemma ltb_leb (a b : float) :
  number a -> number b -> (a <? b) = true -> (a <=? b) = true.
Proof.
  intros Ha Hb H. apply (@ltb_rank a b Ha Hb) in H.
  apply (@leb_rank a b Ha Hb). unfold lex_lt in *.
  destruct (rank a) as [[a1 a2] a3], (rank b) as [[b1 b2] b3]. lia.
Qed.

Lemma leb_refl (a : float) : number a -> (a <=? a) = true.
Proof.
  intros Ha. apply (@leb_rank a a Ha Ha). unfold lex_lt.
  destruct (rank a) as [[a1 a2] a3]. lia.
Qed.

Lemma leb_trans (a b c : float) :
  number a -> number b -> number c ->
  (a <=? b) = true -> (b <=? c) = true -> (a <=? c) = true.
Proof.
  intros Ha Hb Hc H1 H2.
  apply (@leb_rank a b Ha Hb) in H1. apply (@leb_rank b c Hb Hc) in H2.
  apply (@leb_rank a c Ha Hc). unfold lex_lt in *.
  destruct (rank a) as [[a1 a2] a3], (rank b) as [[b1 b2] b3],
           (rank c) as [[c1 c2] c3]. lia.
Qed.

Lemma ltb_eqb_false (a q : float) :
  number a -> number q -> (a <? q) = true -> (q =? a) = false.
Proof.
  intros Ha Hq H. apply (@ltb_rank a q Ha Hq) in H.
  destruct (q =? a) eqn:E; [|reflexivity].
  apply (@eqb_rank q a Hq Ha) in E. exfalso. rewrite E in H.
  unfold lex_lt in H. destruct (rank a) as [[a1 a2] a3]. lia.
Qed.

Lemma leb_antisym (a b : float) :
  number a -> number b ->
  (a <=? b) = true -> (b <=? a) = true -> (a =? b) = true.
Proof.
  intros Ha Hb H1 H2.
  apply (@leb_rank a b Ha Hb) in H1. apply (@leb_rank b a Hb Ha) in H2.
  apply (@eqb_rank a b Ha Hb). unfold lex_lt in *.
  destruct (rank a) as [[a1 a2] a3], (rank b) as [[b1 b2] b3].
  assert (a1 = b1) by lia. assert (a2 = b2) by lia. assert (a3 = b3) by lia.
  congruence.
Qed.

(** Right of every remaining sample the walk ends on the last one. *)
Lemma interp_between_right (pts : list (float * float)) :
  forall x x0 y0,
  (forall p, In p pts -> (x <? fst p) = false) ->
  Np.interp_between x x0 y0 pts = snd (last pts (x0, y0)).
Proof.
  induction pts as [|[x1 y1] pts IH]; intros x x0 y0 H; [reflexivity|].
  cbn [Np.interp_between].
  assert (E : (x <? x1) = false) by (apply (H (x1, y1)); left; reflexivity).
  rewrite E, last_cons. apply IH. intros p Hp. apply H. right. exact Hp.
Qed.

(** Between two neighbouring samples the walk stops at the left one. *)
Lemma interp_between_inner (pts : list (float * float)) :
  forall x x0 y0 j xj yj xj1 yj1,
  nth_error ((x0, y0) :: pts) j = Some (xj, yj) ->
  nth_error ((x0, y0) :: pts) (S j) = Some (xj1, yj1) ->
  (forall i p, (1 <= i <= j)%nat ->
     nth_error ((x0, y0) :: pts) i = Some p -> (x <? fst p) = false) ->
  (x <? xj1) = true ->
  Np.interp_between x x0 y0 pts =
  if x =? xj then yj else Np.chord_or_other xj yj xj1 yj1 x.
Proof.
  induction pts as [|[x1 y1] pts IH]; intros x x0 y0 j xj yj xj1 yj1 Hj Hj1 Hlow Hup.
  - destruct j; discriminate.
  - cbn [Np.interp_between]. destruct j as [|j].
    + simpl in Hj, Hj1. injection Hj as <- <-. injection Hj1 as <- <-.
      rewrite Hup. reflexivity.
    + assert (E : (x <? x1) = false)
        by (apply (Hlow 1%nat (x1, y1)); [lia | reflexivity]).
      rewrite E.
      apply (IH x x1 y1 j xj yj xj1 yj1); auto.
      intros i p Hi Hp. apply (Hlow (S i) p); [lia | exact Hp].
Qed.

Lemma last_In {A : Type} (a d : A) (l : list A) : In (last (a :: l) d) (a :: l).
Proof.
  revert a. induction l as [|b l IH]; intros a; [left; reflexivity|].
  right. apply IH.
Qed.

Lemma ascending_le_last (xs : list float) :
  ascending xs -> Forall number xs ->
  forall a d, In a xs -> (a <=? last xs d) = true.
Proof.
  induction 1 as [|x xs Hs IH Hx]; intros Hnum a d Ha; [destruct Ha|].
  inversion Hnum as [|? ? Hnx Hnxs]; subst.
  rewrite last_cons. destruct Ha as [<-|Ha].
  - destruct xs as [|b xs]; [apply leb_refl; assumption|].
    rewrite Forall_forall in Hx, Hnxs.
    pose proof (last_In b x xs) as Hl.
    apply ltb_leb; auto.
  - apply IH; assumption.
Qed.

Lemma last_map {A B : Type} (f : A -> B) (l : list A) (d : A) :
  last (map f l) (f d) = f (last l d).
Proof.
  induction l as [|a l IH]; [reflexivity|].
  destruct l as [|b l]; [reflexivity|]. exact IH.
Qed.

Section Sorted.

Variable pts : list (float * float).
Hypothesis pts_ascending : ascending (map fst pts).
Hypothesis pts_numbers : Forall number (map fst pts).
Variable q : float.
Hypothesis q_number : number q.

Lemma pts_number (i : nat) (p : float * float) :
  nth_error pts i = Some p -> number (fst p).
Proof.
  intros H. rewrite Forall_forall in pts_numbers. apply pts_numbers.
  apply in_map. eapply nth_error_In. exact H.
Qed.

Lemma pts_lt (i k : nat) (p p' : float * float) :
  (i < k)%nat -> nth_error pts i = Some p -> nth_error pts k = Some p' ->
  (fst p <? fst p') = true.
Proof.
  intros Hik Hi Hk. apply (ascending_nth (map fst pts) i k); auto.
  - rewrite nth_error_map, Hi. reflexivity.
  - rewrite nth_error_map, Hk. reflexivity.
Qed.

Lemma pts_le (i k : nat) (p p' : float * float) :
  (i <= k)%nat -> nth_error pts i = Some p -> nth_error pts k = Some p' ->
  (fst p <=? fst p') = true.
Proof.
  intros Hik Hi Hk. destruct (Nat.eq_dec i k) as [->|Hne].
  - rewrite Hi in Hk. injection Hk as <-. apply leb_refl.
    apply (pts_number k). exact Hi.
  - apply ltb_leb; [eapply pts_number; eauto | eapply pts_number; eauto|].
    apply (pts_lt i k); auto. lia.
Qed.

(** Left of the samples, and on the first one: the first value. *)
Lemma interp1_left (x0 y0 : float) :
  nth_error pts 0 = Some (x0, y0) -> (q <=? x0) = true ->
  Np.interp1 q pts = Ok y0.
Proof.
  intros H0 Hq. destruct pts as [|[x y] rest]; [discriminate|].
  injection H0 as -> ->. unfold Np.interp1.
  rewrite q_number, Hq. reflexivity.
Qed.

(** Right of the samples, and on the last one: the last value. *)
Lemma interp1_right (xl yl : float) (d : float * float) :
  pts <> [] -> last pts d = (xl, yl) -> (xl <=? q) = true ->
  Np.interp1 q pts = Ok yl.
Proof.
  intros Hne Hl Hq.
  pose proof pts_number as Hn. pose proof pts_lt as Hlt.
  pose proof (ascending_le_last _ pts_ascending pts_numbers) as Hal.
  pose proof pts_numbers as Hnums. rewrite Forall_forall in Hnums.
  destruct pts as [|[x0 y0] rest]; [congruence|].
  clear Hne. unfold Np.interp1. rewrite q_number.
  rewrite last_cons in Hl.
  assert (Hx0 : number x0) by (apply (Hn 0%nat (x0, y0)); reflexivity).
  assert (Hlast : forall a, In a (map fst ((x0, y0) :: rest)) ->
                    (a <=? xl) = true).
  { intros a Ha. pose proof (Hal a (fst d) Ha) as H.
    rewrite last_map, last_cons, Hl in H. exact H. }
  assert (Hxl : number xl).
  { apply Hnums. change xl with (fst (xl, yl)). rewrite <- Hl. apply in_map.
    rewrite <- (last_cons _ d). apply last_In. }
  destruct (q <=? x0) eqn:E.
  - destruct rest as [|[x1 y1] rest']; [simpl in Hl; congruence|].
    exfalso.
    assert (H01 : (x0 <? x1) = true)
      by (apply (Hlt 0%nat 1%nat (x0, y0) (x1, y1));
          [lia | reflexivity | reflexivity]).
    assert (Hx1 : number x1) by (apply (Hn 1%nat (x1, y1)); reflexivity).
    assert (H1l : (x1 <=? xl) = true) by (apply Hlast; simpl; auto).
    assert (H1q : (x1 <=? x0) = true).
    { apply (leb_trans x1 xl x0); auto. apply (leb_trans xl q x0); auto. }
    apply leb_ltb_false in H1q; auto. congruence.
  - rewrite interp_between_right; [rewrite Hl; reflexivity|].
    intros p Hp.
    assert (Hnp : number (fst p)) by (apply Hnums; right; apply in_map; exact Hp).
    apply leb_ltb_false; auto.
    apply (leb_trans (fst p) xl q); auto.
    apply Hlast. right. apply in_map. exact Hp.
Qed.

(** From a sample up to the next one: the value of the sample at its own
    point, and the chord strictly between the two. *)
Lemma interp1_between (j : nat) (xj yj xj1 yj1 : float) :
  nth_error pts j = Some (xj, yj) -> nth_error pts (S j) = Some (xj1, yj1) ->
  (xj <=? q) = true -> (q <? xj1) = true ->
  Np.interp1 q pts =
  Ok (if q =? xj then yj else Np.chord_or_other xj yj xj1 yj1 q).
Proof.
  intros Hj Hj1 Hlo Hhi.
  pose proof pts_number as Hn. pose proof pts_le as Hle.
  pose proof pts_lt as Hlt.
  destruct pts as [|[x0 y0] rest]; [destruct j; discriminate|].
  unfold Np.interp1. rewrite q_number.
  assert (Hxj : number xj) by (apply (Hn j (xj, yj)); exact Hj).
  assert (Hx0 : number x0) by (apply (Hn 0%nat (x0, y0)); reflexivity).
  assert (Hbelow : forall i p, (i <= j)%nat ->
            nth_error ((x0, y0) :: rest) i = Some p -> (q <? fst p) = false).
  { intros i p Hi Hp.
    assert (Hnp : number (fst p)) by (apply (Hn i p); exact Hp).
    apply leb_ltb_false; auto.
    apply (leb_trans (fst p) xj q); auto.
    apply (Hle i j p (xj, yj)); auto. }
  destruct (q <=? x0) eqn:E.
  - destruct j as [|j].
    + cbn [nth_error] in Hj. injection Hj as <- <-.
      rewrite (leb_antisym q x0) by auto. reflexivity.
    + exfalso.
      assert (H0j : (x0 <? xj) = true)
        by (apply (Hlt 0%nat (S j) (x0, y0) (xj, yj));
            [lia | reflexivity | exact Hj]).
      assert (Hj0 : (xj <=? x0) = true) by (apply (leb_trans xj q x0); auto).
      apply leb_ltb_false in Hj0; auto. congruence.
  - rewrite (interp_between_inner rest q x0 y0 j xj yj xj1 yj1 Hj Hj1);
      [reflexivity | | exact Hhi].
    intros i p Hi Hp. apply (Hbelow i p); [lia | exact Hp].
Qed.

End Sorted.

End InterpFacts.

(** ** The uniform grid and its interpolated values *)

Section UniformGrid.

Open Scope b64_scope.

Lemma for_each_Forall2 {A B : Type} (f : A -> result B) (l : list A)
  (bs : list B) :
  for_each f l = Ok bs -> Forall2 (fun a b => f a = Ok b) l bs.
Proof.
  revert bs. induction l as [|a l IH]; simpl; intros bs H.
  - injection H as <-. constructor.
  - destruct (f a) as [b|] eqn:E; simpl in H; [|discriminate].
    destruct (for_each f l) as [bs'|]; simpl in H; [|discriminate].
    injection H as <-. constructor; auto.
Qed.

Lemma map_fst_combine {A B : Type} (l : list A) (l' : list B) :
  List.length l = List.length l' -> map fst (combine l l') = l.
Proof.
  revert l'. induction l as [|a l IH]; intros [|b l'] H; simpl in *;
    try discriminate; [reflexivity|].
  f_equal. apply IH. congruence.
Qed.

Lemma interp1_total (q : float) (pts : list (float * float)) :
  pts <> [] -> exists y, Np.interp1 q pts = Ok y.
Proof.
  destruct pts as [|[x0 y0] rest]; [congruence|]. intros _.
  unfold Np.interp1. destruct (B64.is_nan q); [eauto|].
  destruct (q <=? x0); eauto.
Qed.

(** C2. For a target size between 1 and [2 ^ 52] and sample points
    [xvals] that are numbers in ascending order, with one value of [yvals]
    each, [uniform_sfs] returns: as grid, [base / e] for [e] running through
    the doubles 1, 1.5, 2, ... up to [target_size / 2], in this order, where
    [base] is [target_size / 2 / pi]; and, for each grid point, the value
    of [np.interp] there.  That value, at a point [q] that is a number, is
    the first of [yvals] when [q] is at most the first sample point, the
    last of [yvals] when [q] is at least the last one, the value of a
    sample at its own point, and strictly between two neighbouring samples
    [(xj, yj)] and [(xj1, yj1)] the point of their chord,
    [(yj1 - yj) / (xj1 - xj) * (q - xj) + yj] in doubles; when this is NaN,
    numpy takes [(yj1 - yj) / (xj1 - xj) * (q - xj1) + yj1] in its place,
    and [yj] when that is NaN too and the two values are equal. *)
Theorem uniform_sfs_grid (xvals yvals : list float) (target_size : Z) :
  (0 < target_size < 2 ^ 52)%Z ->
  xvals <> [] -> List.length xvals = List.length yvals ->
  ascending xvals -> Forall number xvals ->
  exists new_ys,
    uniform_sfs xvals yvals target_size =
      Ok (map (fun e => ((B64.of_Z target_size / B64.two) / B64.pi) / e)
              (half_steps target_size),
          new_ys) /\
    Forall2 (fun q y => Np.interp1 q (combine xvals yvals) = Ok y)
      (map (fun e => ((B64.of_Z target_size / B64.two) / B64.pi) / e)
           (half_steps target_size))
      new_ys /\
    forall q, number q ->
      (forall x0 y0, nth_error (combine xvals yvals) 0 = Some (x0, y0) ->
         (q <=? x0) = true ->
         Np.interp1 q (combine xvals yvals) = Ok y0) /\
      (forall xl yl d, last (combine xvals yvals) d = (xl, yl) ->
         (xl <=? q) = true ->
         Np.interp1 q (combine xvals yvals) = Ok yl) /\
      (forall j xj yj xj1 yj1,
         nth_error (combine xvals yvals) j = Some (xj, yj) ->
         nth_error (combine xvals yvals) (S j) = Some (xj1, yj1) ->
         (xj <=? q) = true -> (q <? xj1) = true ->
         Np.interp1 q (combine xvals yvals) =
           Ok (if q =? xj then yj
               else if B64.is_nan (((yj1 - yj) / (xj1 - xj)) * (q - xj) + yj)
               then (if (B64.is_nan
                           (((yj1 - yj) / (xj1 - xj)) * (q - xj1) + yj1)
                         && (yj =? yj1))%bool
                     then yj
                     else ((yj1 - yj) / (xj1 - xj)) * (q - xj1) + yj1)
               else ((yj1 - yj) / (xj1 - xj)) * (q - xj) + yj)).
Proof.
  intros HT Hne Hlen Hasc Hnum.
  assert (Hpts : combine xvals yvals <> []).
  { destruct xvals as [|x xs]; [congruence|].
    destruct yvals as [|y ys]; [discriminate|]. discriminate. }
  assert (Hfst : map fst (combine xvals yvals) = xvals)
    by (apply map_fst_combine; exact Hlen).
  unfold uniform_sfs. rewrite half_of_int by lia. cbn [bind].
  rewrite arange_half_steps by exact HT. cbn [bind].
  set (grid := map (fun e => ((B64.of_Z target_size / B64.two) / B64.pi) / e)
                   (half_steps target_size)).
  unfold Np.interp. rewrite Hlen, Nat.eqb_refl.
  destruct (@for_each_total _ _
              (fun q => Np.interp1 q (combine xvals yvals)) grid)
    as [new_ys Hys].
  { intros q _. apply interp1_total. exact Hpts. }
  exists new_ys. split; [|split].
  - destruct xvals as [|x xs]; [congruence|]. rewrite Hys. reflexivity.
  - apply for_each_Forall2. exact Hys.
  - intros q Hq. split; [|split].
    + intros x0 y0 H0 Hle.
      apply interp1_left with (x0 := x0); rewrite ?Hfst; auto.
    + intros xl yl d Hl Hle.
      apply interp1_right with (xl := xl) (d := d); rewrite ?Hfst; auto.
    + intros j xj yj xj1 yj1 Hj Hj1 Hlo Hhi.
      rewrite (interp1_between (combine xvals yvals)) with (j := j)
        (xj := xj) (yj := yj) (xj1 := xj1) (yj1 := yj1);
        rewrite ?Hfst; auto.
Qed.

(** [np.interp] on two samples: the first value left of them and on the
    first, the middle of the chord half way, the last value on the last
    sample and right of it. *)
Example interp_scenario :
  Np.interp [B64.of_Z 3; B64.of_Z 4; B64.of_Z 5; B64.of_Z 6; B64.of_Z 8;
             B64.of_Z 9]
            [B64.of_Z 4; B64.of_Z 8] [B64.of_Z 10; B64.of_Z 20]
  = Ok [B64.of_Z 10; B64.of_Z 10; B64.lit 25 2; B64.of_Z 15; B64.of_Z 20;
        B64.of_Z 20].
Proof. vm_compute. reflexivity. Qed.

End UniformGrid.

Section Witnesses.

Open Scope b64_scope.

Definition scenario_waves : list float := [B64.of_Z 4; B64.of_Z 8].
Definition scenario_sens : list float := [B64.of_Z 10; B64.of_Z 20].

Lemma uniform_sfs_grid_witness :
  exists new_ys,
    uniform_sfs scenario_waves scenario_sens 224 =
      Ok (map (fun e => ((B64.of_Z 224 / B64.two) / B64.pi) / e)
              (half_steps 224),
          new_ys) /\
    Forall2 (fun q y => Np.interp1 q (combine scenario_waves scenario_sens) = Ok y)
      (map (fun e => ((B64.of_Z 224 / B64.two) / B64.pi) / e) (half_steps 224))
      new_ys /\
    forall q, number q ->
      (forall x0 y0,
         nth_error (combine scenario_waves scenario_sens) 0 = Some (x0, y0) ->
         (q <=? x0) = true ->
         Np.interp1 q (combine scenario_waves scenario_sens) = Ok y0) /\
      (forall xl yl d,
         last (combine scenario_waves scenario_sens) d = (xl, yl) ->
         (xl <=? q) = true ->
         Np.interp1 q (combine scenario_waves scenario_sens) = Ok yl) /\
      (forall j xj yj xj1 yj1,
         nth_error (combine scenario_waves scenario_sens) j = Some (xj, yj) ->
         nth_error (combine scenario_waves scenario_sens) (S j)
           = Some (xj1, yj1) ->
         (xj <=? q) = true -> (q <? xj1) = true ->
         Np.interp1 q (combine scenario_waves scenario_sens) =
           Ok (if q =? xj then yj
               else if B64.is_nan (((yj1 - yj) / (xj1 - xj)) * (q - xj) + yj)
               then (if (B64.is_nan
                           (((yj1 - yj) / (xj1 - xj)) * (q - xj1) + yj1)
                         && (yj =? yj1))%bool
                     then yj
                     else ((yj1 - yj) / (xj1 - xj)) * (q - xj1) + yj1)
               else ((yj1 - yj) / (xj1 - xj)) * (q - xj) + yj)).
Proof.
  apply (uniform_sfs_grid scenario_waves scenario_sens 224).
  - split; reflexivity.
  - discriminate.
  - reflexivity.
  - repeat constructor.
  - repeat constructor.
Defined.

(** The summary of the scenario, for an image of 4 pixels. *)
Definition scenario_summary : data_summary_t :=
  Eval vm_compute in
    match _extract_data scenario_matrix 4 with
    | Ok d => d
    | Raise _ =>
        {| unique_params := {| up_wave := []; up_sf := []; up_sf_int := [] |};
           accuracies := []; contrasts_waves := [];
           sensitivities := {| sens_all := []; sens_all_int := [] |} |}
    end.

Lemma extract_data_halved_witness :
  up_wave (unique_params scenario_summary) =
    Np.unique (map wave_of scenario_matrix) /\
  (exists sfs,
     wave2sf (map np (up_wave (unique_params scenario_summary))) 4 = Ok sfs /\
     up_sf (unique_params scenario_summary) =
       map (fun f => value f / B64.two) sfs) /\
  exists int_xvals int_yvals,
    uniform_sfs (up_wave (unique_params scenario_summary))
                (sens_all (sensitivities scenario_summary)) 4
      = Ok (int_xvals, int_yvals) /\
    sens_all_int (sensitivities scenario_summary) = int_yvals /\
    exists sfs_int,
      wave2sf (map np int_xvals) 4 = Ok sfs_int /\
      up_sf_int (unique_params scenario_summary) =
        map (fun f => value f / B64.two) sfs_int.
Proof.
  apply (@extract_data_halved scenario_matrix 4 scenario_summary).
  vm_compute. reflexivity.
Defined.

End Witnesses.

(** ** A quotient that does not exceed one *)

Section DivisionBound.

Open Scope Z_scope.

(** The location that a division computes from its remainder. *)
Lemma new_location_between (q r d : Z) :
  0 <= q -> 0 <= r < d ->
  between (shr_record_of_loc q (new_location d r)) (q * d + r) d.
Proof.
  intros Hq Hr. unfold new_location.
  destruct (Z.even d) eqn:Ed.
  - unfold new_location_even. destruct (Z.eqb_spec r 0) as [->|Hne].
    + unfold between. cbn [shr_record_of_loc shr_m shr_r shr_s]. lia.
    + destruct (Z.compare_spec (2 * r) d); unfold between;
        cbn [shr_record_of_loc shr_m shr_r shr_s]; lia.
  - assert (Ho : Z.odd d = true) by (rewrite <- Z.negb_even, Ed; reflexivity).
    apply Z.odd_spec in Ho. destruct Ho as [k Hk].
    unfold new_location_odd. destruct (Z.eqb_spec r 0) as [->|Hne].
    + unfold between. cbn [shr_record_of_loc shr_m shr_r shr_s]. lia.
    + destruct (Z.compare_spec (2 * r + 1) d); unfold between;
        cbn [shr_record_of_loc shr_m shr_r shr_s]; lia.
Qed.

(** Rounding to nearest does not pass an integer bound of the value. *)
Lemma round_nearest_even_le (mrs : shr_record) (num den bound : Z) :
  between mrs num den -> num <= bound * den ->
  0 <= round_nearest_even (shr_m mrs) (loc_of_shr_record mrs) <= bound.
Proof.
  destruct mrs as [m r s]. unfold between. cbn [shr_m shr_r shr_s].
  intros [Hden [Hm [Hv Hloc]]] Hb.
  assert (m <= bound) by nia.
  destruct r, s; cbn [loc_of_shr_record round_nearest_even].
  - assert (m < bound) by nia. lia.
  - assert (m < bound) by nia. destruct (Z.even m); lia.
  - lia.
  - lia.
Qed.

Lemma Zdigits2_le (m k : Z) : 0 <= k -> 0 <= m <= 2 ^ k -> Zdigits2 m <= k + 1.
Proof.
  intros Hk [Hlo Hhi]. destruct m as [|p|p]; simpl; try lia.
  pose proof (digits2_pos_bounds p) as [Blo _].
  assert (Z.pos (digits2_pos p) - 1 < k + 1); [|lia].
  apply (Z.pow_lt_mono_r_iff 2); try lia.
  rewrite Z.pow_add_r, Z.pow_1_r by lia. lia.
Qed.

(** Values that compare at most equal to 1.0, and are 1.0 when equal. *)
Definition at_most_one (z : spec_float) : Prop :=
  z = S754_zero false \/
  exists m e, z = S754_finite false m e /\
              (e < -52 \/ (e = -52 /\ Z.pos m <= 2 ^ 52)).

Lemma shr_fexp_bound (q e0 : Z) (l : location) (num den : Z) :
  between (shr_record_of_loc q l) num den ->
  e0 <= -52 -> num <= 2 ^ (- e0) * den ->
  exists mrs e1 den1,
    shr_fexp B64.prec B64.emax q e0 l = (mrs, e1) /\
    between mrs num den1 /\ e1 <= -52 /\ num <= 2 ^ (- e1) * den1.
Proof.
  intros Hb He Hn. unfold shr_fexp.
  set (n := fexp B64.prec B64.emax (Zdigits2 q + e0) - e0).
  destruct (between_shr _ e0 n num den Hb) as [Hb1 He1].
  destruct (shr (shr_record_of_loc q l) e0 n) as [mrs e1].
  cbn [fst snd] in Hb1, He1.
  exists mrs, e1, (2 ^ Z.max 0 n * den). split; [reflexivity|].
  split; [exact Hb1|].
  assert (Hq : 0 <= q <= 2 ^ (- e0)).
  { destruct Hb as [Hden [Hq0 [Hv _]]].
    assert (shr_m (shr_record_of_loc q l) = q) as Em
      by (destruct l as [|[| |]]; reflexivity).
    rewrite Em in *. split; [assumption|]. nia. }
  pose proof (Zdigits2_le q (- e0) ltac:(lia) Hq) as Hd.
  assert (Hle : e1 <= -52).
  { subst e1. destruct (Z_le_gt_dec n 0); [lia|].
    unfold n in *. rewrite fexp64_eq in *. lia. }
  split; [exact Hle|].
  replace (- e0) with (- e1 + Z.max 0 n) in Hn by lia.
  rewrite Z.pow_add_r in Hn by lia. lia.
Qed.

Lemma binary_round_aux_at_most_one (q e0 : Z) (l : location) (num den : Z) :
  between (shr_record_of_loc q l) num den ->
  e0 <= -52 -> num <= 2 ^ (- e0) * den ->
  at_most_one (binary_round_aux B64.prec B64.emax false q e0 l).
Proof.
  intros Hb He Hn. unfold binary_round_aux.
  destruct (shr_fexp_bound q e0 l num den Hb He Hn)
    as [mrs1 [e1 [den1 [E1 [Hb1 [He1 Hn1]]]]]].
  rewrite E1.
  pose proof (round_nearest_even_le mrs1 num den1 (2 ^ (- e1)) Hb1 Hn1) as Hr.
  set (m2 := round_nearest_even (shr_m mrs1) (loc_of_shr_record mrs1)) in *.
  assert (Hb2 : between (shr_record_of_loc m2 loc_Exact) m2 1)
    by (apply between_exact; lia).
  destruct (shr_fexp_bound m2 e1 loc_Exact m2 1 Hb2 He1 ltac:(lia))
    as [mrs2 [e2 [den2 [E2 [Hb3 [He2 Hn2]]]]]].
  rewrite E2.
  destruct Hb3 as [Hden2 [Hm3 [Hv3 _]]].
  assert (Hm : shr_m mrs2 <= 2 ^ (- e2)) by nia.
  destruct (shr_m mrs2) as [|p|p]; try lia.
  - left. reflexivity.
  - right. assert (Z.leb e2 (B64.emax - B64.prec) = true) as ->
      by (apply Z.leb_le; unfold B64.emax, B64.prec; lia).
    exists p, e2. split; [reflexivity|].
    destruct (Z.eq_dec e2 (-52)) as [->|]; [right|left; lia].
    split; [reflexivity|]. exact Hm.
Qed.

End DivisionBound.

Section Division.

Open Scope Z_scope.

(** The exponent that a division chooses for its quotient. *)
Definition div_exponent (m1 : positive) (e1 : Z) (m2 : positive) (e2 : Z) : Z :=
  Z.min (fexp B64.prec B64.emax
           (Z.pos (digits2_pos m1) + e1 - (Z.pos (digits2_pos m2) + e2)))
        (e1 - e2).

(** The integer division inside [SFdiv]: quotient and remainder of the
    first mantissa, shifted, by the second. *)
Lemma div_core_spec (m1 : positive) (e1 : Z) (m2 : positive) (e2 : Z) :
  exists q r,
    SFdiv_core_binary B64.prec B64.emax (Z.pos m1) e1 (Z.pos m2) e2 =
      (q, div_exponent m1 e1 m2 e2, new_location (Z.pos m2) r) /\
    0 <= q /\ 0 <= r < Z.pos m2 /\
    q * Z.pos m2 + r = Z.pos m1 * 2 ^ (e1 - e2 - div_exponent m1 e1 m2 e2).
Proof.
  unfold SFdiv_core_binary. cbn [Zdigits2]. fold (div_exponent m1 e1 m2 e2).
  set (e' := div_exponent m1 e1 m2 e2).
  assert (Hs : 0 <= e1 - e2 - e') by (unfold e', div_exponent; lia).
  set (m' := match e1 - e2 - e' with
             | 0 => Z.pos m1
             | Z.pos _ => Z.shiftl (Z.pos m1) (e1 - e2 - e')
             | Z.neg _ => 0
             end).
  assert (Hm' : m' = Z.pos m1 * 2 ^ (e1 - e2 - e')).
  { unfold m'. destruct (e1 - e2 - e') as [|p|p] eqn:E.
    - simpl. lia.
    - rewrite Z.shiftl_mul_pow2 by lia. reflexivity.
    - lia. }
  pose proof (Z_div_mod m' (Z.pos m2) ltac:(lia)) as Hdm.
  destruct (Z.div_eucl m' (Z.pos m2)) as [q r].
  destruct Hdm as [Hq Hr].
  assert (0 < 2 ^ (e1 - e2 - e')) by (apply Z.pow_pos_nonneg; lia).
  exists q, r. split; [reflexivity|]. split; [nia|]. split; [lia|]. lia.
Qed.

Lemma canonical_digits (m : positive) (e : Z) :
  canonical_mantissa B64.prec B64.emax m e = true ->
  Z.pos (digits2_pos m) <= 53 /\ -1074 <= e /\
  (-1074 < e -> Z.pos (digits2_pos m) = 53).
Proof.
  unfold canonical_mantissa. intros H. apply Z.eqb_eq in H.
  rewrite fexp64_eq in H. lia.
Qed.

Lemma leb_finite (mx : positive) (ex : Z) (my : positive) (ey : Z) :
  SFleb (S754_finite false mx ex) (S754_finite false my ey) = true ->
  ex < ey \/ (ex = ey /\ Z.pos mx <= Z.pos my).
Proof.
  unfold SFleb, SFcompare.
  change (PosDef.Pos.compare_cont Eq mx my) with (Pos.compare mx my).
  destruct (Z.compare_spec ex ey) as [E|E|E]; [|lia|discriminate].
  destruct (Pos.compare_spec mx my) as [F|F|F]; try discriminate; lia.
Qed.

Lemma digits2_pos_mono (a b : positive) :
  Z.pos a <= Z.pos b -> Z.pos (digits2_pos a) <= Z.pos (digits2_pos b).
Proof.
  intros H. pose proof (digits2_pos_bounds a) as [Alo _].
  pose proof (digits2_pos_bounds b) as [_ Bhi].
  assert (Z.pos (digits2_pos a) - 1 < Z.pos (digits2_pos b)); [|lia].
  apply (Z.pow_lt_mono_r_iff 2); lia.
Qed.

(** A positive double divided by one that is not smaller is at most 1. *)
Lemma div_at_most_one (mx : positive) (ex : Z) (my : positive) (ey : Z) :
  canonical_mantissa B64.prec B64.emax mx ex = true ->
  canonical_mantissa B64.prec B64.emax my ey = true ->
  SFleb (S754_finite false mx ex) (S754_finite false my ey) = true ->
  at_most_one
    (SFdiv B64.prec B64.emax (S754_finite false mx ex) (S754_finite false my ey)).
Proof.
  intros Cx Cy Hle.
  destruct (canonical_digits mx ex Cx) as [Dx [Ex Nx]].
  destruct (canonical_digits my ey Cy) as [Dy [Ey Ny]].
  pose proof (digits2_pos_bounds mx) as [Xlo Xhi].
  pose proof (digits2_pos_bounds my) as [Ylo Yhi].
  apply leb_finite in Hle.
  unfold SFdiv.
  destruct (div_core_spec mx ex my ey) as [q [r [E [Hq [Hr Hqr]]]]].
  rewrite E. cbn [xorb].
  set (e' := div_exponent mx ex my ey) in *.
  assert (Hdelta : Z.pos (digits2_pos mx) + ex - (Z.pos (digits2_pos my) + ey) <= 0).
  { destruct Hle as [L|[-> L]].
    - rewrite Ny by lia. lia.
    - pose proof (digits2_pos_mono mx my L). lia. }
  assert (He' : e' <= -53).
  { unfold e', div_exponent. rewrite fexp64_eq. lia. }
  assert (Hs : 0 <= ex - ey - e').
  { unfold e', div_exponent. lia. }
  apply binary_round_aux_at_most_one with (num := q * Z.pos my + r)
                                          (den := Z.pos my).
  - apply new_location_between; assumption.
  - lia.
  - rewrite Hqr.
    assert (0 < 2 ^ (ex - ey - e')) by (apply Z.pow_pos_nonneg; lia).
    destruct Hle as [L|[-> L]].
    + replace (- e') with ((ey - ex) + (ex - ey - e')) by lia.
      rewrite Z.pow_add_r by lia.
      assert (Hmy : 2 ^ 52 <= Z.pos my).
      { rewrite Ny in Ylo by lia. exact Ylo. }
      assert (Hmx : Z.pos mx < 2 ^ 53).
      { apply Z.lt_le_trans with (2 ^ Z.pos (digits2_pos mx)); [exact Xhi|].
        apply Z.pow_le_mono_r; lia. }
      assert (2 ^ 1 <= 2 ^ (ey - ex)) by (apply Z.pow_le_mono_r; lia).
      change (2 ^ 1) with 2 in *. change (2 ^ 53) with (2 * 2 ^ 52) in Hmx.
      assert (Hxy : Z.pos mx <= 2 ^ (ey - ex) * Z.pos my) by nia.
      replace (2 ^ (ey - ex) * 2 ^ (ex - ey - e') * Z.pos my)
        with (2 ^ (ey - ex) * Z.pos my * 2 ^ (ex - ey - e')) by lia.
      apply Z.mul_le_mono_nonneg_r; lia.
    + replace (- e') with (ey - ey - e') by lia. nia.
Qed.

(** A double divided by itself is exactly 1. *)
Lemma div_self (m : positive) (e : Z) :
  SFdiv B64.prec B64.emax (S754_finite false m e) (S754_finite false m e) =
  B64.one.
Proof.
  unfold SFdiv.
  destruct (div_core_spec m e m e) as [q [r [E [Hq [Hr Hqr]]]]].
  rewrite E. cbn [xorb].
  assert (Hd : div_exponent m e m e = -53).
  { unfold div_exponent. rewrite fexp64_eq. lia. }
  rewrite Hd in *.
  replace (e - e - -53) with 53 in Hqr by lia.
  assert (Hq53 : q = 2 ^ 53).
  { rewrite (Z.div_unique (Z.pos m * 2 ^ 53) (Z.pos m) q r); [|lia|lia].
    rewrite Z.mul_comm, Z.div_mul by lia. reflexivity. }
  assert (r = 0) by lia. subst q r.
  unfold new_location. destruct (Z.even (Z.pos m)); reflexivity.
Qed.

End Division.

Section DivisionSign.

Open Scope Z_scope.

(** The result of rounding carries the sign it was given, and is not NaN. *)
Definition signed (s : bool) (z : spec_float) : Prop :=
  match z with
  | S754_zero s' | S754_infinity s' | S754_finite s' _ _ => s' = s
  | S754_nan => False
  end.

Lemma binary_round_aux_signed (s : bool) (q e : Z) (l : location) (num den : Z) :
  between (shr_record_of_loc q l) num den ->
  signed s (binary_round_aux B64.prec B64.emax s q e l).
Proof.
  intros Hb. unfold binary_round_aux, shr_fexp.
  destruct (between_shr _ e (fexp B64.prec B64.emax (Zdigits2 q + e) - e)
              num den Hb) as [Hb1 _].
  destruct (shr (shr_record_of_loc q l) e _) as [mrs1 e1]. cbn [fst] in Hb1.
  assert (Hr : 0 <= round_nearest_even (shr_m mrs1) (loc_of_shr_record mrs1)).
  { apply (round_nearest_even_le mrs1 num _ (shr_m mrs1 + 1) Hb1).
    destruct Hb1 as [_ [_ [Hv _]]]. lia. }
  set (m2 := round_nearest_even (shr_m mrs1) (loc_of_shr_record mrs1)) in *.
  destruct (between_shr _ e1 (fexp B64.prec B64.emax (Zdigits2 m2 + e1) - e1)
              m2 1 (between_exact m2 Hr)) as [Hb2 _].
  cbn [shr_record_of_loc].
  destruct (shr _ e1 _) as [mrs2 e2]. cbn [fst] in Hb2.
  destruct Hb2 as [_ [Hm _]].
  destruct (shr_m mrs2) as [|p|p]; try lia.
  - reflexivity.
  - destruct (Z.leb e2 (B64.emax - B64.prec)); reflexivity.
Qed.

Lemma div_signed (sx : bool) (mx : positive) (ex : Z) (sy : bool)
  (my : positive) (ey : Z) :
  signed (xorb sx sy)
    (SFdiv B64.prec B64.emax (S754_finite sx mx ex) (S754_finite sy my ey)).
Proof.
  unfold SFdiv.
  destruct (div_core_spec mx ex my ey) as [q [r [E [Hq [Hr Hqr]]]]].
  rewrite E.
  apply binary_round_aux_signed with (num := q * Z.pos my + r) (den := Z.pos my).
  apply new_location_between; assumption.
Qed.

End DivisionSign.


(** ** Normalising a curve by its maximum *)

Section Normalise.

Open Scope b64_scope.

(** At most 1.0 in the order of doubles, and 1.0 itself when equal to it. *)
Definition below_one (z : float) : Prop :=
  SFcompare z B64.one = Some Lt \/ z = B64.one.

Lemma compare_positive (m : positive) (e : Z) (m' : positive) (e' : Z) :
  SFcompare (S754_finite false m e) (S754_finite false m' e') =
  Some match Z.compare e e' with
       | Lt => Lt
       | Gt => Gt
       | Eq => Pos.compare m m'
       end.
Proof. reflexivity. Qed.

Lemma at_most_one_below (z : float) : at_most_one z -> below_one z.
Proof.
  intros [->|[m [e [-> H]]]]; [left; reflexivity|].
  unfold below_one, B64.one. rewrite compare_positive.
  destruct H as [H|[-> H]].
  - left. destruct (Z.compare_spec e (-52)%Z); try lia. reflexivity.
  - rewrite Z.compare_refl.
    destruct (Pos.compare_spec m 4503599627370496) as [F|F|F].
    + right. subst m. reflexivity.
    + left. reflexivity.
    + exfalso. change (2 ^ 52)%Z with (Z.pos 4503599627370496) in H. lia.
Qed.

Lemma signed_negative_below (z : float) : signed true z -> below_one z.
Proof.
  destruct z as [s|s| |s m e]; cbn [signed]; intros H; try contradiction;
    subst; left; reflexivity.
Qed.

Lemma below_one_number (z : float) : below_one z -> number z.
Proof. intros [H| ->]; [destruct z; try discriminate|]; reflexivity. Qed.

(** A number that is at most a positive finite double, divided by it. *)
Lemma div_by_max_below (v m : float) :
  B64.valid v = true -> B64.valid m = true -> number v ->
  B64.is_finite m = true -> (B64.of_Z 0 <? m) = true ->
  (v <=? m) = true ->
  below_one (v / m).
Proof.
  intros Vv Vm Nv Fm Pm Hle.
  destruct m as [sm|sm| |sm mm em]; try discriminate.
  destruct sm; try discriminate.
  unfold B64.valid, valid_binary, bounded in Vm.
  apply andb_true_iff in Vm. destruct Vm as [Cm _].
  destruct v as [sv|sv| |sv mv ev].
  - destruct sv; left; reflexivity.
  - destruct sv; [left; reflexivity | discriminate].
  - discriminate.
  - destruct sv.
    + apply signed_negative_below.
      apply (div_signed true mv ev false mm em).
    + unfold B64.valid, valid_binary, bounded in Vv.
      apply andb_true_iff in Vv. destruct Vv as [Cv _].
      apply at_most_one_below. apply div_at_most_one; assumption.
Qed.

End Normalise.

Section MaxFacts.

Open Scope b64_scope.

Lemma maximum_number (a b : float) :
  number a -> number b ->
  Np.maximum a b = (if a <? b then b else a).
Proof.
  unfold number, Np.maximum. intros -> ->. reflexivity.
Qed.

(** On numbers, the running maximum is one of them and bounds them all. *)
Lemma fold_maximum_spec (l : list float) :
  forall a, number a -> Forall number l ->
  let m := fold_left Np.maximum l a in
  In m (a :: l) /\ forall v, In v (a :: l) -> (v <=? m) = true.
Proof.
  induction l as [|b l IH]; intros a Ha Hl; cbn zeta.
  - simpl. split; [left; reflexivity|].
    intros v [<-|[]]. apply leb_refl. exact Ha.
  - inversion Hl as [|? ? Hb Hl']; subst. cbn [fold_left].
    assert (Hc : number (Np.maximum a b)).
    { rewrite maximum_number by assumption. destruct (a <? b); assumption. }
    destruct (IH (Np.maximum a b) Hc Hl') as [Hin Hle].
    assert (Hm : number (fold_left Np.maximum l (Np.maximum a b))).
    { destruct Hin as [<-|Hin]; [exact Hc|].
      rewrite Forall_forall in Hl'. auto. }
    assert (Hac : (a <=? Np.maximum a b) = true /\ (b <=? Np.maximum a b) = true).
    { rewrite maximum_number by assumption. destruct (a <? b) eqn:E.
      - split; [apply ltb_leb; assumption | apply leb_refl; assumption].
      - split; [apply leb_refl; assumption|].
        apply (@leb_rank b a Hb Ha).
        intros F. apply (@ltb_rank a b Ha Hb) in F. congruence. }
    destruct Hac as [Hac Hbc].
    assert (Hcm : (Np.maximum a b <=? fold_left Np.maximum l (Np.maximum a b)) = true)
      by (apply Hle; left; reflexivity).
    split.
    + destruct Hin as [Hin|Hin]; [|right; right; exact Hin].
      rewrite <- Hin at 1. rewrite maximum_number by assumption.
      destruct (a <? b); [right; left | left]; reflexivity.
    + intros v [<-|[<-|Hv]].
      * apply (leb_trans a (Np.maximum a b)); auto.
      * apply (leb_trans b (Np.maximum a b)); auto.
      * apply Hle. right. exact Hv.
Qed.

Lemma max_spec (l : list float) (m : float) :
  Forall number l -> Np.max l = Ok m ->
  In m l /\ forall v, In v l -> (v <=? m) = true.
Proof.
  intros Hl H. destruct l as [|a l]; [discriminate|].
  injection H as <-. inversion Hl; subst.
  apply (fold_maximum_spec l a); assumption.
Qed.

End MaxFacts.

Section NormaliseCurve.

Open Scope b64_scope.

(** The curve that [_plot_chn_csf] draws after [a /= a.max()]: for a curve
    of binary64 numbers whose maximum is finite and positive, the division
    succeeds, keeps the length, and the maximum of the result is exactly
    1.0.  No other entry exceeds it: the quotient of two doubles is rounded,
    but never above 1.0 when the numerator is not the larger one. *)
Theorem divide_by_max_is_one (a : list float) (m : float) :
  Forall (fun v => B64.valid v = true) a -> Forall number a ->
  Np.max a = Ok m -> B64.is_finite m = true -> (B64.of_Z 0 <? m) = true ->
  exists n,
    divide_by_max a = Ok n /\
    List.length n = List.length a /\
    Np.max n = Ok B64.one /\
    forall v, In v n -> (v <=? B64.one) = true.
Proof.
  intros Hvalid Hnum Hmax Hfin Hpos.
  destruct (max_spec a m Hnum Hmax) as [Hin Hle].
  rewrite Forall_forall in Hvalid, Hnum.
  exists (map (fun x => x / m) a). unfold divide_by_max. rewrite Hmax.
  split; [reflexivity|]. split; [apply length_map|].
  assert (Hbelow : forall v, In v (map (fun x => x / m) a) -> below_one v).
  { intros v Hv. apply in_map_iff in Hv. destruct Hv as [x [<- Hx]].
    apply div_by_max_below; auto. }
  assert (Hone : In B64.one (map (fun x => x / m) a)).
  { apply in_map_iff. exists m. split; [|exact Hin].
    destruct m as [sm|sm| |sm mm em]; try discriminate.
    destruct sm; try discriminate. apply div_self. }
  assert (Hnum' : Forall number (map (fun x => x / m) a)).
  { apply Forall_forall. intros v Hv. apply below_one_number. auto. }
  assert (Hle1 : forall v, In v (map (fun x => x / m) a) ->
                   (v <=? B64.one) = true).
  { intros v Hv. destruct (Hbelow v Hv) as [H| ->]; [|reflexivity].
    unfold B64.leb, SFleb. rewrite H. reflexivity. }
  split; [|exact Hle1].
  destruct (map (fun x => x / m) a) as [|z zs] eqn:En; [destruct Hone|].
  cbn [Np.max].
  destruct (max_spec (z :: zs) (fold_left Np.maximum zs z) Hnum' eq_refl)
    as [Hrin Hrle].
  f_equal.
  destruct (Hbelow _ Hrin) as [H|H]; [|exact H].
  exfalso. pose proof (Hrle B64.one Hone) as Hc.
  assert (Hr : number (fold_left Np.maximum zs z))
    by (apply below_one_number; auto).
  apply leb_ltb_false in Hc; [|reflexivity|exact Hr].
  unfold B64.ltb, SFltb in Hc. rewrite H in Hc. discriminate.
Qed.

Lemma divide_by_max_is_one_witness :
  exists n,
    divide_by_max scenario_sens = Ok n /\
    List.length n = List.length scenario_sens /\
    Np.max n = Ok B64.one /\
    forall v, In v n -> (v <=? B64.one) = true.
Proof.
  apply (divide_by_max_is_one scenario_sens (B64.of_Z 20)).
  - repeat constructor.
  - repeat constructor.
  - reflexivity.
  - reflexivity.
  - reflexivity.
Defined.

End NormaliseCurve.

(** * Further properties of the pipeline *)

(** ** Failures of the extraction *)

Section ExtractionFailures.

Open Scope b64_scope.

(** A loop whose turns fail with one exception only fails with it as soon
    as one turn fails. *)
Lemma for_each_raises {A B : Type} (f : A -> result B) (e : exn) (l : list A) :
  (forall a e', In a l -> f a = Raise e' -> e' = e) ->
  (exists a, In a l /\ f a = Raise e) ->
  for_each f l = Raise e.
Proof.
  induction l as [|a l IH]; intros Hall [x [Hin Hx]]; [destruct Hin|].
  cbn [for_each]. destruct (f a) as [b|e'] eqn:Ea.
  - cbn [bind]. rewrite IH; [reflexivity | |].
    + intros a' e' Ha' H'. apply (Hall a' e'); [right|]; assumption.
    + destruct Hin as [->|Hin]; [congruence|]. exists x. split; assumption.
  - cbn [bind]. f_equal. apply (Hall a e'); [left; reflexivity | exact Ea].
Qed.

Lemma last_item_raises {A : Type} (l : list A) (e : exn) :
  last_item l = Raise e -> e = IndexError.
Proof.
  induction l as [|a l IH]; [intros [= <-]; reflexivity|].
  destruct l as [|b l]; [discriminate|]. exact IH.
Qed.

Lemma rows_of_nan_wave (result_mat : matrix) (w : float) :
  B64.is_nan w = true -> rows_of_wave result_mat w = [].
Proof.
  intros Hw. unfold rows_of_wave.
  induction result_mat as [|r rest IH]; [reflexivity|].
  cbn [filter]. rewrite (@eqb_nan_r (wave_of r) w Hw). exact IH.
Qed.

(** A trial matrix with a NaN in its wave column makes
    [_extract_sensitivity] raise [IndexError], whatever its other rows
    are: the NaN is one of the unique waves, and no row compares equal to
    it. *)
Theorem extract_sensitivity_nan_raises (result_mat : matrix) :
  (exists r, In r result_mat /\ B64.is_nan (wave_of r) = true) ->
  _extract_sensitivity result_mat = Raise IndexError.
Proof.
  intros [r [Hr Hnan]]. unfold _extract_sensitivity.
  apply for_each_raises.
  - intros w e' _ H.
    destruct (last_item (rows_of_wave result_mat w)) as [x|e0] eqn:E;
      cbn [bind] in H; [discriminate|].
    injection H as <-. apply (last_item_raises _ _ E).
  - destruct (@unique_covers (wave_of r) (map wave_of result_mat))
      as [u [Hu Hrank]]; [apply in_map; exact Hr|].
    exists u. split; [exact Hu|].
    assert (Hunan : B64.is_nan u = true).
    { apply nan_rank. rewrite <- Hrank. apply nan_rank. exact Hnan. }
    rewrite (rows_of_nan_wave result_mat u Hunan). reflexivity.
Qed.

Lemma extract_sensitivity_nan_raises_witness :
  _extract_sensitivity
    (scenario_matrix ++
     [Row (B64.lit 1 10) S754_nan (B64.of_Z 0) (B64.of_Z 0) (B64.of_Z 0)])
  = Raise IndexError.
Proof.
  apply extract_sensitivity_nan_raises.
  exists (Row (B64.lit 1 10) S754_nan (B64.of_Z 0) (B64.of_Z 0) (B64.of_Z 0)).
  split; [|reflexivity].
  apply in_or_app. right. left. reflexivity.
Defined.

(** An empty trial matrix has no sample point to interpolate from:
    [_extract_data] raises [ValueError], for every target size below
    [2 ^ 52] in absolute value. *)
Theorem extract_data_empty (target_size : Z) :
  (- 2 ^ 52 < target_size < 2 ^ 52)%Z ->
  _extract_data [] target_size = Raise ValueError.
Proof.
  intros HT.
  destruct (int_truediv_two target_size) as [half Hh]; [lia|].
  unfold _extract_data, wave2sf, uniform_sfs.
  cbn [map Np.unique Np.sort fold_right Np.dedup _extract_sensitivity].
  rewrite Hh. cbn [for_each bind].
  unfold Np.arange.
  destruct (B64.ceil _) as [len|]; reflexivity.
Qed.

Lemma extract_data_empty_witness : _extract_data [] 224 = Raise ValueError.
Proof. apply extract_data_empty. lia. Defined.

Lemma wave2sf_length (wave : list num) (target_size : Z) (sfs : list flt) :
  wave2sf wave target_size = Ok sfs -> List.length sfs = List.length wave.
Proof.
  unfold wave2sf. destruct (int_truediv target_size 2); cbn [bind];
    [|discriminate].
  apply for_each_length.
Qed.

(** The arrays of a summary fit together: one frequency and one
    sensitivity per unique wave, and one interpolated frequency per
    interpolated sensitivity; for a target size between 1 and [2 ^ 52]
    the interpolated curve has [target_size - 1] points. *)
Theorem extract_data_lengths (result_mat : matrix) (target_size : Z)
  (d : data_summary_t) :
  _extract_data result_mat target_size = Ok d ->
  List.length (up_sf (unique_params d))
    = List.length (up_wave (unique_params d)) /\
  List.length (sens_all (sensitivities d))
    = List.length (up_wave (unique_params d)) /\
  List.length (up_sf_int (unique_params d))
    = List.length (sens_all_int (sensitivities d)) /\
  ((0 < target_size < 2 ^ 52)%Z ->
   List.length (sens_all_int (sensitivities d))
     = (Z.to_nat target_size - 1)%nat).
Proof.
  unfold _extract_data. intros H.
  destruct (wave2sf (map np (Np.unique (map wave_of result_mat))) target_size)
    as [sfs|] eqn:Hsf; cbn [bind] in H; [|discriminate].
  destruct (_extract_sensitivity result_mat) as [all|] eqn:Hall;
    cbn [bind] in H; [|discriminate].
  destruct (uniform_sfs (Np.unique (map wave_of result_mat)) all target_size)
    as [[xs ys]|] eqn:Hu; cbn [bind] in H; [|discriminate].
  destruct (wave2sf (map np xs) target_size) as [sfs_int|] eqn:Hsfi;
    cbn [bind] in H; [|discriminate].
  injection H as <-. cbn [unique_params sensitivities up_wave up_sf up_sf_int
                          sens_all sens_all_int].
  apply wave2sf_length in Hsf, Hsfi. rewrite length_map in Hsf, Hsfi.
  unfold halve, np_array. rewrite !length_map.
  unfold _extract_sensitivity in Hall. apply for_each_length in Hall.
  unfold uniform_sfs in Hu.
  destruct (int_truediv target_size 2) as [half|] eqn:Hh; cbn [bind] in Hu;
    [|discriminate].
  destruct (Np.arange B64.one _ B64.half) as [es|] eqn:Ha; cbn [bind] in Hu;
    [|discriminate].
  destruct (Np.interp _ _ all) as [new_ys|] eqn:Hi; cbn [bind] in Hu;
    [|discriminate].
  injection Hu as <- <-.
  assert (Hlen : List.length new_ys = List.length es).
  { unfold Np.interp in Hi.
    destruct (Nat.eqb _ _); [|discriminate].
    destruct (Np.unique (map wave_of result_mat)); [discriminate|].
    apply for_each_length in Hi. rewrite Hi. apply length_map. }
  rewrite length_map in Hsfi.
  repeat split; auto; try congruence.
  intros HT. rewrite half_of_int in Hh by lia. injection Hh as <-.
  rewrite arange_half_steps in Ha by exact HT.
  injection Ha as <-. rewrite Hlen. unfold half_steps.
  rewrite length_map, length_seq. reflexivity.
Qed.

Lemma extract_data_lengths_witness :
  List.length (up_sf (unique_params scenario_summary))
    = List.length (up_wave (unique_params scenario_summary)) /\
  List.length (sens_all (sensitivities scenario_summary))
    = List.length (up_wave (unique_params scenario_summary)) /\
  List.length (up_sf_int (unique_params scenario_summary))
    = List.length (sens_all_int (sensitivities scenario_summary)) /\
  ((0 < 4 < 2 ^ 52)%Z ->
   List.length (sens_all_int (sensitivities scenario_summary))
     = (Z.to_nat 4 - 1)%nat).
Proof.
  apply (extract_data_lengths scenario_matrix 4 scenario_summary).
  vm_compute. reflexivity.
Defined.

End ExtractionFailures.

(** ** Paths *)

Section PathFacts.

Open Scope string_scope.

Fixpoint has_slash (s : string) : bool :=
  match s with
  | EmptyString => false
  | String c s' => Ascii.eqb c slash || has_slash s'
  end.

Lemma append_assoc (s t u : string) : (s ++ t) ++ u = s ++ (t ++ u).
Proof. induction s as [|c s IH]; simpl; congruence. Qed.

Lemma split_not_nil (sep : ascii) (s : string) : split sep s <> [].
Proof.
  destruct s as [|c s]; cbn [split]; [discriminate|].
  destruct (Ascii.eqb c sep); [discriminate|].
  destruct (split sep s); discriminate.
Qed.

(** Splitting at a separator splits both sides of it. *)
Lemma split_append (sep : ascii) (s t : string) :
  split sep (s ++ String sep t) = (split sep s ++ split sep t)%list.
Proof.
  induction s as [|c s IH].
  - cbn [append split]. rewrite Ascii.eqb_refl. reflexivity.
  - cbn [append split]. rewrite IH.
    destruct (Ascii.eqb c sep); [reflexivity|].
    pose proof (split_not_nil sep s) as Hne.
    destruct (split sep s) as [|piece pieces]; [congruence|]. reflexivity.
Qed.

Lemma split_no_slash (s : string) :
  has_slash s = false -> split slash s = [s].
Proof.
  induction s as [|c s IH]; cbn [has_slash split]; [reflexivity|].
  intros H. apply orb_false_iff in H. destruct H as [Hc Hs].
  rewrite Hc, (IH Hs). reflexivity.
Qed.

Lemma from_end_last {A : Type} (l : list A) (a : A) :
  from_end (l ++ [a]) 1 = Ok a.
Proof. unfold from_end. rewrite rev_app_distr. reflexivity. Qed.

Lemma from_end_second {A : Type} (l : list A) (a b : A) :
  from_end (l ++ [a; b]) 2 = Ok a.
Proof. unfold from_end. rewrite rev_app_distr. reflexivity. Qed.

(** The loader recovers the names it globbed: the last but one piece of
    the path of a channel directory is the name of the directory, and the
    last piece of the path of a file is the name of the file. *)
Theorem path_pieces (path name : string) :
  has_slash name = false ->
  from_end (split slash (path ++ "/" ++ name ++ "/")) 2 = Ok name /\
  from_end (split slash (path ++ "/" ++ name)) 1 = Ok name.
Proof.
  intros H. split.
  - change (path ++ "/" ++ name ++ "/")
      with (path ++ String slash (name ++ String slash "")).
    rewrite !split_append, (split_no_slash name H). cbn [split].
    apply from_end_second.
  - change (path ++ "/" ++ name) with (path ++ String slash name).
    rewrite split_append, (split_no_slash name H).
    apply from_end_last.
Qed.

Lemma path_pieces_witness :
  from_end (split slash ("runs/net" ++ "/" ++ "lum" ++ "/")) 2 = Ok "lum" /\
  from_end (split slash ("runs/net" ++ "/" ++ "lum")) 1 = Ok "lum".
Proof. apply path_pieces. reflexivity. Defined.

(** Every path that ends with a slash has a last but one piece. *)
Lemma from_end_slash (s : string) :
  exists k, from_end (split slash (s ++ "/")) 2 = Ok k.
Proof.
  change (s ++ "/") with (s ++ String slash "").
  rewrite split_append. cbn [split].
  pose proof (split_not_nil slash s) as Hne.
  destruct (exists_last Hne) as [l [a ->]].
  exists a. rewrite <- app_assoc. apply from_end_second.
Qed.

End PathFacts.

(** ** The loader, directory by directory *)

Section LoaderByName.

Open Scope string_scope.

(** The entries that [glob] matches against ['*.csv']. *)
Definition csv_file (e : string * node) : bool :=
  negb (hidden (fst e)) && ends_with ".csv" (fst e).

Lemma compare_append (p a b : string) :
  String.compare (p ++ a) (p ++ b) = String.compare a b.
Proof.
  induction p as [|c p IH]; [reflexivity|].
  cbn [append String.compare].
  assert (Ascii.compare c c = Eq) as ->; [|exact IH].
  pose proof (Ascii.compare_antisym c c) as H.
  destruct (Ascii.compare c c); try reflexivity; discriminate.
Qed.

Lemma leb_append (p a b : string) :
  String.leb (p ++ a) (p ++ b) = String.leb a b.
Proof. unfold String.leb. rewrite compare_append. reflexivity. Qed.

Lemma insert_by_map {A B : Type} (key : A -> string) (key' : B -> string)
  (g : A -> B) (x : A) (l : list A) :
  (forall a b, String.leb (key' (g a)) (key' (g b)) = String.leb (key a) (key b)) ->
  insert_by key' (g x) (map g l) = map g (insert_by key x l).
Proof.
  intros H. induction l as [|y l IH]; [reflexivity|].
  cbn [map insert_by]. rewrite H.
  destruct (String.leb (key x) (key y)); cbn [map]; [reflexivity|].
  rewrite IH. reflexivity.
Qed.

Lemma sorted_by_map {A B : Type} (key : A -> string) (key' : B -> string)
  (g : A -> B) (l : list A) :
  (forall a b, String.leb (key' (g a)) (key' (g b)) = String.leb (key a) (key b)) ->
  sorted_by key' (map g l) = map g (sorted_by key l).
Proof.
  intros H. induction l as [|x l IH]; [reflexivity|].
  unfold sorted_by in *. cbn [map fold_right]. rewrite IH.
  apply insert_by_map. exact H.
Qed.

Lemma glob_csv_filter (chns_dir : string) (entries : list (string * node)) :
  glob_csv chns_dir entries =
  map (fun e => (chns_dir ++ fst e, snd e)) (filter csv_file entries).
Proof.
  unfold glob_csv. induction entries as [|[name n] entries IH]; [reflexivity|].
  cbn [flat_map filter]. unfold csv_file at 1. cbn [fst snd].
  destruct (negb (hidden name) && ends_with ".csv" name); cbn [map app];
    rewrite IH; reflexivity.
Qed.

Lemma for_each_map_arg {A B C : Type} (f : B -> result C) (g : A -> B)
  (l : list A) :
  for_each f (map g l) = for_each (fun a => f (g a)) l.
Proof.
  induction l as [|a l IH]; [reflexivity|].
  cbn [map for_each]. rewrite IH. reflexivity.
Qed.

Lemma for_each_ext_in {A B : Type} (f g : A -> result B) (l : list A) :
  (forall a, In a l -> f a = g a) -> for_each f l = for_each g l.
Proof.
  induction l as [|a l IH]; intros H; [reflexivity|].
  cbn [for_each]. rewrite (H a) by (left; reflexivity).
  rewrite IH; [reflexivity|]. intros b Hb. apply H. right. exact Hb.
Qed.

(** What the loader makes of one channel directory whose path holds no
    pattern character of [glob]: its visible .csv entries in the order of
    their names, each loaded and labelled by [_area_name_from_path] of its
    own name.  The name of the directory, and of the directories above it,
    plays no part in the label. *)
Theorem load_channel_by_name (dir : string) (entries : list (string * node)) :
  magic dir = false ->
  (forall e, In e entries -> has_slash (fst e) = false) ->
  load_channel (dir ++ "/") entries =
  for_each
    (fun e => mat <- loadtxt (snd e) ;;
              Ok (mat, _area_name_from_path (fst e)))
    (sorted_by fst (filter csv_file entries)).
Proof.
  intros _ Hnames. unfold load_channel.
  rewrite glob_csv_filter.
  rewrite (sorted_by_map fst fst (fun e => ((dir ++ "/") ++ fst e, snd e)))
    by (intros a b; apply leb_append).
  rewrite for_each_map_arg. apply for_each_ext_in.
  intros [name n] Hin. cbn [fst snd].
  apply sorted_by_In in Hin. apply filter_In in Hin. destruct Hin as [Hin _].
  rewrite append_assoc.
  destruct (path_pieces dir name (Hnames _ Hin)) as [_ ->].
  reflexivity.
Qed.

Lemma load_channel_by_name_witness :
  load_channel ("root/lum" ++ "/")
    [("b_area1.csv", File (Ok [])); ("notes.txt", Folder);
     ("a_area3.csv", File (Ok []))] =
  for_each
    (fun e => mat <- loadtxt (snd e) ;;
              Ok (mat, _area_name_from_path (fst e)))
    (sorted_by fst
       (filter csv_file
          [("b_area1.csv", File (Ok [])); ("notes.txt", Folder);
           ("a_area3.csv", File (Ok []))])).
Proof.
  apply load_channel_by_name; [reflexivity|].
  intros e He. cbn [In] in He.
  repeat (destruct He as [<-|He]; [reflexivity|]). destruct He.
Defined.

End LoaderByName.

(** ** Failing files and filtered channels *)

Section LoaderFailures.

Open Scope string_scope.

Lemma for_each_some_raise {A B : Type} (f : A -> result B) (l : list A) :
  (exists a e, In a l /\ f a = Raise e) -> exists e, for_each f l = Raise e.
Proof.
  induction l as [|a l IH]; intros [x [e [Hin Hx]]]; [destruct Hin|].
  cbn [for_each]. destruct (f a) as [b|e'] eqn:Ea; cbn [bind]; [|eauto].
  destruct IH as [e0 H0].
  - destruct Hin as [->|Hin]; [congruence|]. eauto.
  - rewrite H0. cbn [bind]. eauto.
Qed.

Definition allowed_by (chns : option (list string)) (name : string) : Prop :=
  forall allowed, chns = Some allowed -> In name allowed.

Lemma load_dirs_raises (chns : option (list string)) (chns_dir name : string)
  (entries : list (string * node)) :
  chn_name_of chns_dir = Ok name -> allowed_by chns name ->
  (exists e, load_channel chns_dir entries = Raise e) ->
  forall dirs d, In (chns_dir, entries) dirs ->
  exists e, load_dirs dirs chns d = Raise e.
Proof.
  intros Hname Hallow [e He].
  induction dirs as [|[c0 es0] dirs IH]; intros d Hin; [destruct Hin|].
  cbn [load_dirs]. fold (chn_name_of c0).
  destruct Hin as [Heq|Hin].
  - injection Heq as -> ->. rewrite Hname. cbn [bind].
    assert (Hskip : match chns with
                    | Some allowed => negb (existsb (String.eqb name) allowed)
                    | None => false
                    end = false).
    { destruct chns as [allowed|]; [|reflexivity].
      apply negb_false_iff. apply existsb_exists. exists name.
      split; [apply Hallow; reflexivity | apply String.eqb_refl]. }
    rewrite Hskip, He. cbn [bind]. eauto.
  - destruct (chn_name_of c0) as [k|e0]; cbn [bind]; [|eauto].
    destruct (match chns with Some _ => _ | None => _ end); [apply IH; exact Hin|].
    destruct (load_channel c0 es0) as [res|e1]; cbn [bind]; [|eauto].
    destruct (Nat.ltb 0 (List.length res)); apply IH; exact Hin.
Qed.

(** One file that [np.loadtxt] rejects, among the .csv files of a channel
    that the filter lets through, makes the whole loader fail: no result is
    returned for the other files or the other channels.  The path of the
    root and the name of the channel hold no pattern character of [glob],
    so that the files of the channel are the ones that [glob] finds. *)
Theorem load_network_results_fails_fast (root : list (string * root_node))
  (path : string) (chns : option (list string)) (name : string)
  (entries : list (string * node)) (file : string * node) (e : exn) :
  magic path = false -> magic name = false ->
  In (name, Dir entries) root -> hidden name = false ->
  has_slash name = false -> allowed_by chns name ->
  In file entries -> csv_file file = true -> loadtxt (snd file) = Raise e ->
  exists e', _load_network_results root path chns = Raise e'.
Proof.
  intros _ _ Hroot Hvis Hname Hallow Hfile Hcsv Hload.
  unfold _load_network_results.
  apply (load_dirs_raises chns (path ++ "/" ++ name ++ "/") name entries).
  - unfold chn_name_of. apply path_pieces. exact Hname.
  - exact Hallow.
  - unfold load_channel. apply for_each_some_raise.
    exists ((path ++ "/" ++ name ++ "/") ++ fst file, snd file).
    assert (Hin : In ((path ++ "/" ++ name ++ "/") ++ fst file, snd file)
                     (sorted_by fst (glob_csv (path ++ "/" ++ name ++ "/") entries))).
    { apply sorted_by_In. rewrite glob_csv_filter.
      apply (in_map (fun x => ((path ++ "/" ++ name ++ "/") ++ fst x, snd x))).
      apply filter_In. split; assumption. }
    destruct (from_end (split slash ((path ++ "/" ++ name ++ "/") ++ fst file)) 1)
      as [fname|e0] eqn:Ef.
    + exists e. split; [exact Hin|]. cbv beta iota. cbn [bind].
      rewrite Hload. reflexivity.
    + exists e0. split; [exact Hin|]. reflexivity.
  - apply sorted_by_In. apply glob_dirs_In. exists name. auto.
Qed.

Lemma load_network_results_fails_fast_witness :
  exists e',
    _load_network_results
      [ ("lum", Dir [("good.csv", File (Ok []))]);
        ("rg", Dir [("bad.csv", File (Raise ValueError))]) ]
      "root" None = Raise e'.
Proof.
  apply (load_network_results_fails_fast _ "root" None "rg"
           [("bad.csv", File (Raise ValueError))]
           ("bad.csv", File (Raise ValueError)) ValueError).
  - reflexivity.
  - reflexivity.
  - right. left. reflexivity.
  - reflexivity.
  - reflexivity.
  - intros allowed H. discriminate.
  - left. reflexivity.
  - reflexivity.
  - reflexivity.
Defined.





End LoaderFailures.

(** ** What a call of [_plot_chn_csf] draws *)

Section PlotShape.

Open Scope string_scope.

Variable csf : float -> string -> float.
Variable pearsonr : list float -> list float -> result (float * float).

(** The change of one axes object by one turn of the loop: the title is
    the area label of the test; the axis labels and the legend are set;
    the reference curve, if a model is named, and then the curve of the
    channel are added after the lines that were there. *)
Definition drawn (chn_name : string) (kw : plot_kwargs)
  (test : data_summary_t * option string) (before after : axes_t) : Prop :=
  ax_title after = Some (snd test) /\
  ax_legend after = true /\
  ax_xlabel after = Some "Spatial Frequency (Cycle/Image)" /\
  ax_ylabel after = Some "Sensitivity (1/Contrast)" /\
  ax_xscale after = (if log_axis kw then Some "log" else ax_xscale before) /\
  exists reference curve,
    ax_lines after = (ax_lines before ++ reference ++ [curve])%list /\
    List.length reference
      = match model_name kw with Some _ => 1%nat | None => 0%nat end /\
    Forall (fun l => ln_label l = {| lbl_text := "human"; lbl_scores := None |} /\
                     ln_xs l = up_sf (unique_params (fst test)))
           reference /\
    ln_xs curve = up_sf (unique_params (fst test)) /\
    List.length (ln_ys curve)
      = List.length (sens_all (sensitivities (fst test))) /\
    lbl_text (ln_label curve) = fst (_chn_plot_params chn_name) /\
    ln_kwargs curve = snd (_chn_plot_params chn_name) /\
    (model_name kw = None -> lbl_scores (ln_label curve) = None).

Lemma divide_by_max_length (a n : list float) :
  divide_by_max a = Ok n -> List.length n = List.length a.
Proof.
  unfold divide_by_max. destruct (Np.max a); cbn [bind]; [|discriminate].
  intros [= <-]. apply length_map.
Qed.

Lemma plot_test_shape (chn_name : string) (kw : plot_kwargs) (fig fig' : figure_t)
  (i : nat) (test : data_summary_t * option string) :
  plot_test csf pearsonr chn_name kw fig i test = Ok fig' ->
  fig_size fig' = fig_size fig /\
  exists before after,
    drawn chn_name kw test before after /\
    match old_fig kw with
    | Some _ =>
        nth_error (fig_axes fig) i = Some before /\
        fig_axes fig' = set_nth (fig_axes fig) i after
    | None =>
        before = new_axes /\
        fig_axes fig' =
          set_nth (fig_axes fig ++ [new_axes])
                  (List.length (fig_axes fig ++ [new_axes]) - 1) after
    end.
Proof.
  unfold plot_test. intros H.
  set (org_freqs := up_sf (unique_params (fst test))) in *.
  set (org_yvals := sens_all (sensitivities (fst test))) in *.
  assert (Hshape : exists before fig0 k,
            (match old_fig kw with
             | Some _ => match nth_error (fig_axes fig) i with
                         | Some ax => Ok (fig, ax)
                         | None => Raise IndexError
                         end
             | None => Ok ({| fig_size := fig_size fig;
                              fig_axes := fig_axes fig ++ [new_axes] |},
                           new_axes)
             end) = Ok (fig0, before) /\
            k = match old_fig kw with
                | Some _ => i
                | None => (List.length (fig_axes fig0) - 1)%nat
                end /\
            fig_size fig0 = fig_size fig /\
            match old_fig kw with
            | Some _ => nth_error (fig_axes fig) i = Some before /\
                        fig_axes fig0 = fig_axes fig
            | None => before = new_axes /\
                      fig_axes fig0 = (fig_axes fig ++ [new_axes])%list
            end).
  { destruct (old_fig kw).
    - destruct (nth_error (fig_axes fig) i) as [ax|] eqn:E;
        [|cbn [bind] in H; discriminate].
      exists ax, fig, i. repeat split; reflexivity.
    - eexists _, _, _. repeat split; reflexivity. }
  destruct Hshape as [before [fig0 [k [E0 [Hk [Hsize Hax]]]]]].
  rewrite E0 in H. cbn [bind] in H. rewrite <- Hk in H.
  destruct (_chn_plot_params chn_name) as [label params] eqn:Ep.
  destruct (if normalise kw then divide_by_max org_yvals else Ok org_yvals)
    as [ys|] eqn:En; cbn [bind] in H; [|discriminate].
  assert (Hys : List.length ys = List.length org_yvals).
  { destruct (normalise kw); [apply divide_by_max_length; exact En|].
    injection En as <-. reflexivity. }
  destruct (model_name kw) as [name|] eqn:Em.
  - destruct (divide_by_max (map (fun f => csf f name) org_freqs)) as [hcsf|];
      cbn [bind] in H; [|discriminate].
    destruct (Np.max ys) as [top|]; cbn [bind] in H; [|discriminate].
    destruct (compare_reference csf pearsonr name (fst test)) as [scores|];
      cbn [bind] in H; [|discriminate].
    injection H as <-. cbn [fig_size fig_axes]. split; [exact Hsize|].
    eexists before, _. split.
    2: { destruct (old_fig kw); destruct Hax as [Hb Hf]; rewrite Hf in *;
         split; auto; subst k; reflexivity. }
    unfold drawn. rewrite Em, Ep.
    destruct (log_axis kw); cbn [ax_title ax_legend ax_xlabel ax_ylabel
      ax_xscale ax_lines legend set_xscale set_ylabel set_xlabel plot set_title];
      (repeat (split; [reflexivity|]));
      (eexists [_], _; split; [rewrite <- app_assoc; reflexivity|]);
      cbn [ln_xs ln_ys ln_label ln_kwargs lbl_text lbl_scores List.length fst snd];
      repeat split; auto; try discriminate; repeat constructor.
  - injection H as <-. cbn [fig_size fig_axes]. split; [exact Hsize|].
    eexists before, _. split.
    2: { destruct (old_fig kw); destruct Hax as [Hb Hf]; rewrite Hf in *;
         split; auto; subst k; reflexivity. }
    unfold drawn. rewrite Em, Ep.
    destruct (log_axis kw); cbn [ax_title ax_legend ax_xlabel ax_ylabel
      ax_xscale ax_lines legend set_xscale set_ylabel set_xlabel plot set_title];
      (repeat (split; [reflexivity|]));
      (eexists [], _; split; [reflexivity|]);
      cbn [ln_xs ln_ys ln_label ln_kwargs lbl_text lbl_scores List.length fst snd];
      repeat split; auto; repeat constructor.
Qed.

End PlotShape.

Section PlotChannel.

Open Scope string_scope.

Variable csf : float -> string -> float.
Variable pearsonr : list float -> list float -> result (float * float).

Lemma set_nth_length {A : Type} (l : list A) (i : nat) (a : A) :
  List.length (set_nth l i a) = List.length l.
Proof.
  revert i. induction l as [|b l IH]; intros [|i]; cbn [set_nth List.length];
    try reflexivity.
  rewrite IH. reflexivity.
Qed.

Lemma set_nth_middle {A : Type} (done pending : list A) (a b : A) :
  set_nth (done ++ b :: pending) (List.length done) a = (done ++ a :: pending)%list.
Proof.
  induction done as [|c done IH]; [reflexivity|].
  cbn [app List.length set_nth]. rewrite IH. reflexivity.
Qed.

Lemma nth_error_middle {A : Type} (done pending : list A) :
  nth_error (done ++ pending) (List.length done) = nth_error pending 0.
Proof.
  induction done as [|c done IH]; [reflexivity|]. exact IH.
Qed.

(** The loop on a figure of its own: every test appends its axes. *)
Lemma plot_tests_fresh (chn_name : string) (kw : plot_kwargs)
  (tests : chn_summary_t) :
  old_fig kw = None ->
  forall (i : nat) (fig fig' : figure_t),
  plot_tests csf pearsonr chn_name kw fig i tests = Ok fig' ->
  fig_size fig' = fig_size fig /\
  exists news,
    fig_axes fig' = (fig_axes fig ++ news)%list /\
    Forall2 (fun test ax => drawn chn_name kw test new_axes ax) tests news.
Proof.
  intros Hold. induction tests as [|t tests IH]; intros i fig fig' H.
  - injection H as <-. split; [reflexivity|]. exists [].
    split; [rewrite app_nil_r; reflexivity | constructor].
  - cbn [plot_tests] in H.
    destruct (plot_test csf pearsonr chn_name kw fig i t) as [fig1|] eqn:E1;
      cbn [bind] in H; [|discriminate].
    apply plot_test_shape in E1. destruct E1 as [Hsize [b [a [Hd Hax]]]].
    rewrite Hold in Hax. destruct Hax as [-> Hax].
    rewrite length_app in Hax. cbn [List.length] in Hax.
    replace (List.length (fig_axes fig) + 1 - 1)%nat
      with (List.length (fig_axes fig)) in Hax by lia.
    rewrite set_nth_middle in Hax.
    destruct (IH (S i) fig1 fig' H) as [Hsize' [news [Hax' Hall]]].
    split; [congruence|]. exists (a :: news). split.
    + rewrite Hax', Hax, <- app_assoc. reflexivity.
    + constructor; assumption.
Qed.

(** The loop on a figure that exists: the test of index [i] changes the
    axes of index [i], which must be there. *)
Lemma plot_tests_overlay (chn_name : string) (kw : plot_kwargs) (f0 : figure_t)
  (tests : chn_summary_t) :
  old_fig kw = Some f0 ->
  forall (fig fig' : figure_t) (done pending : list axes_t),
  fig_axes fig = (done ++ pending)%list ->
  plot_tests csf pearsonr chn_name kw fig (List.length done) tests = Ok fig' ->
  fig_size fig' = fig_size fig /\
  exists olds news rest,
    pending = (olds ++ rest)%list /\
    fig_axes fig' = (done ++ news ++ rest)%list /\
    List.length olds = List.length tests /\
    List.length news = List.length tests /\
    Forall2 (fun test ax => drawn chn_name kw test (fst ax) (snd ax))
            tests (combine olds news).
Proof.
  intros Hold. induction tests as [|t tests IH]; intros fig fig' done pending Hfig H.
  - injection H as <-. split; [reflexivity|]. exists [], [], pending.
    repeat split; auto; constructor.
  - cbn [plot_tests] in H.
    destruct (plot_test csf pearsonr chn_name kw fig (List.length done) t)
      as [fig1|] eqn:E1; cbn [bind] in H; [|discriminate].
    apply plot_test_shape in E1. destruct E1 as [Hsize [b [a [Hd Hax]]]].
    rewrite Hold in Hax. destruct Hax as [Hb Hax].
    rewrite Hfig, nth_error_middle in Hb.
    destruct pending as [|p pending]; [discriminate|].
    injection Hb as ->.
    rewrite Hfig, set_nth_middle in Hax.
    destruct (IH fig1 fig' (done ++ [a])%list pending) as [Hsize' Hrest].
    + rewrite Hax, <- app_assoc. reflexivity.
    + rewrite length_app. cbn [List.length].
      replace (List.length done + 1)%nat with (S (List.length done)) by lia.
      exact H.
    + destruct Hrest as [olds [news [rest [Hp [Hf [Ho [Hn Hall]]]]]]].
      split; [congruence|].
      exists (b :: olds), (a :: news), rest. repeat split.
      * rewrite Hp. reflexivity.
      * rewrite Hf, <- app_assoc. reflexivity.
      * cbn [List.length]. congruence.
      * cbn [List.length]. congruence.
      * cbn [combine]. constructor; assumption.
Qed.

(** On a figure of its own, [_plot_chn_csf] returns a figure of the size
    asked for with one axes object per test, in the order of the tests,
    each drawn on from nothing: titled with the area label, with axis
    labels and legend, and holding the curve of the channel, after the
    reference curve when a model is named. *)
Theorem plot_chn_csf_new_figure (chn_summary : chn_summary_t)
  (chn_name : string) (kw : plot_kwargs) (fig : figure_t) :
  old_fig kw = None ->
  _plot_chn_csf csf pearsonr chn_summary chn_name kw = Ok fig ->
  fig_size fig = figsize kw /\
  Forall2 (fun test ax => drawn chn_name kw test new_axes ax)
          chn_summary (fig_axes fig).
Proof.
  intros Hold H. unfold _plot_chn_csf in H. rewrite Hold in H.
  apply (plot_tests_fresh chn_name kw chn_summary Hold) in H.
  destruct H as [Hsize [news [Hax Hall]]]. cbn [fig_size fig_axes app] in *.
  split; [exact Hsize|]. rewrite Hax. exact Hall.
Qed.

(** On a figure that exists, [_plot_chn_csf] returns only when the figure
    has an axes object for every test.  Then the figure keeps its size and
    its number of axes; the axes of the tests are drawn on, each after what
    it held, and the axes beyond them are as they were. *)
Theorem plot_chn_csf_old_figure (chn_summary : chn_summary_t)
  (chn_name : string) (kw : plot_kwargs) (f0 fig : figure_t) :
  old_fig kw = Some f0 ->
  _plot_chn_csf csf pearsonr chn_summary chn_name kw = Ok fig ->
  fig_size fig = fig_size f0 /\
  (List.length chn_summary <= List.length (fig_axes f0))%nat /\
  exists olds news rest,
    fig_axes f0 = (olds ++ rest)%list /\
    fig_axes fig = (news ++ rest)%list /\
    List.length olds = List.length chn_summary /\
    List.length news = List.length chn_summary /\
    Forall2 (fun test ax => drawn chn_name kw test (fst ax) (snd ax))
            chn_summary (combine olds news).
Proof.
  intros Hold H. unfold _plot_chn_csf in H. rewrite Hold in H.
  apply (plot_tests_overlay chn_name kw f0 chn_summary Hold f0 fig []
           (fig_axes f0) eq_refl) in H.
  destruct H as [Hsize [olds [news [rest [Hp [Hf [Ho [Hn Hall]]]]]]]].
  split; [exact Hsize|]. split.
  - rewrite Hp, length_app. lia.
  - exists olds, news, rest. repeat split; assumption.
Qed.

End PlotChannel.

Section PlotWitnesses.

Open Scope string_scope.

(** A reference curve and a correlation to run the renderer with. *)
Definition flat_csf (f : float) (name : string) : float := B64.one.

Definition unit_pearsonr (x y : list float) : result (float * float) :=
  Ok (B64.one, B64.of_Z 0).

Definition scenario_tests : chn_summary_t :=
  [(scenario_summary, Some "area2"); (scenario_summary, None)].

Definition scenario_kwargs : plot_kwargs :=
  {| figsize := (22, 4)%nat; log_axis := false; normalise := true;
     model_name := Some "generic"; old_fig := None |}.

Definition empty_figure : figure_t := {| fig_size := (0, 0)%nat; fig_axes := [] |}.

Definition scenario_figure : figure_t :=
  Eval vm_compute in
    match _plot_chn_csf flat_csf unit_pearsonr scenario_tests "lum"
            scenario_kwargs with
    | Ok fig => fig
    | Raise _ => empty_figure
    end.

Definition overlay_kwargs : plot_kwargs :=
  without_model (with_old_fig scenario_kwargs scenario_figure).

Definition overlay_tests : chn_summary_t := [(scenario_summary, Some "area0")].

Definition overlay_figure : figure_t :=
  Eval vm_compute in
    match _plot_chn_csf flat_csf unit_pearsonr overlay_tests "rg"
            overlay_kwargs with
    | Ok fig => fig
    | Raise _ => empty_figure
    end.

Lemma plot_chn_csf_new_figure_witness :
  fig_size scenario_figure = figsize scenario_kwargs /\
  Forall2 (fun test ax => drawn "lum" scenario_kwargs test new_axes ax)
          scenario_tests (fig_axes scenario_figure).
Proof.
  apply (plot_chn_csf_new_figure flat_csf unit_pearsonr scenario_tests "lum"
           scenario_kwargs scenario_figure).
  - reflexivity.
  - vm_compute. reflexivity.
Defined.

Lemma plot_chn_csf_old_figure_witness :
  fig_size overlay_figure = fig_size scenario_figure /\
  (List.length overlay_tests <= List.length (fig_axes scenario_figure))%nat /\
  exists olds news rest,
    fig_axes scenario_figure = (olds ++ rest)%list /\
    fig_axes overlay_figure = (news ++ rest)%list /\
    List.length olds = List.length overlay_tests /\
    List.length news = List.length overlay_tests /\
    Forall2 (fun test ax => drawn "rg" overlay_kwargs test (fst ax) (snd ax))
            overlay_tests (combine olds news).
Proof.
  apply (plot_chn_csf_old_figure flat_csf unit_pearsonr overlay_tests "rg"
           overlay_kwargs scenario_figure overlay_figure).
  - reflexivity.
  - vm_compute. reflexivity.
Defined.

End PlotWitnesses.

Section PlotAreas.

Open Scope string_scope.

Variable csf : float -> string -> float.
Variable pearsonr : list float -> list float -> result (float * float).

Lemma plot_chn_csf_axes_count (chn_summary : chn_summary_t)
  (chn_name : string) (kw : plot_kwargs) (fig : figure_t) :
  _plot_chn_csf csf pearsonr chn_summary chn_name kw = Ok fig ->
  match old_fig kw with
  | None => List.length (fig_axes fig) = List.length chn_summary
  | Some f0 =>
      List.length (fig_axes fig) = List.length (fig_axes f0) /\
      (List.length chn_summary <= List.length (fig_axes f0))%nat
  end.
Proof.
  intros H. unfold _plot_chn_csf in H.
  destruct (old_fig kw) as [f0|] eqn:Hold.
  - apply (plot_tests_overlay csf pearsonr chn_name kw f0 chn_summary Hold
             f0 fig [] (fig_axes f0) eq_refl) in H.
    destruct H as [_ [olds [news [rest [Hp [Hf [Ho Hn]]]]]]]. destruct Hn as [Hn _].
    rewrite Hf, Hp. cbn [app]. rewrite !length_app. lia.
  - apply (plot_tests_fresh csf pearsonr chn_name kw chn_summary Hold) in H.
    destruct H as [_ [news [Hax Hall]]]. cbn [fig_axes app] in Hax.
    rewrite Hax. symmetry. apply (Forall2_length Hall).
Qed.

Lemma plot_channels_too_many (later : list (string * chn_summary_t)) :
  forall (kw : plot_kwargs) (fig : figure_t),
  (exists k v, In (k, v) later /\
               (List.length (fig_axes fig) < List.length v)%nat) ->
  exists e, plot_channels csf pearsonr later kw (Some fig) = Raise e.
Proof.
  induction later as [|[k0 v0] later IH]; intros kw fig [k [v [Hin Hlen]]];
    [destruct Hin|].
  cbn [plot_channels].
  destruct (_plot_chn_csf csf pearsonr v0 k0
              (without_model (with_old_fig kw fig))) as [fig'|e] eqn:E;
    cbn [bind]; [|eauto].
  apply plot_chn_csf_axes_count in E. cbn [old_fig without_model with_old_fig] in E.
  destruct E as [Hcount Hle].
  destruct Hin as [Heq|Hin].
  - injection Heq as -> ->. lia.
  - apply IH. exists k, v. split; [exact Hin|]. rewrite Hcount. exact Hlen.
Qed.

(** [plot_csf_areas] draws every channel after the first on the axes of
    the first: when a later channel has more tests than the first one,
    an axes object is missing for it and no figure is returned. *)
Theorem plot_channels_more_tests (chn_key : string) (chn_val : chn_summary_t)
  (later : list (string * chn_summary_t)) (kw : plot_kwargs)
  (k : string) (v : chn_summary_t) :
  old_fig kw = None -> In (k, v) later ->
  (List.length chn_val < List.length v)%nat ->
  exists e,
    plot_channels csf pearsonr ((chn_key, chn_val) :: later) kw None = Raise e.
Proof.
  intros Hold Hin Hlen. cbn [plot_channels].
  destruct (_plot_chn_csf csf pearsonr chn_val chn_key kw) as [fig1|e] eqn:E;
    cbn [bind]; [|eauto].
  apply plot_chn_csf_axes_count in E. rewrite Hold in E.
  apply plot_channels_too_many. exists k, v. split; [exact Hin|].
  rewrite E. exact Hlen.
Qed.

End PlotAreas.

Section PlotAreasWitness.

Open Scope string_scope.

Lemma plot_channels_more_tests_witness :
  exists e,
    plot_channels flat_csf unit_pearsonr
      (("lum", overlay_tests) :: [("rg", scenario_tests)])
      scenario_kwargs None = Raise e.
Proof.
  apply (plot_channels_more_tests flat_csf unit_pearsonr "lum" overlay_tests
           [("rg", scenario_tests)] scenario_kwargs "rg" scenario_tests).
  - reflexivity.
  - left. reflexivity.
  - cbn [List.length overlay_tests scenario_tests]. lia.
Defined.

End PlotAreasWitness.

(** ** The summary of a network, channel by channel *)

Section NetworkSummary.

Open Scope string_scope.

Lemma dict_keys_set_new {V : Type} (d : dict V) (k : string) (v : V) :
  ~ In k (dict_keys d) -> dict_keys (dict_set d k v) = (dict_keys d ++ [k])%list.
Proof.
  induction d as [|[k0 v0] d IH]; intros Hk; [reflexivity|].
  cbn [dict_set]. destruct (String.eqb_spec k0 k) as [->|ne].
  - exfalso. apply Hk. left. reflexivity.
  - cbn [dict_keys map fst app]. f_equal. apply IH.
    intros F. apply Hk. right. exact F.
Qed.

(** One channel of the summary: the tests of the channel, summarised in
    order, each with its label. *)
Definition summarised (target_size : Z) (chn_data : chn_res_t)
  (tests : chn_summary_t) : Prop :=
  Forall2 (fun d t => _extract_data (fst d) target_size = Ok (fst t) /\
                      snd t = snd d)
          chn_data tests.

Definition summary_step (target_size : Z)
  (acc : result (dict chn_summary_t)) (item : string * chn_res_t)
  : result (dict chn_summary_t) :=
  net_summary <- acc ;;
  let '(chn_name, chn_data) := item in
  tests <- for_each
             (fun t =>
                test_summary <- _extract_data (fst t) target_size ;;
                Ok (test_summary, snd t))
             chn_data ;;
  Ok (dict_set net_summary chn_name tests).

Lemma summary_step_raise (target_size : Z) (items : list (string * chn_res_t))
  (e : exn) :
  fold_left (summary_step target_size) items (Raise e) = Raise e.
Proof. induction items as [|[k d] items IH]; [reflexivity | exact IH]. Qed.

Lemma summarise_tests (target_size : Z) (chn_data : chn_res_t)
  (tests : chn_summary_t) :
  for_each (fun t => test_summary <- _extract_data (fst t) target_size ;;
                     Ok (test_summary, snd t)) chn_data = Ok tests ->
  summarised target_size chn_data tests.
Proof.
  intros H. apply for_each_Forall2 in H. unfold summarised.
  induction H as [|d t ds ts Hd _ IH]; constructor; [|exact IH].
  destruct (_extract_data (fst d) target_size) as [s|]; cbn [bind] in Hd;
    [|discriminate].
  injection Hd as <-. split; reflexivity.
Qed.

Lemma summary_fold (target_size : Z) (items : list (string * chn_res_t)) :
  forall (acc s : dict chn_summary_t),
  NoDup (dict_keys acc ++ dict_keys items) ->
  fold_left (summary_step target_size) items (Ok acc) = Ok s ->
  dict_keys s = (dict_keys acc ++ dict_keys items)%list /\
  (forall k, In k (dict_keys acc) -> dict_get s k = dict_get acc k) /\
  (forall k chn_data, dict_get items k = Some chn_data ->
     exists tests, dict_get s k = Some tests /\
                   summarised target_size chn_data tests).
Proof.
  induction items as [|[k0 d0] items IH]; intros acc s Hnd H.
  - injection H as <-. cbn [dict_keys map app]. rewrite app_nil_r.
    repeat split; auto. intros k d F. discriminate.
  - cbn [fold_left] in H. unfold summary_step at 2 in H. cbn [bind] in H.
    destruct (for_each _ d0) as [tests0|e] eqn:E0; cbn [bind] in H;
      [|rewrite summary_step_raise in H; discriminate].
    apply summarise_tests in E0.
    assert (Hnew : ~ In k0 (dict_keys acc)).
    { intros F. apply NoDup_remove_2 in Hnd. apply Hnd.
      apply in_or_app. left. exact F. }
    assert (Hnd' : NoDup (dict_keys (dict_set acc k0 tests0) ++ dict_keys items)).
    { rewrite dict_keys_set_new by exact Hnew. rewrite <- app_assoc. exact Hnd. }
    destruct (IH (dict_set acc k0 tests0) s Hnd' H) as [Hkeys [Hacc Hitems]].
    rewrite dict_keys_set_new in Hkeys, Hacc by exact Hnew.
    split; [|split].
    + rewrite Hkeys, <- app_assoc. reflexivity.
    + intros k Hk. rewrite Hacc by (apply in_or_app; left; exact Hk).
      rewrite dict_get_set. destruct (String.eqb_spec k0 k) as [->|ne];
        [contradiction | reflexivity].
    + intros k chn_data Hget. cbn [dict_get] in Hget.
      destruct (String.eqb_spec k0 k) as [->|ne].
      * injection Hget as <-. exists tests0. split; [|exact E0].
        rewrite Hacc by (apply in_or_app; right; left; reflexivity).
        rewrite dict_get_set, String.eqb_refl. reflexivity.
      * apply Hitems. exact Hget.
Qed.

(** [_extract_network_summary] keeps the shape of what was loaded: the
    same channels in the same order, and for each channel its tests
    summarised one by one, in order, each with the area label it was
    loaded with. *)
Theorem extract_network_summary_shape (net_results : dict chn_res_t)
  (target_size : Z) (net_summary : dict chn_summary_t) :
  NoDup (dict_keys net_results) ->
  _extract_network_summary net_results target_size = Ok net_summary ->
  dict_keys net_summary = dict_keys net_results /\
  forall chn_name chn_data,
    dict_get net_results chn_name = Some chn_data ->
    exists tests,
      dict_get net_summary chn_name = Some tests /\
      summarised target_size chn_data tests.
Proof.
  intros Hnd H.
  destruct (summary_fold target_size net_results [] net_summary Hnd H)
    as [Hkeys [_ Hitems]].
  split; assumption.
Qed.

Definition scenario_results : dict chn_res_t :=
  [ ("lum", [(scenario_matrix, Some "area2"); (scenario_matrix, None)]);
    ("rg", [(scenario_matrix, Some "area0")]) ].

Definition scenario_network_summary : dict chn_summary_t :=
  [ ("lum", scenario_tests); ("rg", overlay_tests) ].

Lemma extract_network_summary_shape_witness :
  dict_keys scenario_network_summary = dict_keys scenario_results /\
  forall chn_name chn_data,
    dict_get scenario_results chn_name = Some chn_data ->
    exists tests,
      dict_get scenario_network_summary chn_name = Some tests /\
      summarised 4 chn_data tests.
Proof.
  apply (extract_network_summary_shape scenario_results 4
           scenario_network_summary).
  - repeat constructor; cbn [In]; intros F;
      repeat (destruct F as [F|F]; [discriminate|]); exact F.
  - vm_compute. reflexivity.
Defined.

End NetworkSummary.

(** ** A call of [plot_csf_areas] that finds nothing to draw *)

Section NothingToDraw.

Open Scope string_scope.

Variable csf : float -> string -> float.
Variable pearsonr : list float -> list float -> result (float * float).


End NothingToDraw.

Section NothingToDrawWitness.

Open Scope string_scope.


End NothingToDrawWitness.

(** ** Quotients of normal doubles *)

Section NormalQuotient.

Open Scope Z_scope.

Lemma round_nearest_even_near (m : Z) (l : location) :
  m <= round_nearest_even m l <= m + 1.
Proof.
  destruct l as [|[| |]]; cbn [round_nearest_even];
    try destruct (Z.even m); lia.
Qed.

Lemma shr_record_of_loc_m (q : Z) (l : location) :
  shr_m (shr_record_of_loc q l) = q.
Proof. destruct l as [|[| |]]; reflexivity. Qed.

(** A mantissa of 53 or 54 bits is shifted by at most one place, to 53
    bits. *)
Lemma shr_fexp_normal (q e0 : Z) (l : location) (num den : Z) :
  between (shr_record_of_loc q l) num den ->
  2 ^ 52 <= q < 2 ^ 54 -> -1074 <= e0 ->
  exists mrs e1,
    shr_fexp B64.prec B64.emax q e0 l = (mrs, e1) /\
    (exists den1, between mrs num den1) /\
    e0 <= e1 <= e0 + 1 /\ 2 ^ 52 <= shr_m mrs < 2 ^ 53.
Proof.
  intros Hb Hq He. unfold shr_fexp.
  destruct q as [|p|p]; try lia. cbn [Zdigits2].
  pose proof (digits2_pos_bounds p) as [Blo Bhi].
  assert (Hd : Z.pos (digits2_pos p) = 53 \/ Z.pos (digits2_pos p) = 54).
  { assert (52 < Z.pos (digits2_pos p))
      by (apply (Z.pow_lt_mono_r_iff 2); lia).
    assert (Z.pos (digits2_pos p) - 1 < 54)
      by (apply (Z.pow_lt_mono_r_iff 2); lia).
    lia. }
  set (n := fexp B64.prec B64.emax (Z.pos (digits2_pos p) + e0) - e0).
  assert (Hn : n = Z.pos (digits2_pos p) - 53)
    by (unfold n; rewrite fexp64_eq; lia).
  destruct (between_shr _ e0 n num den Hb) as [Hb1 He1].
  destruct (shr (shr_record_of_loc (Z.pos p) l) e0 n) as [mrs e1].
  cbn [fst snd] in Hb1, He1.
  exists mrs, e1. split; [reflexivity|].
  split; [eexists; exact Hb1|].
  split; [lia|].
  destruct Hb as [Hden [_ [Hv _]]]. rewrite shr_record_of_loc_m in Hv.
  destruct Hb1 as [_ [Hm [Hv1 _]]].
  destruct Hd as [Hd|Hd]; rewrite Hd in *.
  - replace n with 0 in * by lia. cbn [Z.max] in Hv1.
    change (2 ^ 0) with 1 in Hv1. rewrite Z.mul_1_l in Hv1.
    change (2 ^ (53 - 1)) with (2 ^ 52) in Blo.
    assert (shr_m mrs = Z.pos p) by nia. lia.
  - replace n with 1 in * by lia. cbn [Z.max] in Hv1.
    change (Z.max 0 1) with 1 in Hv1. change (2 ^ 1) with 2 in Hv1.
    change (2 ^ (54 - 1)) with (2 ^ 53) in Blo.
    assert (2 * shr_m mrs <= Z.pos p) by nia.
    assert (Z.pos p < 2 * shr_m mrs + 2) by nia.
    change (2 ^ 53) with (2 * 2 ^ 52) in Blo.
    change (2 ^ 54) with (2 * 2 ^ 53) in Bhi. lia.
Qed.

(** Rounding a mantissa of 53 or 54 bits gives a normal double, whose
    exponent is at most two above the one given. *)
Lemma binary_round_aux_normal (s : bool) (q e0 : Z) (l : location)
  (num den : Z) :
  between (shr_record_of_loc q l) num den ->
  2 ^ 52 <= q < 2 ^ 54 -> -1074 <= e0 <= 969 ->
  exists m e,
    binary_round_aux B64.prec B64.emax s q e0 l = S754_finite s m e /\
    Z.pos (digits2_pos m) = 53 /\ e0 <= e <= e0 + 2.
Proof.
  intros Hb Hq He. unfold binary_round_aux.
  destruct (shr_fexp_normal q e0 l num den Hb Hq ltac:(lia))
    as [mrs1 [e1 [E1 [_ [He1 Hm1]]]]].
  rewrite E1.
  pose proof (round_nearest_even_near (shr_m mrs1) (loc_of_shr_record mrs1))
    as Hr.
  set (m2 := round_nearest_even (shr_m mrs1) (loc_of_shr_record mrs1)) in *.
  assert (Hb2 : between (shr_record_of_loc m2 loc_Exact) m2 1)
    by (apply between_exact; lia).
  assert (Hm2 : 2 ^ 52 <= m2 < 2 ^ 54).
  { change (2 ^ 54) with (2 * 2 ^ 53). lia. }
  destruct (shr_fexp_normal m2 e1 loc_Exact m2 1 Hb2 Hm2 ltac:(lia))
    as [mrs2 [e2 [E2 [_ [He2 Hm3]]]]].
  rewrite E2.
  destruct (shr_m mrs2) as [|p|p] eqn:Ep; try lia.
  assert (Z.leb e2 (B64.emax - B64.prec) = true) as ->
    by (apply Z.leb_le; unfold B64.emax, B64.prec; lia).
  exists p, e2. split; [reflexivity|]. split; [|lia].
  apply digits2_pos_unique. change (2 ^ (53 - 1)) with (2 ^ 52). exact Hm3.
Qed.

(** The quotient of two normal doubles whose exponents are not far apart
    is a normal double. *)
Lemma div_normal (s1 : bool) (m1 : positive) (e1 : Z) (s2 : bool)
  (m2 : positive) (e2 : Z) :
  Z.pos (digits2_pos m1) = 53 -> Z.pos (digits2_pos m2) = 53 ->
  -1021 <= e1 - e2 <= 1022 ->
  exists m e,
    SFdiv B64.prec B64.emax (S754_finite s1 m1 e1) (S754_finite s2 m2 e2) =
      S754_finite (xorb s1 s2) m e /\
    Z.pos (digits2_pos m) = 53 /\ e1 - e2 - 53 <= e <= e1 - e2 - 51.
Proof.
  intros D1 D2 He. unfold SFdiv.
  destruct (div_core_spec m1 e1 m2 e2) as [q [r [E [Hq [Hr Hqr]]]]].
  rewrite E.
  assert (Hd : div_exponent m1 e1 m2 e2 = e1 - e2 - 53).
  { unfold div_exponent. rewrite D1, D2, fexp64_eq. lia. }
  rewrite Hd in *.
  replace (e1 - e2 - (e1 - e2 - 53)) with 53 in Hqr by lia.
  pose proof (digits2_pos_bounds m1) as [L1 H1].
  pose proof (digits2_pos_bounds m2) as [L2 H2].
  rewrite D1 in L1, H1. rewrite D2 in L2, H2.
  change (2 ^ (53 - 1)) with (2 ^ 52) in L1, L2.
  assert (Hq52 : 2 ^ 52 <= q).
  { destruct (Z_lt_le_dec q (2 ^ 52)) as [F|]; [exfalso|assumption].
    assert ((q + 1) * Z.pos m2 <= 2 ^ 52 * Z.pos m2)
      by (apply Z.mul_le_mono_nonneg_r; lia).
    assert (2 ^ 52 * Z.pos m2 < 2 ^ 52 * 2 ^ 53)
      by (apply Z.mul_lt_mono_pos_l; lia).
    assert (2 ^ 52 * 2 ^ 53 <= Z.pos m1 * 2 ^ 53)
      by (apply Z.mul_le_mono_nonneg_r; lia).
    lia. }
  assert (Hq54 : q < 2 ^ 54).
  { destruct (Z_lt_le_dec q (2 ^ 54)) as [|F]; [assumption|exfalso].
    assert (2 ^ 54 * Z.pos m2 <= q * Z.pos m2)
      by (apply Z.mul_le_mono_nonneg_r; lia).
    assert (2 ^ 54 * 2 ^ 52 <= 2 ^ 54 * Z.pos m2)
      by (apply Z.mul_le_mono_nonneg_l; lia).
    assert (Z.pos m1 * 2 ^ 53 < 2 ^ 53 * 2 ^ 53)
      by (apply Z.mul_lt_mono_pos_r; lia).
    change (2 ^ 54 * 2 ^ 52) with (2 ^ 53 * 2 ^ 53) in *. lia. }
  destruct (binary_round_aux_normal (xorb s1 s2) q (e1 - e2 - 53)
              (new_location (Z.pos m2) r) (q * Z.pos m2 + r) (Z.pos m2))
    as [m [e [Em [Dm Hem]]]].
  - apply new_location_between; assumption.
  - lia.
  - lia.
  - exists m, e. split; [exact Em|]. split; [exact Dm|]. lia.
Qed.

(** Multiplying by a power of two changes the exponent only. *)
Lemma pow2_mul (s : bool) (m : positive) (e e2 : Z) :
  Z.pos (digits2_pos m) = 53 -> -1074 <= e + e2 <= 971 ->
  SFmul B64.prec B64.emax (S754_finite false two52 (e2 - 52))
        (S754_finite s m e) =
  S754_finite s m (e + e2).
Proof.
  intros Hd He. unfold SFmul. cbn [xorb].
  replace (e2 - 52 + e) with (e + e2 - 52) by lia.
  apply binary_round_aux_exact.
  - lia.
  - rewrite Pos2Z.inj_mul. unfold two52. lia.
  - apply normal_canonical; [assumption | lia].
  - unfold B64.emax, B64.prec. lia.
Qed.

End NormalQuotient.

(** ** Frequencies of waves that are powers of two *)

Section PowerOfTwoWaves.

Open Scope Z_scope.

(** The double [2 ^ k]. *)
Definition pow2 (k : Z) : float := S754_finite false two52 (k - 52).

Lemma pow2_of_Z (k : Z) : 0 <= k <= 52 -> pow2 k = B64.of_Z (2 ^ k).
Proof.
  intros Hk. assert (Hp : 0 < 2 ^ k) by (apply Z.pow_pos_nonneg; lia).
  destruct (2 ^ k) as [|n|n] eqn:En; try lia.
  assert (Hn : Z.pos n < 2 ^ 53).
  { rewrite <- En. apply Z.pow_lt_mono_r; lia. }
  rewrite of_Z_dyadic by exact Hn.
  assert (Hdig : Z.pos (digits2_pos n) = k + 1).
  { apply digits2_pos_unique. rewrite <- En.
    replace (k + 1 - 1) with k by lia. split; [lia|].
    apply Z.pow_lt_mono_r; lia. }
  unfold dyadic, pow2, room. rewrite Hdig, <- En.
  rewrite <- Z.pow_add_r by lia.
  replace (k + (53 - (k + 1))) with 52 by lia.
  f_equal. lia.
Qed.

(** The base frequency of a positive target size is a normal double. *)
Lemma base_sf_normal (target_size : Z) :
  0 < target_size < 2 ^ 52 ->
  exists m e,
    B64.div (B64.div (B64.of_Z target_size) B64.two) B64.pi =
      S754_finite false m e /\
    Z.pos (digits2_pos m) = 53 /\ -56 <= e <= -1.
Proof.
  intros HT. destruct target_size as [|n|n]; try lia.
  assert (Hn : Z.pos n < 2 ^ 53).
  { change (2 ^ 53) with (2 * 2 ^ 52). lia. }
  rewrite half_integer by exact Hn.
  pose proof (digits_le_53 n Hn) as Hr.
  destruct (dyadic_mantissa n Hr) as [_ Hd].
  pose proof (digits2_pos_bounds n) as [Blo _].
  assert (Hroom : 1 <= room n <= 52).
  { unfold room in *.
    assert (Z.pos (digits2_pos n) - 1 < 52)
      by (apply (Z.pow_lt_mono_r_iff 2); lia).
    lia. }
  unfold dyadic, B64.div, B64.pi.
  destruct (div_normal false (Z.to_pos (Z.pos n * 2 ^ room n)) (-1 - room n)
              false 7074237752028440 (-51) Hd eq_refl ltac:(lia))
    as [m [e [E [Dm He]]]].
  exists m, e. split; [exact E|]. split; [exact Dm|]. lia.
Qed.

(** For waves that are powers of two, [wave2sf] returns exactly the base
    frequency divided by the wave, the double that [uniform_sfs] puts in
    its grid for the same wave: for a target size below [2 ^ 52] and
    waves [2 ^ k] with [k] from -900 to 1000, [(1 / e) * base_sf] and
    [base_sf / e] are the same double. *)
Theorem wave2sf_power_of_two (target_size : Z) (ks : list Z) :
  0 < target_size < 2 ^ 52 ->
  Forall (fun k => -900 <= k <= 1000) ks ->
  wave2sf (map (fun k => np (pow2 k)) ks) target_size =
  Ok (map (fun k => NpFloat
                      (B64.div (B64.div (B64.div (B64.of_Z target_size) B64.two)
                                  B64.pi) (pow2 k))) ks).
Proof.
  intros HT Hks.
  rewrite <- (map_map pow2 np).
  rewrite (wave2sf_doubles (map pow2 ks) target_size
             (half_of_int target_size ltac:(lia))).
  rewrite map_map. f_equal.
  apply map_ext_in. intros k Hk. f_equal.
  rewrite Forall_forall in Hks. specialize (Hks k Hk).
  destruct (base_sf_normal target_size HT) as [m [e [-> [Dm He]]]].
  unfold B64.mul, B64.div, pow2.
  change B64.one with (S754_finite false two52 (-52)).
  rewrite (div_pow2 false two52 (-52) k eq_refl) by lia.
  replace (-52 - k) with (- k - 52) by lia.
  rewrite pow2_mul by (auto; lia).
  rewrite div_pow2 by (auto; lia).
  reflexivity.
Qed.

Lemma wave2sf_power_of_two_witness :
  wave2sf (map (fun k => np (pow2 k)) [0; 1; 2; 3]) 224 =
  Ok (map (fun k => NpFloat
                      (B64.div (B64.div (B64.div (B64.of_Z 224) B64.two)
                                  B64.pi) (pow2 k))) [0; 1; 2; 3]).
Proof.
  apply wave2sf_power_of_two.
  - lia.
  - repeat constructor; lia.
Defined.

End PowerOfTwoWaves.

(** ** Frequencies that are numbers *)

Section WaveNumbers.

Open Scope Z_scope.

Lemma signed_number (s : bool) (z : float) : signed s z -> number z.
Proof. destruct z; cbn [signed]; intros H; [..|contradiction|]; reflexivity. Qed.

Lemma mul_finite_number (x : float) (s : bool) (m : positive) (e : Z) :
  number x -> number (B64.mul x (S754_finite s m e)).
Proof.
  intros Hx. destruct x as [sx|sx| |sx mx ex]; try reflexivity.
  - discriminate.
  - unfold B64.mul, SFmul.
    apply (signed_number (xorb sx s)).
    apply binary_round_aux_signed with (num := Z.pos (mx * m)) (den := 1).
    apply between_exact. lia.
Qed.

Lemma one_over_number (x : float) : number x -> number (B64.div B64.one x).
Proof.
  intros Hx. destruct x as [sx|sx| |sx mx ex]; try reflexivity.
  - discriminate.
  - apply (signed_number (xorb false sx)). apply div_signed.
Qed.

Lemma nan_in_nan_out (e : float) (s : bool) (m : positive) (x : Z) :
  B64.is_nan (B64.mul (B64.div B64.one e) (S754_finite s m x)) = B64.is_nan e.
Proof.
  destruct (B64.is_nan e) eqn:E.
  - destruct e; try discriminate. reflexivity.
  - apply mul_finite_number. apply one_over_number. exact E.
Qed.

(** For a target size below [2 ^ 52] and waves that are numpy doubles,
    [wave2sf] returns, and gives a NaN exactly where the wave is a NaN:
    the frequency of every other wave of the list, zero and the infinities
    among them, is a number, whatever else the list holds. *)
Theorem wave2sf_number (target_size : Z) (wave : list float) :
  0 < target_size < 2 ^ 52 ->
  exists sfs,
    wave2sf (map np wave) target_size = Ok (map NpFloat sfs) /\
    Forall2 (fun e sf => B64.is_nan sf = B64.is_nan e) wave sfs.
Proof.
  intros HT.
  rewrite (wave2sf_doubles wave target_size
             (half_of_int target_size ltac:(lia))).
  destruct (base_sf_normal target_size HT) as [m [e [-> _]]].
  exists (map (fun w => B64.mul (B64.div B64.one w) (S754_finite false m e))
              wave).
  split; [rewrite map_map; reflexivity|].
  induction wave as [|w wave IH]; cbn [map]; constructor; [|exact IH].
  apply nan_in_nan_out.
Qed.

Lemma wave2sf_number_witness :
  exists sfs,
    wave2sf (map np [B64.of_Z 0; S754_nan; S754_infinity false; B64.lit 1 10])
            224 = Ok (map NpFloat sfs) /\
    Forall2 (fun e sf => B64.is_nan sf = B64.is_nan e)
            [B64.of_Z 0; S754_nan; S754_infinity false; B64.lit 1 10] sfs.
Proof.
  apply wave2sf_number. lia.
Defined.

End WaveNumbers.

(** ** A summary that cannot be built *)

Section NetworkSummaryFailure.

Open Scope string_scope.

Lemma summary_fold_raises (target_size : Z) (items : list (string * chn_res_t))
  (chn_name : string) (chn_data : chn_res_t) (mat : matrix)
  (area : option string) (e : exn) :
  In (chn_name, chn_data) items -> In (mat, area) chn_data ->
  _extract_data mat target_size = Raise e ->
  forall acc, exists e',
    fold_left (summary_step target_size) items acc = Raise e'.
Proof.
  intros Hin Hbad He. induction items as [|[k0 d0] items IH]; [destruct Hin|].
  intros acc. cbn [fold_left].
  destruct Hin as [Heq|Hin]; [|apply IH; exact Hin].
  injection Heq as -> ->.
  destruct acc as [d|e0]; [|exists e0; apply summary_step_raise].
  unfold summary_step at 2. cbn [bind].
  destruct (for_each_some_raise
              (fun t => test_summary <- _extract_data (fst t) target_size ;;
                        Ok (test_summary, snd t)) chn_data) as [e1 E1].
  { exists (mat, area), e. split; [exact Hbad|]. cbn [fst]. rewrite He.
    reflexivity. }
  rewrite E1. cbn [bind]. exists e1. apply summary_step_raise.
Qed.

(** One test that cannot be summarised makes [_extract_network_summary]
    raise: no summary of the other tests and channels is returned. *)
Theorem extract_network_summary_fails_fast (net_results : dict chn_res_t)
  (target_size : Z) (chn_name : string) (chn_data : chn_res_t)
  (mat : matrix) (area : option string) (e : exn) :
  In (chn_name, chn_data) net_results -> In (mat, area) chn_data ->
  _extract_data mat target_size = Raise e ->
  exists e', _extract_network_summary net_results target_size = Raise e'.
Proof.
  intros Hin Hbad He.
  apply (summary_fold_raises target_size net_results chn_name chn_data mat
           area e Hin Hbad He).
Qed.

Lemma extract_network_summary_fails_fast_witness :
  exists e',
    _extract_network_summary
      [ ("lum", [(scenario_matrix, Some "area2")]);
        ("rg", [(scenario_matrix, None); ([], Some "area0")]) ] 4 = Raise e'.
Proof.
  apply (extract_network_summary_fails_fast _ 4 "rg"
           [(scenario_matrix, None); ([], Some "area0")] [] (Some "area0")
           ValueError).
  - right. left. reflexivity.
  - right. left. reflexivity.
  - vm_compute. reflexivity.
Defined.

End NetworkSummaryFailure.

(** ** The distance of a curve from itself *)

Section SameCurve.

Open Scope string_scope.

Variable csf : float -> string -> float.
Variable pearsonr : list float -> list float -> result (float * float).

Lemma sub_self (x : float) :
  B64.is_finite x = true -> B64.sub x x = B64.of_Z 0.
Proof.
  destruct x as [s|s| |s m e]; intros H; try discriminate.
  - destruct s; reflexivity.
  - unfold B64.sub, SFsub.
    match goal with
    | |- binary_normalize _ _ ?z _ _ = _ =>
        assert (E : z = 0%Z) by apply Z.sub_diag
    end.
    rewrite E. reflexivity.
Qed.

Lemma squares_of_zeros (v : list float) :
  Forall (fun x => x = B64.of_Z 0) v ->
  fold_left (fun acc x => B64.add acc (B64.mul x x)) v (B64.of_Z 0) =
  B64.of_Z 0.
Proof.
  induction v as [|x v IH]; intros H; [reflexivity|].
  inversion H as [|? ? Hx Hv]; subst. cbn [fold_left].
  change (B64.add (B64.of_Z 0) (B64.mul (B64.of_Z 0) (B64.of_Z 0)))
    with (B64.of_Z 0).
  apply IH. exact Hv.
Qed.

Lemma norm_of_differences (c : list float) :
  Forall (fun v => B64.is_finite v = true) c ->
  norm (map (fun p => B64.sub (fst p) (snd p)) (combine c c)) = B64.of_Z 0.
Proof.
  intros Hc. unfold norm. rewrite squares_of_zeros; [reflexivity|].
  induction Hc as [|x c Hx _ IH]; cbn [combine map]; constructor.
  - cbn [fst snd]. apply sub_self. exact Hx.
  - exact IH.
Qed.

(** When the curve of the model and the reference curve, each divided by
    its maximum on the interpolated grid, are the same curve of finite
    values, the distance that [_plot_chn_csf] reports is exactly 0.0;
    the correlation is what [pearsonr] returns for the curve and
    itself. *)
Theorem compare_reference_same_curve (name : string) (test : data_summary_t)
  (c : list float) (r : float * float) :
  divide_by_max (map (fun f => csf f name) (up_sf_int (unique_params test)))
    = Ok c ->
  divide_by_max (sens_all_int (sensitivities test)) = Ok c ->
  Forall (fun v => B64.is_finite v = true) c ->
  pearsonr c c = Ok r ->
  compare_reference csf pearsonr name test = Ok (fst r, B64.of_Z 0).
Proof.
  intros Hh Hy Hc Hr. unfold compare_reference.
  rewrite Hh. cbn [bind]. rewrite Hy. cbn [bind]. rewrite Hr. cbn [bind].
  rewrite norm_of_differences by exact Hc. reflexivity.
Qed.

End SameCurve.

Section SameCurveWitness.

Open Scope string_scope.

(** A reference that has the sensitivities of the scenario at the
    frequencies of its grid. *)
Definition scenario_csf (f : float) (name : string) : float :=
  match find (fun p => B64.eqb (fst p) f)
             (combine (up_sf_int (unique_params scenario_summary))
                      (sens_all_int (sensitivities scenario_summary))) with
  | Some p => snd p
  | None => B64.one
  end.

Definition scenario_curve : list float :=
  Eval vm_compute in
    match divide_by_max (sens_all_int (sensitivities scenario_summary)) with
    | Ok c => c
    | Raise _ => []
    end.

Lemma compare_reference_same_curve_witness :
  compare_reference scenario_csf unit_pearsonr "generic" scenario_summary
  = Ok (B64.one, B64.of_Z 0).
Proof.
  apply (compare_reference_same_curve scenario_csf unit_pearsonr "generic"
           scenario_summary scenario_curve (B64.one, B64.of_Z 0)).
  - vm_compute. reflexivity.
  - vm_compute. reflexivity.
  - repeat constructor.
  - reflexivity.
Defined.

End SameCurveWitness.

(** ** The figure of several channels *)

Section PlotAreasFigure.

Open Scope string_scope.

Variable csf : float -> string -> float.
Variable pearsonr : list float -> list float -> result (float * float).

Lemma Forall2_nth_right {A B : Type} (P : A -> B -> Prop) (l : list A)
  (l' : list B) :
  Forall2 P l l' ->
  forall i b, nth_error l' i = Some b ->
  exists a, nth_error l i = Some a /\ P a b.
Proof.
  induction 1 as [|a b0 l l' Hab _ IH]; intros i b Hi.
  - destruct i; discriminate.
  - destruct i as [|i]; cbn [nth_error] in *.
    + injection Hi as <-. exists a. split; [reflexivity | exact Hab].
    + apply IH. exact Hi.
Qed.

Lemma nth_error_combine_both {A B : Type} (l : list A) (l' : list B) (i : nat)
  (p : A * B) :
  nth_error (combine l l') i = Some p ->
  nth_error l i = Some (fst p) /\ nth_error l' i = Some (snd p).
Proof.
  revert l' i. induction l as [|a l IH]; intros [|b l'] [|i] H;
    cbn [combine nth_error] in *; try discriminate.
  - injection H as <-. split; reflexivity.
  - apply IH. exact H.
Qed.

(** The lines of a channel drawn without a reference: one more on each
    of the axes of its tests, none on the other axes. *)
Lemma overlay_lines (chn_summary : chn_summary_t) (chn_name : string)
  (kw : plot_kwargs) (f0 fig : figure_t) :
  old_fig kw = Some f0 -> model_name kw = None ->
  _plot_chn_csf csf pearsonr chn_summary chn_name kw = Ok fig ->
  forall i ax', nth_error (fig_axes fig) i = Some ax' ->
  exists ax, nth_error (fig_axes f0) i = Some ax /\
    List.length (ax_lines ax') =
    (List.length (ax_lines ax) +
     (if Nat.ltb i (List.length chn_summary) then 1 else 0))%nat.
Proof.
  intros Hold Hmodel H i ax' Hi. unfold _plot_chn_csf in H. rewrite Hold in H.
  apply (plot_tests_overlay csf pearsonr chn_name kw f0 chn_summary Hold
           f0 fig [] (fig_axes f0) eq_refl) in H.
  destruct H as [_ [olds [news [rest [Hp [Hf [Ho [Hn Hall]]]]]]]].
  cbn [app] in Hf. rewrite Hf in Hi. rewrite Hp.
  destruct (Nat.ltb_spec i (List.length chn_summary)) as [L|L].
  - rewrite nth_error_app1 in Hi by lia.
    assert (Hc : exists p, nth_error (combine olds news) i = Some p /\ snd p = ax').
    { clear - Hi Ho Hn. revert news i Hi Ho Hn. generalize (List.length chn_summary).
      induction olds as [|o olds IH]; intros n [|b news] i Hi Ho Hn;
        cbn [List.length] in *; try (destruct i; discriminate); try lia.
      destruct i as [|i]; cbn [combine nth_error] in *.
      - injection Hi as <-. exists (o, b). split; reflexivity.
      - destruct n as [|n]; [lia|]. apply (IH n); [exact Hi | lia | lia]. }
    destruct Hc as [[ax ax''] [Hc Hs]]. cbn [snd] in Hs. subst ax''.
    assert (Hall' : Forall2 (fun ax t => drawn chn_name kw t (fst ax) (snd ax))
                      (combine olds news) chn_summary).
    { clear - Hall. induction Hall; constructor; assumption. }
    assert (Hlen : List.length (combine olds news) = List.length chn_summary)
      by (symmetry; apply (Forall2_length Hall)).
    destruct (nth_error chn_summary i) as [t|] eqn:Et;
      [|apply nth_error_None in Et; lia].
    destruct (Forall2_nth_right _ _ _ Hall' i t Et) as [p [Hp' Hd]].
    rewrite Hc in Hp'. injection Hp' as <-. cbn [fst snd] in Hd.
    apply nth_error_combine_both in Hc. destruct Hc as [Hc _]. cbn [fst] in Hc.
    exists ax. split; [rewrite nth_error_app1 by lia; exact Hc|].
    destruct Hd as [_ [_ [_ [_ [_ [reference [curve [Hl [Hr _]]]]]]]]].
    rewrite Hmodel in Hr. destruct reference; [|discriminate].
    rewrite Hl. cbn [app]. rewrite length_app. reflexivity.
  - rewrite nth_error_app2 in Hi by lia.
    exists ax'. split; [|lia].
    rewrite nth_error_app2 by lia. rewrite Ho, <- Hn. exact Hi.
Qed.

Lemma plot_channels_later_lines (later : list (string * chn_summary_t)) :
  forall (kw : plot_kwargs) (fig : figure_t) (r : option figure_t),
  plot_channels csf pearsonr later kw (Some fig) = Ok r ->
  exists fig',
    r = Some fig' /\
    List.length (fig_axes fig') = List.length (fig_axes fig) /\
    Forall (fun c => (List.length (snd c) <= List.length (fig_axes fig))%nat)
           later /\
    forall i ax', nth_error (fig_axes fig') i = Some ax' ->
    exists ax, nth_error (fig_axes fig) i = Some ax /\
      List.length (ax_lines ax') =
      (List.length (ax_lines ax) +
       List.length (filter (fun c => Nat.ltb i (List.length (snd c))) later))%nat.
Proof.
  induction later as [|[k0 v0] later IH]; intros kw fig r H.
  - injection H as <-. exists fig. split; [reflexivity|]. split; [reflexivity|].
    split; [constructor|]. intros i ax' Hi. exists ax'. split; [exact Hi|].
    cbn [filter List.length]. lia.
  - cbn [plot_channels] in H.
    destruct (_plot_chn_csf csf pearsonr v0 k0
                (without_model (with_old_fig kw fig))) as [fig1|e] eqn:E;
      cbn [bind] in H; [|discriminate].
    pose proof (plot_chn_csf_axes_count csf pearsonr v0 k0 _ fig1 E) as Hc.
    cbn [old_fig without_model with_old_fig] in Hc. destruct Hc as [Hcount Hle].
    pose proof (overlay_lines v0 k0 (without_model (with_old_fig kw fig)) fig
                  fig1 eq_refl eq_refl E) as Hstep.
    destruct (IH _ fig1 r H) as [fig' [-> [Hlen [Hall Hlines]]]].
    exists fig'. split; [reflexivity|]. split; [lia|].
    split.
    + constructor; [exact Hle|]. rewrite <- Hcount. exact Hall.
    + intros i ax' Hi.
      destruct (Hlines i ax' Hi) as [ax1 [H1 L1]].
      destruct (Hstep i ax1 H1) as [ax [H0 L0]].
      exists ax. split; [exact H0|].
      cbn [filter snd]. destruct (Nat.ltb i (List.length v0));
        cbn [List.length]; lia.
Qed.

(** The figure that the loop of [plot_csf_areas] returns when it starts
    without a figure: it has the size asked for and one axes object per
    test of the first channel; no later channel has more tests; and the
    axes of index [i] holds one curve for each channel that has a test of
    index [i], after the reference line when a model is named. *)
Theorem plot_channels_figure (chn_key : string) (chn_val : chn_summary_t)
  (later : list (string * chn_summary_t)) (kw : plot_kwargs)
  (r : option figure_t) :
  old_fig kw = None ->
  plot_channels csf pearsonr ((chn_key, chn_val) :: later) kw None = Ok r ->
  exists fig,
    r = Some fig /\
    List.length (fig_axes fig) = List.length chn_val /\
    Forall (fun c => (List.length (snd c) <= List.length chn_val)%nat) later /\
    forall i ax, nth_error (fig_axes fig) i = Some ax ->
      List.length (ax_lines ax) =
      ((match model_name kw with Some _ => 2 | None => 1 end) +
       List.length (filter (fun c => Nat.ltb i (List.length (snd c))) later))%nat.
Proof.
  intros Hold H. cbn [plot_channels] in H.
  destruct (_plot_chn_csf csf pearsonr chn_val chn_key kw) as [fig1|e] eqn:E;
    cbn [bind] in H; [|discriminate].
  pose proof (plot_chn_csf_axes_count csf pearsonr chn_val chn_key kw fig1 E)
    as Hcount.
  rewrite Hold in Hcount.
  unfold _plot_chn_csf in E. rewrite Hold in E.
  apply (plot_tests_fresh csf pearsonr chn_key kw chn_val Hold) in E.
  destruct E as [_ [news [Hax Hall]]]. cbn [fig_axes app] in Hax.
  destruct (plot_channels_later_lines later kw fig1 r H)
    as [fig [-> [Hlen [Hle Hlines]]]].
  exists fig. split; [reflexivity|]. split; [lia|].
  split; [rewrite <- Hcount; exact Hle|].
  intros i ax Hi. destruct (Hlines i ax Hi) as [ax1 [H1 L1]].
  rewrite Hax in H1.
  destruct (Forall2_nth_right _ _ _ Hall i ax1 H1) as [t [_ Hd]].
  destruct Hd as [_ [_ [_ [_ [_ [reference [curve [Hl [Hr _]]]]]]]]].
  rewrite L1, Hl. cbn [ax_lines new_axes app]. rewrite length_app, Hr.
  cbn [List.length]. destruct (model_name kw); lia.
Qed.

End PlotAreasFigure.

Section PlotAreasFigureWitness.

Open Scope string_scope.

Definition scenario_areas : option figure_t :=
  Eval vm_compute in
    match plot_channels flat_csf unit_pearsonr
            [("lum", scenario_tests); ("rg", overlay_tests)]
            scenario_kwargs None with
    | Ok r => r
    | Raise _ => None
    end.

Lemma plot_channels_figure_witness :
  exists fig,
    scenario_areas = Some fig /\
    List.length (fig_axes fig) = List.length scenario_tests /\
    Forall (fun c => (List.length (snd c) <= List.length scenario_tests)%nat)
           [("rg", overlay_tests)] /\
    forall i ax, nth_error (fig_axes fig) i = Some ax ->
      List.length (ax_lines ax) =
      ((match model_name scenario_kwargs with Some _ => 2 | None => 1 end) +
       List.length (filter (fun c => Nat.ltb i (List.length (snd c)))
                      [("rg", overlay_tests)]))%nat.
Proof.
  apply (plot_channels_figure flat_csf unit_pearsonr "lum" scenario_tests
           [("rg", overlay_tests)] scenario_kwargs scenario_areas).
  - reflexivity.
  - vm_compute. reflexivity.
Defined.

End PlotAreasFigureWitness.

(** ** Python's division in [wave2sf] *)

Section PythonDivision.

Open Scope Z_scope.

(** A quotient of magnitude at most one is no infinity. *)
Lemma binary_round_aux_small (s : bool) (q e0 : Z) (l : location)
  (num den : Z) :
  between (shr_record_of_loc q l) num den ->
  e0 <= -52 -> num <= 2 ^ (- e0) * den ->
  B64.is_inf (binary_round_aux B64.prec B64.emax s q e0 l) = false.
Proof.
  intros Hb He Hn. unfold binary_round_aux.
  destruct (shr_fexp_bound q e0 l num den Hb He Hn)
    as [mrs1 [e1 [den1 [E1 [Hb1 [He1 Hn1]]]]]].
  rewrite E1.
  pose proof (round_nearest_even_le mrs1 num den1 (2 ^ (- e1)) Hb1 Hn1) as Hr.
  set (m2 := round_nearest_even (shr_m mrs1) (loc_of_shr_record mrs1)) in *.
  assert (Hb2 : between (shr_record_of_loc m2 loc_Exact) m2 1)
    by (apply between_exact; lia).
  destruct (shr_fexp_bound m2 e1 loc_Exact m2 1 Hb2 He1 ltac:(lia))
    as [mrs2 [e2 [den2 [E2 [Hb3 [He2 Hn2]]]]]].
  rewrite E2.
  destruct Hb3 as [_ [Hm3 _]].
  destruct (shr_m mrs2) as [|p|p]; try lia; [reflexivity|].
  assert (Z.leb e2 (B64.emax - B64.prec) = true) as ->
    by (apply Z.leb_le; unfold B64.emax, B64.prec; lia).
  reflexivity.
Qed.

(** [1 / z] for a Python [int] that is not zero: a double. *)
Lemma one_over_int (z : Z) : z <> 0 -> exists q, int_truediv 1 z = Ok q.
Proof.
  intros Hz. unfold int_truediv.
  destruct (Z.eqb_spec z 0) as [|_]; [contradiction|].
  assert (H : forall s p,
            B64.is_inf (B64.div (S754_finite false 1 0) (S754_finite s p 0))
            = false).
  { intros s p. unfold B64.div, SFdiv.
    destruct (div_core_spec 1 0 p 0) as [q [r [E [Hq [Hr Hqr]]]]].
    rewrite E.
    assert (He : div_exponent 1 0 p 0 <= -52).
    { unfold div_exponent. rewrite fexp64_eq.
      change (Z.pos (digits2_pos 1)) with 1.
      pose proof (Pos2Z.is_pos (digits2_pos p)). lia. }
    apply binary_round_aux_small with (num := q * Z.pos p + r)
                                      (den := Z.pos p).
    - apply new_location_between; assumption.
    - exact He.
    - rewrite Hqr.
      replace (0 - 0 - div_exponent 1 0 p 0) with (- div_exponent 1 0 p 0)
        by lia.
      assert (0 < 2 ^ (- div_exponent 1 0 p 0))
        by (apply Z.pow_pos_nonneg; lia).
      nia. }
  destruct z as [|p|p]; [contradiction| |]; cbn [int_value];
    rewrite H; eexists; reflexivity.
Qed.

(** A wave of which Python takes the inverse, and that is zero. *)
Definition python_zero (e : num) : bool :=
  match e with
  | PyInt z => z =? 0
  | Flt (PyFloat x) => B64.is_zero x
  | Flt (NpFloat _) => false
  end.

Lemma one_over_raises (e : num) (x : exn) :
  one_over e = Raise x -> python_zero e = true /\ x = ZeroDivisionError.
Proof.
  destruct e as [z|[y|y]]; cbn [one_over python_zero].
  - destruct (Z.eqb_spec z 0) as [->|Hz].
    + cbn. intros [= <-]. split; reflexivity.
    + destruct (one_over_int z Hz) as [q ->]. discriminate.
  - destruct (B64.is_zero y); [|discriminate].
    intros [= <-]. split; reflexivity.
  - discriminate.
Qed.

Lemma one_over_zero_raises (e : num) :
  python_zero e = true -> one_over e = Raise ZeroDivisionError.
Proof.
  destruct e as [z|[y|y]]; cbn [one_over python_zero]; intros H.
  - apply Z.eqb_eq in H. subst z. reflexivity.
  - rewrite H. reflexivity.
  - discriminate.
Qed.

(** When [target_size / 2] is a double, a zero that is a Python [int] or
    float, anywhere in the list, makes [wave2sf] raise, and what it raises
    is [ZeroDivisionError]. *)
Theorem wave2sf_python_zero_raises (wave : list num) (target_size : Z)
  (half : float) :
  int_truediv target_size 2 = Ok half ->
  (exists e, In e wave /\ python_zero e = true) ->
  wave2sf wave target_size = Raise ZeroDivisionError.
Proof.
  intros Hh [e [Hin Hz]]. unfold wave2sf. rewrite Hh. cbn [bind].
  apply for_each_raises.
  - intros a x _ Ha.
    destruct (one_over a) as [inv|x'] eqn:E; cbn [bind] in Ha;
      [discriminate|].
    injection Ha as <-. apply (one_over_raises a x' E).
  - exists e. split; [exact Hin|].
    rewrite (one_over_zero_raises e Hz). reflexivity.
Qed.

Lemma wave2sf_python_zero_raises_witness :
  wave2sf [np (B64.of_Z 4); PyInt 0; Flt (PyFloat (B64.of_Z 8))] 224
  = Raise ZeroDivisionError.
Proof.
  apply (wave2sf_python_zero_raises
           [np (B64.of_Z 4); PyInt 0; Flt (PyFloat (B64.of_Z 8))] 224
           (B64.of_Z 112)).
  - vm_compute. reflexivity.
  - exists (PyInt 0). split; [right; left; reflexivity | reflexivity].
Defined.

(** When [target_size / 2] is a double and the list holds no zero that is
    a Python [int] or float, [wave2sf] returns: one frequency per wave, in
    order, the inverse of the wave times the base frequency, of the kind
    of float that the inverse is. *)
Theorem wave2sf_returns (wave : list num) (target_size : Z) (half : float) :
  int_truediv target_size 2 = Ok half ->
  (forall e, In e wave -> python_zero e = false) ->
  exists sfs,
    wave2sf wave target_size = Ok sfs /\
    Forall2 (fun e sf => exists inv, one_over e = Ok inv /\
                                     sf = times inv (B64.div half B64.pi))
            wave sfs.
Proof.
  intros Hh Hnz. unfold wave2sf. rewrite Hh. cbn [bind].
  destruct (for_each_total
              (fun e => inv <- one_over e ;;
                        Ok (times inv (B64.div half B64.pi))) wave)
    as [sfs Hs].
  - intros a Ha. destruct (one_over a) as [inv|x] eqn:E; cbn [bind];
      [eauto|].
    apply one_over_raises in E. destruct E as [E _].
    rewrite (Hnz a Ha) in E. discriminate.
  - exists sfs. split; [exact Hs|].
    apply for_each_Forall2 in Hs.
    induction Hs as [|e sf wave sfs He _ IH]; constructor.
    + destruct (one_over e) as [inv|]; cbn [bind] in He; [|discriminate].
      injection He as <-. exists inv. split; reflexivity.
    + apply IH. intros a Ha. apply Hnz. right. exact Ha.
Qed.

Lemma wave2sf_returns_witness :
  exists sfs,
    wave2sf [np (B64.of_Z 0); PyInt 4; Flt (PyFloat (B64.of_Z 8))] 224
      = Ok sfs /\
    Forall2 (fun e sf => exists inv, one_over e = Ok inv /\
                           sf = times inv (B64.div (B64.of_Z 112) B64.pi))
            [np (B64.of_Z 0); PyInt 4; Flt (PyFloat (B64.of_Z 8))] sfs.
Proof.
  apply (wave2sf_returns
           [np (B64.of_Z 0); PyInt 4; Flt (PyFloat (B64.of_Z 8))] 224
           (B64.of_Z 112)).
  - vm_compute. reflexivity.
  - intros e He. cbn [In] in He.
    repeat (destruct He as [<-|He]; [reflexivity|]). destruct He.
Defined.

End PythonDivision.

(** ** A target size too large for a double *)

Section TargetSizeOverflow.

Open Scope Z_scope.

(** A mantissa of 53 bits or more is shifted down to 53 bits. *)
Lemma shr_fexp_large (q e0 : Z) (l : location) (num den : Z) :
  between (shr_record_of_loc q l) num den ->
  2 ^ 52 <= q -> -1074 <= e0 ->
  exists mrs e1,
    shr_fexp B64.prec B64.emax q e0 l = (mrs, e1) /\
    e1 = e0 + Zdigits2 q - 53 /\ 2 ^ 52 <= shr_m mrs < 2 ^ 53.
Proof.
  intros Hb Hq He. unfold shr_fexp.
  destruct q as [|p|p]; try lia. cbn [Zdigits2].
  pose proof (digits2_pos_bounds p) as [Blo Bhi].
  assert (Hd : 53 <= Z.pos (digits2_pos p)).
  { assert (52 < Z.pos (digits2_pos p))
      by (apply (Z.pow_lt_mono_r_iff 2); lia).
    lia. }
  set (d := Z.pos (digits2_pos p)) in *.
  set (n := fexp B64.prec B64.emax (d + e0) - e0).
  assert (Hn : n = d - 53) by (unfold n; rewrite fexp64_eq; lia).
  destruct (between_shr _ e0 n num den Hb) as [Hb1 He1].
  destruct (shr (shr_record_of_loc (Z.pos p) l) e0 n) as [mrs e1].
  cbn [fst snd] in Hb1, He1.
  exists mrs, e1. split; [reflexivity|]. split; [lia|].
  destruct Hb as [Hden [_ [Hv _]]]. rewrite shr_record_of_loc_m in Hv.
  destruct Hb1 as [_ [Hm [Hv1 _]]].
  rewrite Z.max_r in Hv1 by lia.
  assert (HP : 0 < 2 ^ n) by (apply Z.pow_pos_nonneg; lia).
  assert (Hlo : 2 ^ (d - 1) = 2 ^ 52 * 2 ^ n).
  { rewrite <- Z.pow_add_r by lia. f_equal. lia. }
  assert (Hhi : 2 ^ d = 2 ^ 53 * 2 ^ n).
  { rewrite <- Z.pow_add_r by lia. f_equal. lia. }
  rewrite Hlo in Blo. rewrite Hhi in Bhi.
  set (P := 2 ^ n) in *. set (m := shr_m mrs) in *.
  assert (H1 : m * P <= Z.pos p) by nia.
  assert (H2 : Z.pos p < (m + 1) * P) by nia.
  split.
  - assert (2 ^ 52 * P < (m + 1) * P) by lia.
    assert (2 ^ 52 < m + 1) by (apply (Z.mul_lt_mono_pos_r P); assumption).
    lia.
  - assert (m * P < 2 ^ 53 * P) by lia.
    apply (Z.mul_lt_mono_pos_r P); assumption.
Qed.

(** Rounding a mantissa whose leading bit lies above the largest double:
    an infinity. *)
Lemma binary_round_aux_overflow (s : bool) (q e0 : Z) (l : location)
  (num den : Z) :
  between (shr_record_of_loc q l) num den ->
  2 ^ 52 <= q -> -1074 <= e0 -> 971 < e0 + Zdigits2 q - 53 ->
  binary_round_aux B64.prec B64.emax s q e0 l = S754_infinity s.
Proof.
  intros Hb Hq He Hbig. unfold binary_round_aux.
  destruct (shr_fexp_large q e0 l num den Hb Hq He)
    as [mrs1 [e1 [E1 [He1 Hm1]]]].
  rewrite E1.
  pose proof (round_nearest_even_near (shr_m mrs1) (loc_of_shr_record mrs1))
    as Hr.
  set (m2 := round_nearest_even (shr_m mrs1) (loc_of_shr_record mrs1)) in *.
  assert (Hb2 : between (shr_record_of_loc m2 loc_Exact) m2 1)
    by (apply between_exact; lia).
  destruct (shr_fexp_large m2 e1 loc_Exact m2 1 Hb2 ltac:(lia) ltac:(lia))
    as [mrs2 [e2 [E2 [He2 Hm3]]]].
  rewrite E2.
  assert (Hd2 : 53 <= Zdigits2 m2).
  { destruct m2 as [|p|p]; try lia. cbn [Zdigits2].
    pose proof (digits2_pos_bounds p) as [_ Bhi].
    assert (52 < Z.pos (digits2_pos p))
      by (apply (Z.pow_lt_mono_r_iff 2); lia).
    lia. }
  destruct (shr_m mrs2) as [|p|p] eqn:Ep; try lia.
  assert (Z.leb e2 (B64.emax - B64.prec) = false) as ->
    by (apply Z.leb_gt; unfold B64.emax, B64.prec; lia).
  reflexivity.
Qed.

Lemma int_truediv_overflow (target_size : Z) :
  2 ^ 1025 <= Z.abs target_size ->
  int_truediv target_size 2 = Raise OverflowError.
Proof.
  intros HT. unfold int_truediv. cbn [Z.eqb].
  assert (H : forall s p, 2 ^ 1025 <= Z.pos p ->
            B64.div (S754_finite s p 0) (S754_finite false 2 0)
            = S754_infinity s).
  { intros s p Hp. unfold B64.div, SFdiv.
    destruct (div_core_spec p 0 2 0) as [q [r [E [Hq [Hr Hqr]]]]].
    rewrite E. rewrite xorb_false_r.
    pose proof (digits2_pos_bounds p) as [_ Bhi].
    assert (Hdp : 1025 < Z.pos (digits2_pos p))
      by (apply (Z.pow_lt_mono_r_iff 2); lia).
    assert (He : div_exponent p 0 2 0 = 0).
    { unfold div_exponent. rewrite fexp64_eq.
      change (Z.pos (digits2_pos 2)) with 2. lia. }
    rewrite He in *. change (2 ^ (0 - 0 - 0)) with 1 in Hqr.
    assert (Hq1024 : 2 ^ 1024 <= q).
    { change (2 ^ 1025) with (2 * 2 ^ 1024) in Hp. lia. }
    assert (Hdq : 1024 < Zdigits2 q).
    { destruct q as [|q'|q']; try lia. cbn [Zdigits2].
      pose proof (digits2_pos_bounds q') as [_ Qhi].
      apply (Z.pow_lt_mono_r_iff 2); lia. }
    apply binary_round_aux_overflow with (num := q * 2 + r) (den := 2).
    - apply (new_location_between q r 2); lia.
    - assert (2 ^ 52 <= 2 ^ 1024) by (apply Z.pow_le_mono_r; lia). lia.
    - lia.
    - lia. }
  destruct target_size as [|p|p]; cbn [Z.abs int_value] in *.
  - exfalso. assert (0 < 2 ^ 1025) by (apply Z.pow_pos_nonneg; lia). lia.
  - rewrite H by exact HT. reflexivity.
  - rewrite H by exact HT. reflexivity.
Qed.

(** An [int] target size of [2 ^ 1025] or more, in absolute value, is too
    large for [target_size / 2]: [wave2sf] and [uniform_sfs] raise
    [OverflowError] whatever the waves are, and [_extract_data] raises it
    whatever the trial matrix holds. *)
Theorem target_size_overflow (target_size : Z) :
  2 ^ 1025 <= Z.abs target_size ->
  (forall wave, wave2sf wave target_size = Raise OverflowError) /\
  (forall xvals yvals,
     uniform_sfs xvals yvals target_size = Raise OverflowError) /\
  (forall result_mat,
     _extract_data result_mat target_size = Raise OverflowError).
Proof.
  intros HT. pose proof (int_truediv_overflow target_size HT) as Ho.
  split; [|split].
  - intros wave. unfold wave2sf. rewrite Ho. reflexivity.
  - intros xvals yvals. unfold uniform_sfs. rewrite Ho. reflexivity.
  - intros result_mat. unfold _extract_data, wave2sf. rewrite Ho. reflexivity.
Qed.

Lemma target_size_overflow_witness :
  (forall wave, wave2sf wave (10 ^ 400) = Raise OverflowError) /\
  (forall xvals yvals,
     uniform_sfs xvals yvals (10 ^ 400) = Raise OverflowError) /\
  (forall result_mat,
     _extract_data result_mat (10 ^ 400) = Raise OverflowError).
Proof.
  apply target_size_overflow.
  apply Z.leb_le. vm_compute. reflexivity.
Defined.

End TargetSizeOverflow.
